(** * Climate-corrected Bullard plots: a shallow embedding

    The notebook [Notebooks/Climate-corrected Bullard plots.ipynb] estimates
    heat flow from borehole temperature logs.  This development embeds its
    numerical core: [thermal_resistance], [least_squares],
    [climate_correction_period] and the sensitivity-analysis loop of the
    Bullard-plot cell; and around it [load_borehole], the cells that
    prepare the instrumental record, the uncertainty of the resistance
    and the two Monte Carlo functions.

    Conventions of the embedding.
    - A NumPy [float64] is read as a real number ([R]); rounding, [nan] and
      [inf] are outside the model.  A one-dimensional array is a [list R].
    - NumPy broadcasting of two one-dimensional operands is written out
      ([broadcast2]); an operation that raises in Python returns [Raise].
    - [np.random.normal] consumes standard-normal draws from an explicit
      stream carried in the state of the monad [M].
    - [scipy.special.erfc] and [np.linalg.lstsq] are library routines; they
      are given by their mathematical definition (an integral, and the
      minimum-norm least-squares solution in closed form).  [lstsq_rcond]
      carries the rank cutoff of the routine; [lstsq_line] is the routine
      read at infinite precision, with which it agrees except on a design
      matrix whose smaller singular value is positive but below the
      cutoff.
    - [np.loadtxt] is taken by what it returns for the data rows of a
      file: nothing, one scalar per column, or one array per column. *)

From Stdlib Require Import Reals Lra Lia List Bool Arith Sorted.
From Stdlib Require String.
Import String.StringSyntax.
Import ListNotations.

Delimit Scope string_scope with string.

Open Scope R_scope.

(** ** Python exceptions and results *)

Inductive exn : Type :=
| ValueError      (* shapes that do not broadcast, negative scale *)
| IndexError      (* subscript out of range, subscript on a scalar *)
| LinAlgError     (* lstsq: incompatible dimensions *)
| AttributeError. (* a method asked of a value that has none of that name *)

Inductive result (A : Type) : Type :=
| Ok (a : A)
| Raise (e : exn).

Arguments Ok {A} a.
Arguments Raise {A} e.

Definition array := list R.

(** ** scipy.special.erfc *)

Module Special.

Definition gauss (t : R) : R := exp (- (t * t)).

Definition gauss_integrable (a b : R) : Riemann_integrable gauss a b.
Proof.
  assert (Hc : continuity gauss).
  { unfold gauss.
    change (continuity (comp exp (- (id * id))%F)).
    apply continuity_comp.
    - apply continuity_opp, continuity_mult;
        apply derivable_continuous, derivable_id.
    - apply derivable_continuous, derivable_exp. }
  destruct (Rle_dec a b) as [Hab | Hab].
  - apply continuity_implies_RiemannInt; [exact Hab |].
    intros x _. apply Hc.
  - apply RiemannInt_P1, continuity_implies_RiemannInt; [lra |].
    intros x _. apply Hc.
Qed.

(** erf x = 2/sqrt(pi) * integral of exp(-t^2) for t from 0 to x. *)
Definition erf (x : R) : R := 2 / sqrt PI * RiemannInt (gauss_integrable 0 x).

Definition erfc (x : R) : R := 1 - erf x.

End Special.

Import Special.

(** ** NumPy array primitives *)

Definition bind_result {A B : Type} (r : result A) (f : A -> result B) : result B :=
  match r with
  | Ok a => f a
  | Raise e => Raise e
  end.

Fixpoint zip_with {C : Type} (f : R -> R -> C) (xs ys : array) : list C :=
  match xs, ys with
  | x :: xs', y :: ys' => f x y :: zip_with f xs' ys'
  | _, _ => []
  end.

(** Elementwise binary operation on two 1-D operands under NumPy's
    broadcasting rule: equal lengths, or one operand of length 1. *)
Definition broadcast2 {C : Type} (f : R -> R -> C) (xs ys : array) : result (list C) :=
  if Nat.eqb (length xs) (length ys) then Ok (zip_with f xs ys)
  else match xs, ys with
       | [x], _ => Ok (map (f x) ys)
       | _, [y] => Ok (map (fun x => f x y) xs)
       | _, _ => Raise ValueError
       end.

(** [a += b] on a 1-D array [a]: [b] must broadcast to the shape of [a]. *)
Definition iadd (a b : array) : result array :=
  if Nat.eqb (length a) (length b) then Ok (zip_with Rplus a b)
  else match b with
       | [y] => Ok (map (fun x => x + y) a)
       | _ => Raise ValueError
       end.

(** [np.diff]: consecutive differences. *)
Fixpoint np_diff (l : array) : array :=
  match l with
  | a :: tl => match tl with
               | b :: _ => (b - a) :: np_diff tl
               | [] => []
               end
  | [] => []
  end.

Fixpoint cumsum_from (acc : R) (l : array) : array :=
  match l with
  | [] => []
  | x :: l' => (acc + x) :: cumsum_from (acc + x) l'
  end.

(** [np.cumsum]: running sums, the first entry being the first element. *)
Definition np_cumsum (l : array) : array :=
  match l with
  | [] => []
  | x :: l' => x :: cumsum_from x l'
  end.

Definition np_sum (l : array) : R := fold_right Rplus 0 l.

(** [np.mean] of a non-empty array.  On an empty array NumPy returns
    [nan], which the real numbers do not have: the quotient below is then
    a division by zero, and the statements that read a mean keep the
    array non-empty. *)
Definition np_mean (l : array) : R := np_sum l / INR (length l).

(** [np.std]: square root of the mean squared deviation from the mean. *)
Definition np_std (l : array) : R :=
  let mu := np_mean l in
  sqrt (np_mean (map (fun x => Rabs (x - mu) * Rabs (x - mu)) l)).

(** [np.clip x lo hi] is [minimum (maximum x lo) hi]. *)
Definition np_clip (x lo hi : R) : R := Rmin (Rmax x lo) hi.

Definition np_zeros (n : nat) : array := repeat 0 n.

(** [l[i]] for reading. *)
Definition getitem (l : array) (i : nat) : result R :=
  match nth_error l i with
  | Some x => Ok x
  | None => Raise IndexError
  end.

(** [l[i] = v]. *)
Fixpoint setitem (l : array) (i : nat) (v : R) : result array :=
  match l, i with
  | [], _ => Raise IndexError
  | _ :: l', O => Ok (v :: l')
  | x :: l', S i' => bind_result (setitem l' i' v) (fun r => Ok (x :: r))
  end.

(** ** The notebook's functions *)

(** [thermal_resistance(z, k)].  The body reads the module-level name
    [z_k]; it is the first argument here.  The parameter [z] is not used
    by the body. *)
Definition thermal_resistance (z_k : array) (z k : array) : result array :=
  let delta_z := np_diff (0 :: z_k) in
  bind_result (broadcast2 Rdiv delta_z k) (fun q => Ok (np_cumsum q)).

(** [n*Sxx - Sx^2] for the column [R] of the design matrix [[R, 1]]: zero
    exactly when the matrix is rank deficient. *)
Definition discriminant (xs : array) : R :=
  INR (length xs) * np_sum (zip_with Rmult xs xs) - np_sum xs * np_sum xs.

(** [np.linalg.lstsq(A, T)[0]] for the design matrix [A = [R, 1]], read
    at infinite precision (a singular value counts as zero only when it
    is zero; [lstsq_rcond] below has the cutoff of the routine): the
    least-squares solution of smallest 2-norm.  With [D] the discriminant:
    for [D <> 0] the system has full rank and the solution is the one of the
    normal equations; for [D = 0] and a non-empty [R] all entries of [R]
    equal some [r], every [(m, c)] with [m*r + c = mean T] minimises the
    residual, and the shortest one is [mean T / (r^2 + 1) * (r, 1)];
    for empty input the solution is zero. *)
Definition lstsq_line (R_ T : array) : result (R * R) :=
  if negb (Nat.eqb (length R_) (length T)) then Raise LinAlgError
  else
    let n := INR (length R_) in
    let Sx := np_sum R_ in
    let Sy := np_sum T in
    let Sxy := np_sum (zip_with Rmult R_ T) in
    let D := discriminant R_ in
    if Req_dec_T D 0 then
      match R_ with
      | [] => Ok (0, 0)
      | r :: _ => Ok (r * (Sy / n) / (r * r + 1), (Sy / n) / (r * r + 1))
      end
    else
      let m := (n * Sxy - Sx * Sy) / D in
      Ok (m, (Sy - m * Sx) / n).

(** [least_squares(R, T)]: builds [A = vstack([R, ones]).T] and unpacks the
    solution of [lstsq]. *)
Definition least_squares (R_ T : array) : result (R * R) :=
  bind_result (lstsq_line R_ T) (fun '(m, c) => Ok (m, c)).

(** ** The rank cutoff of np.linalg.lstsq

    [lstsq_line] above reads the solver at infinite precision: a singular
    value counts as zero only when it is zero.  The routine itself treats
    a singular value as zero when it is not larger than [rcond] times the
    largest one; called without [rcond], as [least_squares] does, it uses
    a cutoff of the order of the machine precision.  The definitions below
    carry that cutoff. *)

(** [A^T A] for the design matrix [A = [R, 1]] is [[Sxx, Sx], [Sx, n]];
    its two eigenvalues are the squares of the singular values of [A]. *)
Definition gram_trace (xs : array) : R :=
  np_sum (zip_with Rmult xs xs) + INR (length xs).

Definition gram_gap (xs : array) : R :=
  let d := np_sum (zip_with Rmult xs xs) - INR (length xs) in
  sqrt (d * d + 4 * (np_sum xs * np_sum xs)).

Definition gram_eigen_max (xs : array) : R := (gram_trace xs + gram_gap xs) / 2.
Definition gram_eigen_min (xs : array) : R := (gram_trace xs - gram_gap xs) / 2.

Definition singular_max (xs : array) : R := sqrt (gram_eigen_max xs).
Definition singular_min (xs : array) : R := sqrt (gram_eigen_min xs).

(** An eigenvector of [A^T A] for its larger eigenvalue. *)
Definition dominant (xs : array) : R * R :=
  if Req_dec_T (np_sum xs) 0 then
    if Rle_dec (np_sum (zip_with Rmult xs xs)) (INR (length xs)) then (0, 1)
    else (1, 0)
  else (gram_eigen_max xs - INR (length xs), np_sum xs).

(** [np.linalg.lstsq(A, T, rcond)[0]] for [A = [R, 1]]: the solution of
    smallest 2-norm of the least-squares problem in which every singular
    value not larger than [rcond] times the largest is replaced by zero.
    With both singular values kept it is the solution of the normal
    equations; with the larger one only it is the projection on the
    dominant direction [v], [v (v . A^T T) / (lambda_max |v|^2)]; with
    none it is zero. *)
Definition lstsq_rcond (rcond : R) (R_ T : array) : result (R * R) :=
  if negb (Nat.eqb (length R_) (length T)) then Raise LinAlgError
  else
    let n := INR (length R_) in
    let Sx := np_sum R_ in
    let Sy := np_sum T in
    let Sxy := np_sum (zip_with Rmult R_ T) in
    let cut := rcond * singular_max R_ in
    if Rle_dec (singular_max R_) cut then Ok (0, 0)
    else if Rle_dec (singular_min R_) cut then
      let v := dominant R_ in
      let beta := (fst v * Sxy + snd v * Sy)
                  / (gram_eigen_max R_ * (fst v * fst v + snd v * snd v)) in
      Ok (beta * fst v, beta * snd v)
    else
      let m := (n * Sxy - Sx * Sy) / discriminant R_ in
      Ok (m, (Sy - m * Sx) / n).

(** [least_squares(R, T)] with the cutoff of its [lstsq] call explicit. *)
Definition least_squares_rcond (rcond : R) (R_ T : array) : result (R * R) :=
  bind_result (lstsq_rcond rcond R_ T) (fun '(m, c) => Ok (m, c)).

(** The cutoff when [lstsq] is called without [rcond]: the machine
    precision of the LAPACK driver, [2^-53], up to NumPy 1.x; the
    floating-point epsilon [2^-52] times the larger dimension of the
    [rows x 2] matrix from NumPy 2.0 on. *)
Definition rcond_lapack : R := / 9007199254740992.
Definition rcond_numpy2 (rows : nat) : R := INR (Nat.max rows 2) / 4503599627370496.


(** [climate_correction_period(kappa, t0, t1, Tk, z)] on scalars. *)
Definition climate_correction_period (kappa t0 t1 Tk z : R) : R :=
  Tk * (erfc (z / (2 * sqrt (kappa * t1))) - erfc (z / (2 * sqrt (kappa * t0)))).

(** The same call with array-valued [kappa] and [z] (as in the Bullard-plot
    cell): every operation is elementwise, [kappa] and [z] broadcast. *)
Definition climate_correction_period_arr
    (kappa : array) (t0 t1 Tk : R) (z : array) : result array :=
  broadcast2 (fun ka zz => climate_correction_period ka t0 t1 Tk zz) kappa z.

Definition y2s (t : R) : R := t * 3.15567 * 1e7.

Definition s2y (t : R) : R := t / 3.15567 / 1e7.

(** ** Random draws, the call log, and the monad of the notebook cell *)

(** One recorded call of [climate_correction_period]. *)
Record ccp_call : Type := mk_call {
  call_kappa : array;
  call_t0 : R;
  call_t1 : R;
  call_Tk : R;
  call_z : array
}.

(** The state threaded through a cell: the stream of standard-normal draws
    still to be consumed by [np.random], and (ghost) the calls made so far
    to [climate_correction_period]. *)
Record world : Type := mk_world {
  draws : nat -> R;
  calls : list ccp_call
}.

Definition M (A : Type) : Type := world -> result (A * world).

Definition ret {A : Type} (a : A) : M A := fun w => Ok (a, w).

Definition bind {A B : Type} (c : M A) (f : A -> M B) : M B :=
  fun w => match c w with
           | Ok (a, w') => f a w'
           | Raise e => Raise e
           end.

Definition raise {A : Type} (e : exn) : M A := fun _ => Raise e.

Definition lift {A : Type} (r : result A) : M A :=
  fun w => match r with
           | Ok a => Ok (a, w)
           | Raise e => Raise e
           end.

Declare Scope cell_scope.
Delimit Scope cell_scope with cell.
Notation "x <- c ;; k" := (bind c (fun x => k))
  (at level 61, c at next level, right associativity) : cell_scope.
Notation "' p <- c ;; k" := (bind c (fun p => k))
  (at level 61, p pattern, c at next level, right associativity) : cell_scope.
Open Scope cell_scope.

(** The world after one draw, and after [n] draws. *)
Definition tail_world (w : world) : world :=
  mk_world (fun n => draws w (S n)) (calls w).

Fixpoint advance (n : nat) (w : world) : world :=
  match n with
  | O => w
  | S n' => advance n' (tail_world w)
  end.

Definition log_call (c : ccp_call) (w : world) : world :=
  mk_world (draws w) (calls w ++ [c]).

Definition standard_normal : M R :=
  fun w => Ok (draws w 0%nat, tail_world w).

(** [np.random.normal(loc, scale)] on scalars: [loc + scale * xi]. *)
Definition normal (loc scale : R) : M R :=
  if Rlt_dec scale 0 then raise ValueError
  else xi <- standard_normal ;; ret (loc + scale * xi).

Fixpoint draw_each (ps : list (R * R)) : M array :=
  match ps with
  | [] => ret []
  | (loc, scale) :: ps' =>
      xi <- standard_normal ;;
      rest <- draw_each ps' ;;
      ret ((loc + scale * xi) :: rest)
  end.

Definition negative_scale (p : R * R) : bool :=
  if Rlt_dec (snd p) 0 then true else false.

(** [np.random.normal(loc, scale)] on arrays: operands broadcast, every
    scale is checked, then one draw per element in order. *)
Definition normal_arr (loc scale : array) : M array :=
  ps <- lift (broadcast2 pair loc scale) ;;
  if existsb negative_scale ps then raise ValueError else draw_each ps.

(** A call of [climate_correction_period] from the cell, recorded. *)
Definition call_climate_correction_period
    (kappa : array) (t0 t1 Tk : R) (z : array) : M array :=
  fun w => match climate_correction_period_arr kappa t0 t1 Tk z with
           | Ok d => Ok (d, log_call (mk_call kappa t0 t1 Tk z) w)
           | Raise e => Raise e
           end.

(** [for j in js: s = body(j, s)]. *)
Fixpoint for_each {S : Type} (js : list nat) (body : nat -> S -> M S) (s : S) : M S :=
  match js with
  | [] => ret s
  | j :: js' => s' <- body j s ;; for_each js' body s'
  end.

(** [for j in range(0, n)]. *)
Definition for_range {S : Type} (n : nat) (body : nat -> S -> M S) (s : S) : M S :=
  for_each (seq 0 n) body s.

(** ** Module-level names read by the Bullard-plot cell *)

Module Globals.
Record t : Type := mk {
  nsim : nat;
  (* palaeoclimate compilation, in seconds before present *)
  t0 : array;
  t1 : array;
  Tc : array;
  sigma_Tc : array;
  (* instrumental record, decadal blocks *)
  t0b : array;
  t1b : array;
  T0_40N2 : array;
  (* the borehole being processed *)
  z_k : array;
  k : array;
  sigma_k : array;
  T_k : array;
  sigma_T_k : array
}.
End Globals.

Definition cp : R := 800.
Definition rho : R := 2700.

(** ** The sensitivity-analysis loop *)

(** Body of [for j in range(0, t0.size)]: one palaeoclimate epoch. *)
Definition palaeoclimate_step (g : Globals.t) (a_random : array)
    (j : nat) (T_random : array) : M array :=
  t0j <- lift (getitem (Globals.t0 g) j) ;;
  x0 <- normal t0j (y2s 1e3) ;;
  let t0_random := np_clip x0 1e-6 1e99 in
  t1j <- lift (getitem (Globals.t1 g) j) ;;
  x1 <- normal t1j (y2s 1e3) ;;
  let t1_random := np_clip x1 1e-6 1e99 in
  Tcj <- lift (getitem (Globals.Tc g) j) ;;
  sj <- lift (getitem (Globals.sigma_Tc g) j) ;;
  Tc_random <- normal Tcj sj ;;
  d <- call_climate_correction_period a_random t0_random t1_random Tc_random
         (Globals.z_k g) ;;
  lift (iadd T_random d).

(** Body of [for j in range(0, t0b.size)]: one instrumental epoch. *)
Definition instrumental_step (g : Globals.t) (a_random : array)
    (j : nat) (T_random : array) : M array :=
  t0j <- lift (getitem (Globals.t0b g) j) ;;
  let t0_random := np_clip t0j 1e-6 1e99 in
  t1j <- lift (getitem (Globals.t1b g) j) ;;
  let t1_random := np_clip t1j 1e-6 1e99 in
  Tj <- lift (getitem (Globals.T0_40N2 g) j) ;;
  Tc_random <- normal Tj 0.1 ;;
  d <- call_climate_correction_period a_random t0_random t1_random Tc_random
         (Globals.z_k g) ;;
  lift (iadd T_random d).

(** The call made by the [j]-th palaeoclimate step from world [w], and by
    the [j]-th instrumental step. *)
Definition palaeoclimate_call (g : Globals.t) (a_random : array)
    (j : nat) (w : world) : ccp_call :=
  mk_call a_random
    (np_clip (nth j (Globals.t0 g) 0 + y2s 1e3 * draws w 0%nat) 1e-6 1e99)
    (np_clip (nth j (Globals.t1 g) 0 + y2s 1e3 * draws w 1%nat) 1e-6 1e99)
    (nth j (Globals.Tc g) 0 + nth j (Globals.sigma_Tc g) 0 * draws w 2%nat)
    (Globals.z_k g).

Definition instrumental_call (g : Globals.t) (a_random : array)
    (j : nat) (w : world) : ccp_call :=
  mk_call a_random
    (np_clip (nth j (Globals.t0b g) 0) 1e-6 1e99)
    (np_clip (nth j (Globals.t1b g) 0) 1e-6 1e99)
    (nth j (Globals.T0_40N2 g) 0 + 0.1 * draws w 0%nat)
    (Globals.z_k g).

(** What one pass of [for i in range(0, nsim)] computes before storing. *)
Record sample : Type := mk_sample {
  s_q : R;
  s_c : R;
  s_qc : R;
  s_cc : R;
  s_T : array
}.

Definition perturbed_conductivity (kr : array) : array :=
  map (fun x => np_clip x 0.001 1e99) kr.

Definition diffusivity (k_random : array) : array :=
  map (fun x => x / (cp * rho)) k_random.

Definition iteration (g : Globals.t) : M sample :=
  T_random <- normal_arr (Globals.T_k g) (Globals.sigma_T_k g) ;;
  kr <- normal_arr (Globals.k g) (Globals.sigma_k g) ;;
  let k_random := perturbed_conductivity kr in
  let a_random := diffusivity k_random in
  R_ <- lift (thermal_resistance (Globals.z_k g) (Globals.z_k g) k_random) ;;
  '(q, c) <- lift (least_squares R_ T_random) ;;
  T_random <- for_range (length (Globals.t0 g))
                (palaeoclimate_step g a_random) T_random ;;
  T_random <- for_range (length (Globals.t0b g))
                (instrumental_step g a_random) T_random ;;
  '(qc, cc) <- lift (least_squares R_ T_random) ;;
  ret (mk_sample q c qc cc T_random).

(** The storage arrays of the cell. *)
Record storage : Type := mk_storage {
  q_all : array;
  qc_all : array;
  c_all : array;
  cc_all : array;
  T_all : list array
}.

(** [T_all[i] = T_random]: the row must broadcast to the row length. *)
Fixpoint setrow (rows : list array) (i : nat) (v : array) : result (list array) :=
  match rows, i with
  | [], _ => Raise IndexError
  | r :: rows', O =>
      if Nat.eqb (length v) (length r) then Ok (v :: rows')
      else match v with
           | [x] => Ok (map (fun _ => x) r :: rows')
           | _ => Raise ValueError
           end
  | r :: rows', S i' => bind_result (setrow rows' i' v) (fun rs => Ok (r :: rs))
  end.

Definition store (i : nat) (s : sample) (st : storage) : result storage :=
  bind_result (setitem (q_all st) i (s_q s)) (fun q' =>
  bind_result (setitem (c_all st) i (s_c s)) (fun c' =>
  bind_result (setitem (qc_all st) i (s_qc s)) (fun qc' =>
  bind_result (setitem (cc_all st) i (s_cc s)) (fun cc' =>
  bind_result (setrow (T_all st) i (s_T s)) (fun T' =>
  Ok (mk_storage q' qc' c' cc' T')))))).

(** The storage as created by the cell, once, before the loop over
    boreholes: [np.zeros(nsim)] four times. *)
Definition fresh_storage (g : Globals.t) : storage :=
  let n := Globals.nsim g in
  mk_storage (np_zeros n) (np_zeros n) (np_zeros n) (np_zeros n) [].

(** What the cell reports for one borehole. *)
Record summary : Type := mk_summary {
  Qs : R;
  Qs_c : R;
  sigma_Qs : R;
  sigma_Qs_c : R
}.

Definition sensitivity_loop (g : Globals.t) (st : storage) : M storage :=
  for_range (Globals.nsim g)
    (fun i st => s <- iteration g ;; lift (store i s st)) st.

Definition summarise (st : storage) : summary :=
  mk_summary (np_mean (q_all st) * 1e3) (np_mean (qc_all st) * 1e3)
             (np_std (q_all st) * 1e3) (np_std (qc_all st) * 1e3).

(** The sensitivity analysis of one borehole.  The four one-dimensional
    storage arrays are the ones left by the previous borehole ([st]);
    [T_all] is created anew. *)
Definition sensitivity_analysis (g : Globals.t) (st : storage) : M (summary * storage) :=
  let T_all0 := repeat (np_zeros (length (Globals.T_k g))) (Globals.nsim g) in
  let st0 := mk_storage (q_all st) (qc_all st) (c_all st) (cc_all st) T_all0 in
  st' <- sensitivity_loop g st0 ;; ret (summarise st', st').

(** ** Further cells of the notebook *)

(** [a.max()] and [a.min()]: both raise on an empty array. *)
Fixpoint max_from (m : R) (l : array) : R :=
  match l with
  | [] => m
  | x :: l' => max_from (Rmax m x) l'
  end.

Definition np_max (a : array) : result R :=
  match a with
  | [] => Raise ValueError
  | x :: l => Ok (max_from x l)
  end.

Fixpoint min_from (m : R) (l : array) : R :=
  match l with
  | [] => m
  | x :: l' => min_from (Rmin m x) l'
  end.

Definition np_min (a : array) : result R :=
  match a with
  | [] => Raise ValueError
  | x :: l => Ok (min_from x l)
  end.

(** [a <= m], elementwise. *)
Definition le_mask (a : array) (m : R) : list bool :=
  map (fun x => if Rle_dec x m then true else false) a.

Fixpoint select (mask : list bool) (a : array) : array :=
  match mask, a with
  | b :: mask', x :: a' => if b then x :: select mask' a' else select mask' a'
  | _, _ => []
  end.

(** [a[mask]] for a boolean mask: the mask must have the length of [a]. *)
Definition getmask (a : array) (mask : list bool) : result array :=
  if Nat.eqb (length mask) (length a) then Ok (select mask a)
  else Raise IndexError.

(** The last lines of [load_borehole], on the columns as [trim_columns]
    returns them: conductivity samples deeper than the deepest
    temperature reading are dropped. *)
Definition load_borehole_trim (z z_k k sigma_k : array)
  : result (array * array * array) :=
  bind_result (np_max z) (fun zmax =>
  let mask := le_mask z_k zmax in
  bind_result (getmask z_k mask) (fun z_k' =>
  bind_result (getmask k mask) (fun k' =>
  bind_result (getmask sigma_k mask) (fun sigma_k' =>
  Ok (z_k', k', sigma_k'))))).

(** One data row of a borehole file, as [np.loadtxt(..., dtype=str)]
    returns it: the text of its six fields. *)
Record row : Type := mk_row {
  f_z : String.string;
  f_T : String.string;
  f_sigma_T : String.string;
  f_z_k : String.string;
  f_k : String.string;
  f_sigma_k : String.string
}.

(** [s == ''] *)
Definition blank (s : String.string) : bool :=
  match s with
  | String.EmptyString => true
  | String.String _ _ => false
  end.

(** [.astype(float)] on an array of strings.  [to_float] stands for the
    conversion of one string, which fails ([None], a [ValueError] in
    Python) on a text that is not a number. *)
Fixpoint astype_float (to_float : String.string -> option R)
    (col : list String.string) : result array :=
  match col with
  | [] => Ok []
  | s :: col' =>
      match to_float s with
      | Some x => bind_result (astype_float to_float col') (fun l => Ok (x :: l))
      | None => Raise ValueError
      end
  end.

(** [arg[arg != ''].astype(float)], the body of the loop of
    [trim_columns], on a column of two or more rows. *)
Definition trim_column (to_float : String.string -> option R)
    (col : list String.string) : result array :=
  astype_float to_float (filter (fun s => negb (blank s)) col).

(** What [load_borehole] returns. *)
Record borehole_columns : Type := mk_columns {
  b_z : array;
  b_T : array;
  b_sigma_T : array;
  b_z_k : array;
  b_k : array;
  b_sigma_k : array
}.

(** [load_borehole(filename)] on the data rows of the file.
    - No data row: the columns are empty; the unpacking of the empty
      result of [np.loadtxt], or [z.max()], raises [ValueError].
    - One data row: [np.loadtxt(..., unpack=True)] returns one string per
      column instead of one array, and [arg[arg != '']] subscripts the
      string [z] with a boolean, that is with [0] or [1]: out of range for
      a text of at most one character, and otherwise a one-character
      string, which has no [astype].
    - Two or more rows: each column is stripped of its blanks and
      converted on its own, then the conductivity columns are trimmed. *)
Definition load_borehole (to_float : String.string -> option R)
    (rows : list row) : result borehole_columns :=
  match rows with
  | [] => Raise ValueError
  | [r] =>
      match f_z r with
      | String.String _ (String.String _ _) => Raise AttributeError
      | _ => Raise IndexError
      end
  | _ =>
      bind_result (trim_column to_float (map f_z rows)) (fun z =>
      bind_result (trim_column to_float (map f_T rows)) (fun T =>
      bind_result (trim_column to_float (map f_sigma_T rows)) (fun sigma_T =>
      bind_result (trim_column to_float (map f_z_k rows)) (fun z_k =>
      bind_result (trim_column to_float (map f_k rows)) (fun k =>
      bind_result (trim_column to_float (map f_sigma_k rows)) (fun sigma_k =>
      bind_result (load_borehole_trim z z_k k sigma_k) (fun '(z_k', k', sigma_k') =>
      Ok (mk_columns z T sigma_T z_k' k' sigma_k'))))))))
  end.

(** The number a field stands for, and the conductivity samples of a
    file row by row: depth, conductivity and uncertainty of every row
    whose depth field is not blank. *)
Definition value (to_float : String.string -> option R) (s : String.string) : R :=
  match to_float s with
  | Some x => x
  | None => 0
  end.

Definition sample_of (to_float : String.string -> option R) (r : row) : R * (R * R) :=
  (value to_float (f_z_k r), (value to_float (f_k r), value to_float (f_sigma_k r))).

Definition samples (to_float : String.string -> option R) (rows : list row)
  : list (R * (R * R)) :=
  map (sample_of to_float) (filter (fun r => negb (blank (f_z_k r))) rows).

(** The temperature depths of a file: its non-blank depth fields. *)
Definition depths (to_float : String.string -> option R) (rows : list row) : array :=
  map (value to_float) (filter (fun s => negb (blank s)) (map f_z rows)).

(** The uncertainty of the resistance, from the plotting part of the
    Bullard-plot cell.  [sigma_z[i] = np.abs(z_k[i] - z).min()]. *)
Fixpoint sigma_z_of (z z_k : array) : result array :=
  match z_k with
  | [] => Ok []
  | x :: rest =>
      bind_result (np_min (map (fun zj => Rabs (x - zj)) z)) (fun m =>
      bind_result (sigma_z_of z rest) (fun r => Ok (m :: r)))
  end.

Definition square (x : R) : R := x * x.

Definition resistance_uncertainty (z z_k k sigma_k : array) : result array :=
  bind_result (sigma_z_of z z_k) (fun sigma_z =>
  let delta_z := np_diff (0 :: z_k) in
  bind_result (broadcast2 Rdiv delta_z k) (fun invk =>
  bind_result (broadcast2 Rdiv sigma_k k) (fun rel_k =>
  bind_result (broadcast2 Rdiv sigma_z delta_z) (fun rel_z =>
  bind_result (broadcast2 Rplus (map square rel_k) (map square rel_z)) (fun s =>
  bind_result (broadcast2 Rmult (map sqrt s) invk) (fun dinvk =>
  Ok (map sqrt (np_cumsum (map square dinvk))))))))).

(** The instrumental record cut into blocks of [t_av] years. *)
Definition t_av : nat := 10.

(** [a[i:i+n]]. *)
Definition slice (a : array) (i n : nat) : array := firstn n (skipn i a).

(** [range(0, stop, step)]: the multiples of [step] below [stop]; there
    are [ceil(stop / step)] of them. *)
Definition range_step (stop step : nat) : list nat :=
  map (fun q => (q * step)%nat) (seq 0 ((stop + step - 1) / step)).

Fixpoint fold_result {S : Type} (js : list nat) (body : nat -> S -> result S) (s : S)
  : result S :=
  match js with
  | [] => Ok s
  | j :: js' => bind_result (body j s) (fold_result js' body)
  end.

(** Body of [for i in range(0, year.size, t_av)]; the state is
    [(t0b, T0_40N2, index)]. *)
Definition decadal_step (year T0_40N : array) (i : nat)
    (st : array * array * nat) : result (array * array * nat) :=
  let '(t0b, T0_40N2, index) := st in
  bind_result (setitem t0b index (np_mean (slice year i t_av))) (fun t0b' =>
  bind_result (setitem T0_40N2 index (np_mean (slice T0_40N i t_av))) (fun T' =>
  Ok (t0b', T', S index))).

(** The cell that builds [t0b], [t1b] and [T0_40N2]; the result is
    [(t0b, t1b, T0_40N2)]. *)
Definition decadal_blocks (year T0_40N : array) : result (array * array * array) :=
  let n := (length year / 10 + 1)%nat in
  bind_result
    (fold_result (range_step (length year) t_av) (decadal_step year T0_40N)
       (np_zeros n, np_zeros n, 0%nat))
    (fun '(t0b, T0_40N2, _) =>
       bind_result (broadcast2 Rplus (removelast t0b) (np_diff t0b)) (fun t1b =>
       Ok (t0b, t1b ++ [0], T0_40N2))).

(** The two lines of the cell that loads the instrumental record, on
    arrays: [y2s(1974 - year)] and [T0_40N - T0_40N[-1]]. *)
Definition years_before_1974 (year : array) : array :=
  map (fun y => y2s (1974 - y)) year.

Definition relative_to_last (T0_40N : array) : result array :=
  match rev T0_40N with
  | [] => Raise IndexError
  | last :: _ => Ok (map (fun x => x - last) T0_40N)
  end.

(** The cell that loads the instrumental record, on the data rows
    (year, anomaly) of the file: a first row and the rows after it.  With
    a single data row [np.loadtxt(..., unpack=True)] returns two scalars
    and [T0_40N[-1]] subscripts a scalar, which raises [IndexError]; with
    two or more rows it returns two arrays.  The result is the pair of
    [year] and [T0_40N] as the cell leaves them. *)
Definition instrumental_record (first : R * R) (rest : list (R * R))
  : result (array * array) :=
  match rest with
  | [] => Raise IndexError
  | _ :: _ =>
      let rows := first :: rest in
      bind_result (relative_to_last (map snd rows)) (fun T0_40N =>
      Ok (years_before_1974 (map fst rows), T0_40N))
  end.

(** [np.mean(a, axis=0)] and [np.std(a, axis=0)] of a two-dimensional
    array given by its rows, all of length [width]. *)
Definition column (rows : list array) (j : nat) : array :=
  map (fun r => nth j r 0) rows.

Definition mean_axis0 (rows : list array) (width : nat) : array :=
  map (fun j => np_mean (column rows j)) (seq 0 width).

Definition std_axis0 (rows : list array) (width : nat) : array :=
  map (fun j => np_std (column rows j)) (seq 0 width).

(** Body of the loop of [MC_simulation_iter]: [t0] and [t1] are scalars,
    [Tk] is the pair (delta, standard deviation); the scalar [kappa] is
    passed as an array of one entry, which broadcasts against [z]. *)
Definition MC_simulation_iter_step (t0 t1 : R) (Tk : R * R) (z : array)
    (k_mean cp_ rho_ : R) (i : nat) (delT : list array) : M (list array) :=
  x0 <- normal t0 (y2s 1e3) ;;
  let t0_random := np_clip x0 1e-6 1e99 in
  x1 <- normal t1 (y2s 1e3) ;;
  let t1_random := np_clip x1 1e-6 1e99 in
  Tk_random <- normal (fst Tk) (snd Tk) ;;
  xk <- normal k_mean (0.2 * k_mean) ;;
  let k_random := np_clip xk 0.001 1e99 in
  let kappa := k_random / (cp_ * rho_) in
  d <- call_climate_correction_period [kappa] t0_random t1_random Tk_random z ;;
  lift (setrow delT i d).

(** [MC_simulation_iter(nsim, t0, t1, Tk, z, k, cp, rho)]. *)
Definition MC_simulation_iter (nsim : nat) (t0 t1 : R) (Tk : R * R)
    (z k : array) (cp_ rho_ : R) : M (list array) :=
  let delT := repeat (np_zeros (length z)) nsim in
  let k_mean := np_mean k in
  for_range nsim (MC_simulation_iter_step t0 t1 Tk z k_mean cp_ rho_) delT.

(** Body of the loop of [MC_simulation]: the times are clipped but not
    perturbed, the conductivity is drawn with a quarter of its mean as
    standard deviation. *)
Definition MC_simulation_step (t0 t1 : R) (Tk : R * R) (z : array)
    (k_mean cp_ rho_ : R) (i : nat) (delT : list array) : M (list array) :=
  let t0_random := np_clip t0 1e-6 1e99 in
  let t1_random := np_clip t1 1e-6 1e99 in
  Tk_random <- normal (fst Tk) (snd Tk) ;;
  xk <- normal k_mean (0.25 * k_mean) ;;
  let k_random := np_clip xk 0.001 1e99 in
  let kappa := k_random / (cp_ * rho_) in
  d <- call_climate_correction_period [kappa] t0_random t1_random Tk_random z ;;
  lift (setrow delT i d).

(** [MC_simulation(nsim, t0, t1, Tk, z, k, cp, rho)]: the mean and the
    standard deviation over the simulations, per depth. *)
Definition MC_simulation (nsim : nat) (t0 t1 : R) (Tk : R * R)
    (z k : array) (cp_ rho_ : R) : M (array * array) :=
  let delT := repeat (np_zeros (length z)) nsim in
  let k_mean := np_mean k in
  delT' <- for_range nsim (MC_simulation_step t0 t1 Tk z k_mean cp_ rho_) delT ;;
  ret (mean_axis0 delT' (length z), std_axis0 delT' (length z)).

(** The temperatures at the conductivity depths, from the Bullard-plot
    cell.  [spline z T z_k] stands for [UnivariateSpline(z, T)(z_k)], a
    SciPy routine that the branch for at most three readings never calls. *)
Definition temperatures_at_conductivity_depths
    (spline : array -> array -> array -> array)
    (z T sigma_T z_k : array) : array * array :=
  if Nat.leb (length z) 3 then (T, sigma_T)
  else (spline z T z_k, spline z sigma_T z_k).

(** The correction that a recorded call with a scalar diffusivity
    returned at the depths [z]. *)
Definition scalar_call_correction (z : array) (c : ccp_call) : array :=
  map (fun zz => climate_correction_period (hd 0 (call_kappa c))
                   (call_t0 c) (call_t1 c) (call_Tk c) zz) z.

(** The calls made by one pass of [MC_simulation_iter] and of
    [MC_simulation] from world [w], at the default [cp] and [rho]. *)
Definition MC_simulation_iter_call (t0 t1 : R) (Tk : R * R) (z : array)
    (k_mean : R) (w : world) : ccp_call :=
  mk_call
    [np_clip (k_mean + 0.2 * k_mean * draws w 3%nat) 0.001 1e99 / (cp * rho)]
    (np_clip (t0 + y2s 1e3 * draws w 0%nat) 1e-6 1e99)
    (np_clip (t1 + y2s 1e3 * draws w 1%nat) 1e-6 1e99)
    (fst Tk + snd Tk * draws w 2%nat) z.

Definition MC_simulation_call (t0 t1 : R) (Tk : R * R) (z : array)
    (k_mean : R) (w : world) : ccp_call :=
  mk_call
    [np_clip (k_mean + 0.25 * k_mean * draws w 1%nat) 0.001 1e99 / (cp * rho)]
    (np_clip t0 1e-6 1e99) (np_clip t1 1e-6 1e99)
    (fst Tk + snd Tk * draws w 0%nat) z.

(** ** Predicates used by the statements *)

(** Depths strictly increasing; resistances non-decreasing (adjacent pairs). *)
Definition strictly_increasing (l : array) : Prop := Sorted Rlt l.
Definition non_decreasing (l : array) : Prop := Sorted Rle l.
Definition strictly_decreasing (l : array) : Prop := Sorted Rgt l.

Definition all_positive (l : array) : Prop := Forall (fun x => 0 < x) l.
Definition all_nonneg (l : array) : Prop := Forall (fun x => 0 <= x) l.
Definition all_zero (l : array) : Prop := Forall (fun x => x = 0) l.

(** Fewer than two distinct values / at least two distinct values. *)
Definition fewer_than_2_distinct (l : array) : Prop :=
  forall x y, In x l -> In y l -> x = y.
Definition two_distinct (l : array) : Prop :=
  exists x y, In x l /\ In y l /\ x <> y.

(** A field is blank or a number; the three conductivity fields of a
    row are blank together or not at all. *)
Definition field_ok (to_float : String.string -> option R) (s : String.string) : Prop :=
  blank s = true \/ exists x, to_float s = Some x.

Definition row_ok (to_float : String.string -> option R) (r : row) : Prop :=
  field_ok to_float (f_z r) /\ field_ok to_float (f_T r) /\
  field_ok to_float (f_sigma_T r) /\ field_ok to_float (f_z_k r) /\
  field_ok to_float (f_k r) /\ field_ok to_float (f_sigma_k r).

Definition row_aligned (r : row) : Prop :=
  blank (f_k r) = blank (f_z_k r) /\ blank (f_sigma_k r) = blank (f_z_k r).

(** The design matrix [[R, 1]] keeps its full rank under the cutoff
    [rcond]: its smaller singular value exceeds [rcond] times the larger. *)
Definition well_conditioned (rcond : R) (xs : array) : Prop :=
  rcond * singular_max xs < singular_min xs.

(** Sum of squared residuals of the line [m*r + c] on the data [(R_, T)]. *)
Definition sse (R_ T : array) (m c : R) : R :=
  np_sum (zip_with (fun r t => (m * r + c - t) * (m * r + c - t)) R_ T).

(** [(m, c)] is an ordinary-least-squares fit of [T] against [R_]. *)
Definition is_ols (R_ T : array) (p : R * R) : Prop :=
  forall m' c', sse R_ T (fst p) (snd p) <= sse R_ T m' c'.

(** The resistance profile as the contract of the Thermal Resistance
    Calculator words it: [R_i] is the sum over [j <= i] of
    [(z_j - z_(j-1)) / k_j], with [z_0 = 0] (indices from 1 in the
    contract, from 0 here). *)
Definition segment (z k : array) (j : nat) : R :=
  (nth j z 0 - match j with O => 0 | S j' => nth j' z 0 end) / nth j k 0.

Definition contract_resistance_at (z k : array) (i : nat) : R :=
  np_sum (map (segment z k) (seq 0 (S i))).

Definition contract_resistance (z k : array) : array :=
  map (contract_resistance_at z k) (seq 0 (length z)).

(** What a recorded call returned, and the temperatures after a run of
    recorded calls has been added in turn. *)
Definition correction_of_call (c : ccp_call) : array :=
  zip_with (fun ka zz =>
              climate_correction_period ka (call_t0 c) (call_t1 c) (call_Tk c) zz)
           (call_kappa c) (call_z c).

Definition apply_calls (T : array) (cs : list ccp_call) : array :=
  fold_left (fun T c => zip_with Rplus T (correction_of_call c)) cs T.

(** The superposition formula at one depth [z] with diffusivity [kappa],
    summed over the epochs [(t_start, t_end, Tk)] of the recorded calls:
    [call_t0] is the start of the epoch and [call_t1] its end. *)
Definition epoch_sum (cs : list ccp_call) (kappa z : R) : R :=
  np_sum (map (fun c =>
                 call_Tk c * (erfc (z / (2 * sqrt (kappa * call_t1 c)))
                              - erfc (z / (2 * sqrt (kappa * call_t0 c))))) cs).

(** The full correction at one depth as the specification writes it: the
    sum over the epochs [(t_start, t_end, Tk)] of
    [Tk * (erfc (z / (2 sqrt (kappa t_end))) - erfc (z / (2 sqrt (kappa t_start))))]. *)
Definition full_correction (epochs : list (R * R * R)) (kappa z : R) : R :=
  np_sum (map (fun '(t_start, t_end, Tk) =>
                 Tk * (erfc (z / (2 * sqrt (kappa * t_end)))
                       - erfc (z / (2 * sqrt (kappa * t_start))))) epochs).

(** The epoch set of the palaeoclimate table as one pass of its loop
    perturbs it, [xi] being the standard-normal draws the loop consumes:
    epoch [j] starts at [t0[j]] and ends at [t1[j]], each moved by
    [y2s(1e3)] times a draw and clipped, with the temperature delta
    [Tc[j]] moved by [sigma_Tc[j]] times a draw. *)
Definition palaeoclimate_epochs (g : Globals.t) (xi : nat -> R) : list (R * R * R) :=
  map (fun j =>
         (np_clip (nth j (Globals.t0 g) 0 + y2s 1e3 * xi (3 * j)%nat) 1e-6 1e99,
          np_clip (nth j (Globals.t1 g) 0 + y2s 1e3 * xi (3 * j + 1)%nat) 1e-6 1e99,
          nth j (Globals.Tc g) 0 + nth j (Globals.sigma_Tc g) 0 * xi (3 * j + 2)%nat))
      (seq 0 (length (Globals.t0 g))).

(** The epoch set of the instrumental blocks: block [j] starts at [t0b[j]]
    and ends at [t1b[j]], both clipped, with the delta [T0_40N2[j]] moved
    by [0.1] times a draw. *)
Definition instrumental_epochs (g : Globals.t) (xi : nat -> R) : list (R * R * R) :=
  map (fun j =>
         (np_clip (nth j (Globals.t0b g) 0) 1e-6 1e99,
          np_clip (nth j (Globals.t1b g) 0) 1e-6 1e99,
          nth j (Globals.T0_40N2 g) 0 + 0.1 * xi j))
      (seq 0 (length (Globals.t0b g))).

(** The full correction at every depth of [z], for diffusivities [a]. *)
Definition correction_profile (epochs : list (R * R * R)) (a z : array) : array :=
  map (fun i => full_correction epochs (nth i a 0) (nth i z 0)) (seq 0 (length z)).

(** The epochs of one pass of the sensitivity loop, both tables in turn;
    [xi] are the draws left once the temperatures and the conductivities
    have been drawn. *)
Definition pass_epochs (g : Globals.t) (xi : nat -> R) : list (R * R * R) :=
  palaeoclimate_epochs g xi
  ++ instrumental_epochs g (fun i => xi (3 * length (Globals.t0 g) + i)%nat).

(** The call that passes an epoch, with diffusivities [a] at depths [z]. *)
Definition call_of_epoch (a z : array) (e : R * R * R) : ccp_call :=
  let '(t_start, t_end, Tk) := e in mk_call a t_start t_end Tk z.

(** A diffusivity derived from a conductivity clipped into [0.001, 1e99]. *)
Definition clipped_diffusivity (ka : R) : Prop :=
  exists kc, 0.001 <= kc <= 1e99 /\ ka = kc / (cp * rho).

(** The arguments of a call keep the divisions and the square roots of
    [climate_correction_period] inside their domain. *)
Definition call_in_domain (c : ccp_call) : Prop :=
  1e-6 <= call_t0 c <= 1e99 /\ 1e-6 <= call_t1 c <= 1e99 /\
  Forall (fun ka => clipped_diffusivity ka /\ 0 < ka /\
                    0 < ka * call_t0 c /\ 0 < ka * call_t1 c /\
                    2 * sqrt (ka * call_t0 c) <> 0 /\
                    2 * sqrt (ka * call_t1 c) <> 0) (call_kappa c).

(** Calls made with diffusivities [a] and depths [z], the boundary times
    clipped into [1e-6, 1e99]. *)
Definition epoch_calls (a z : array) (cs : list ccp_call) : Prop :=
  Forall (fun c => call_kappa c = a /\ call_z c = z /\
                   1e-6 <= call_t0 c <= 1e99 /\ 1e-6 <= call_t1 c <= 1e99) cs.

(** What one pass of the sensitivity loop did, started in world [w]:
    [T0] and [kr] are the perturbed temperatures and conductivities drawn,
    [R_] the resistance, [cs] the calls of [climate_correction_period]. *)
Definition iteration_post (g : Globals.t) (w : world) (s : sample) (w' : world) : Prop :=
  exists T0 kr R_ cs,
    length T0 = length (Globals.z_k g) /\
    (all_zero (Globals.sigma_T_k g) -> T0 = Globals.T_k g) /\
    length kr = length (Globals.z_k g) /\
    (all_zero (Globals.sigma_k g) -> kr = Globals.k g) /\
    thermal_resistance (Globals.z_k g) (Globals.z_k g) (perturbed_conductivity kr)
      = Ok R_ /\
    least_squares R_ T0 = Ok (s_q s, s_c s) /\
    calls w' = calls w ++ cs /\
    length cs = (length (Globals.t0 g) + length (Globals.t0b g))%nat /\
    epoch_calls (diffusivity (perturbed_conductivity kr)) (Globals.z_k g) cs /\
    s_T s = apply_calls T0 cs /\
    length (s_T s) = length (Globals.z_k g) /\
    least_squares R_ (s_T s) = Ok (s_qc s, s_cc s).

(** The data of one borehole and of the two epoch tables are aligned, and
    no standard deviation is negative. *)
Record well_formed (g : Globals.t) : Prop := mk_wf {
  wf_k : length (Globals.k g) = length (Globals.z_k g);
  wf_sigma_k : length (Globals.sigma_k g) = length (Globals.z_k g);
  wf_T_k : length (Globals.T_k g) = length (Globals.z_k g);
  wf_sigma_T_k : length (Globals.sigma_T_k g) = length (Globals.z_k g);
  wf_t1 : length (Globals.t1 g) = length (Globals.t0 g);
  wf_Tc : length (Globals.Tc g) = length (Globals.t0 g);
  wf_sigma_Tc : length (Globals.sigma_Tc g) = length (Globals.t0 g);
  wf_t1b : length (Globals.t1b g) = length (Globals.t0b g);
  wf_T0 : length (Globals.T0_40N2 g) = length (Globals.t0b g);
  wf_sk_nonneg : all_nonneg (Globals.sigma_k g);
  wf_sT_nonneg : all_nonneg (Globals.sigma_T_k g);
  wf_sTc_nonneg : all_nonneg (Globals.sigma_Tc g)
}.

(** The four one-dimensional storage arrays hold [n] entries. *)
Definition storage_sized (n : nat) (st : storage) : Prop :=
  length (q_all st) = n /\ length (qc_all st) = n /\
  length (c_all st) = n /\ length (cc_all st) = n.

(** ** Sample data *)

Module Sample.

(** A two-point conductivity series, one palaeoclimate epoch (from 100 ka
    to present, 2 degrees colder) and one instrumental epoch. *)
Definition borehole : Globals.t :=
  Globals.mk 2
    [y2s 100e3] [0] [-2] [0.1]
    [y2s 10] [0] [0.3]
    [5; 15] [3; 3.2] [0.1; 0.1] [10.25; 10.75] [0.1; 0.1].

Definition stream : world := mk_world (fun n => INR n / 10) [].

(** The same kind of data with every standard deviation at zero: one
    palaeoclimate epoch from 1 ka to present, no instrumental epoch. *)
Definition exact_borehole : Globals.t :=
  Globals.mk 2
    [y2s 1e3] [0] [-2] [0]
    [] [] []
    [0; 1] [2; 2] [0; 0] [10; 11] [0; 0].

(** Draws that are all zero except the twelfth, which is [-1]: the draw
    for the start time of the epoch in the second pass. *)
Definition exact_stream : world :=
  mk_world (fun n => if Nat.eqb n 11 then -1 else 0) [].

(** Eleven years of an instrumental record, oldest first, as seconds
    before the measurement, with their anomalies. *)
Definition years : array :=
  map y2s [94; 93; 92; 91; 90; 89; 88; 87; 86; 85; 84].

Definition anomalies : array :=
  [-0.3; -0.2; -0.2; -0.3; -0.4; -0.3; -0.3; -0.4; -0.2; -0.1; 0].

(** Three rows of an instrumental record: calendar year and anomaly. *)
Definition first_year : R * R := (1880, -0.3).
Definition later_years : list (R * R) := [(1881, -0.2); (1882, 0.1)].

(** Two borehole files of three rows: three temperature readings and two
    conductivity samples, the second sample deeper than the last reading
    in [file] and shallower in [shallow_file]; and the conversion of
    their fields. *)
Definition file : list row :=
  [mk_row "0" "10" "0.1" "5" "3" "0.1";
   mk_row "10" "10.5" "0.1" "25" "3.2" "0.2";
   mk_row "20" "11" "0.1" String.EmptyString String.EmptyString String.EmptyString]%string.

(** A file in which the conductivity of the first row is missing and a
    conductivity stands alone in the last row. *)
Definition shifted_file : list row :=
  [mk_row "0" "10" "0.1" "5" String.EmptyString "0.1";
   mk_row "10" "10.5" "0.1" "15" "3" "0.2";
   mk_row "20" "11" "0.1" String.EmptyString "3.2" String.EmptyString]%string.

Definition shallow_file : list row :=
  [mk_row "0" "10" "0.1" "5" "3" "0.1";
   mk_row "10" "10.5" "0.1" "15" "3.2" "0.2";
   mk_row "20" "11" "0.1" String.EmptyString String.EmptyString String.EmptyString]%string.

Definition to_float (s : String.string) : option R :=
  if String.eqb s "0"%string then Some 0
  else if String.eqb s "0.1"%string then Some 0.1
  else if String.eqb s "0.2"%string then Some 0.2
  else if String.eqb s "3"%string then Some 3
  else if String.eqb s "3.2"%string then Some 3.2
  else if String.eqb s "5"%string then Some 5
  else if String.eqb s "10"%string then Some 10
  else if String.eqb s "10.5"%string then Some 10.5
  else if String.eqb s "11"%string then Some 11
  else if String.eqb s "15"%string then Some 15
  else if String.eqb s "20"%string then Some 20
  else if String.eqb s "25"%string then Some 25
  else None.

End Sample.

(** * Properties *)

(** ** The complementary error function *)

Lemma erf_0 : erf 0 = 0.
Proof.
  unfold erf. rewrite RiemannInt_P9. lra.
Qed.

Lemma erfc_0 : erfc 0 = 1.
Proof.
  unfold erfc. rewrite erf_0. lra.
Qed.

Lemma gauss_integral_pos (a b : R) :
  a < b -> 0 < RiemannInt (gauss_integrable a b).
Proof.
  intros Hab.
  set (m := exp (- (a * a + b * b))).
  assert (Hm : 0 < m) by apply exp_pos.
  apply Rlt_le_trans with (m * (b - a)); [nra |].
  rewrite <- (RiemannInt_P15 (RiemannInt_P14 a b m)).
  apply RiemannInt_P19; [lra |].
  intros t Ht. unfold fct_cte, gauss, m.
  destruct (Rle_dec (- (a * a + b * b)) (- (t * t))) as [Hle | Hn].
  - destruct Hle as [Hlt | Heq].
    + left. now apply exp_increasing.
    + right. now rewrite Heq.
  - exfalso. apply Hn. destruct (Rle_dec 0 t); nra.
Qed.

Lemma erf_increasing (a b : R) : a < b -> erf a < erf b.
Proof.
  intros Hab. unfold erf.
  rewrite <- (RiemannInt_P26 (gauss_integrable 0 a) (gauss_integrable a b)
                             (gauss_integrable 0 b)).
  assert (Hc : 0 < 2 / sqrt PI).
  { apply Rdiv_lt_0_compat; [lra |]. apply sqrt_lt_R0, PI_RGT_0. }
  pose proof (gauss_integral_pos a b Hab). nra.
Qed.

Lemma erfc_decreasing (a b : R) : a < b -> erfc b < erfc a.
Proof.
  intros Hab. unfold erfc. pose proof (erf_increasing a b Hab). lra.
Qed.

Lemma erfc_injective (a b : R) : erfc a = erfc b -> a = b.
Proof.
  intros H. destruct (Rtotal_order a b) as [Hlt | [Heq | Hgt]]; [ | exact Heq | ].
  - pose proof (erfc_decreasing a b Hlt). lra.
  - pose proof (erfc_decreasing b a Hgt). lra.
Qed.

(** ** Clipping *)

Lemma np_clip_bounds (x lo hi : R) : lo <= hi -> lo <= np_clip x lo hi <= hi.
Proof.
  intros H. unfold np_clip, Rmin, Rmax.
  destruct (Rle_dec x lo); destruct (Rle_dec _ hi); lra.
Qed.

Lemma np_clip_id (x lo hi : R) : lo <= x <= hi -> np_clip x lo hi = x.
Proof.
  intros H. unfold np_clip, Rmin, Rmax.
  destruct (Rle_dec x lo); destruct (Rle_dec _ hi); lra.
Qed.

Lemma np_clip_floor (x lo hi : R) : x <= lo -> lo <= hi -> np_clip x lo hi = lo.
Proof.
  intros H1 H2. unfold np_clip, Rmin, Rmax.
  destruct (Rle_dec x lo); destruct (Rle_dec _ hi); lra.
Qed.

Lemma conductivity_floor_lt_ceiling : 0.001 <= 1e99.
Proof. lra. Qed.

(** ** Arrays *)

Lemma zip_with_length {C : Type} (f : R -> R -> C) (xs ys : array) :
  length xs = length ys -> length (zip_with f xs ys) = length xs.
Proof.
  revert ys. induction xs as [| x xs IH]; intros [| y ys] H; simpl in *;
    try discriminate; auto.
Qed.

Lemma broadcast2_same_length {C : Type} (f : R -> R -> C) (xs ys : array) :
  length xs = length ys -> broadcast2 f xs ys = Ok (zip_with f xs ys).
Proof.
  intros H. unfold broadcast2. now rewrite H, Nat.eqb_refl.
Qed.

Lemma iadd_same_length (a b : array) :
  length a = length b -> iadd a b = Ok (zip_with Rplus a b).
Proof.
  intros H. unfold iadd. now rewrite H, Nat.eqb_refl.
Qed.

Lemma np_diff_length (a : R) (l : array) : length (np_diff (a :: l)) = length l.
Proof.
  revert a. induction l as [| b l IH]; intros a; simpl; [reflexivity |].
  f_equal. apply IH.
Qed.

Lemma np_diff_increasing (a : R) (l : array) :
  strictly_increasing (a :: l) -> all_positive (np_diff (a :: l)).
Proof.
  revert a. induction l as [| b l IH]; intros a H.
  - constructor.
  - change (np_diff (a :: b :: l)) with ((b - a) :: np_diff (b :: l)).
    inversion H as [| ? ? Hs Hr]; subst.
    inversion Hr; subst.
    constructor; [lra | apply IH, Hs].
Qed.

Lemma zip_with_div_positive (xs ys : array) :
  all_positive xs -> all_positive ys -> all_positive (zip_with Rdiv xs ys).
Proof.
  intros Hx. revert ys. induction Hx as [| x xs Hx0 Hx IH]; intros ys Hy.
  - constructor.
  - destruct Hy as [| y ys Hy0 Hy]; simpl; constructor.
    + now apply Rdiv_lt_0_compat.
    + now apply IH.
Qed.

Lemma cumsum_from_length (acc : R) (l : array) :
  length (cumsum_from acc l) = length l.
Proof.
  revert acc. induction l as [| x l IH]; intros acc; simpl; auto.
Qed.

Lemma np_cumsum_length (l : array) : length (np_cumsum l) = length l.
Proof.
  destruct l; simpl; [reflexivity |]. now rewrite cumsum_from_length.
Qed.

Lemma cumsum_from_sorted (acc : R) (l : array) :
  all_positive l -> non_decreasing (acc :: cumsum_from acc l).
Proof.
  intros H. revert acc. induction H as [| x l Hx Hl IH]; intros acc; simpl.
  - repeat constructor.
  - constructor; [apply IH |]. constructor. lra.
Qed.

(** ** Thermal resistance *)

(** C3.  The value of [thermal_resistance(z, k)] is the same for any two
    first arguments [z] and [z']: the thicknesses come from the
    module-level array [z_k], not from the parameter. *)
Theorem thermal_resistance_ignores_z (z_k z z' k : array) :
  thermal_resistance z_k z k = thermal_resistance z_k z' k.
Proof.
  unfold thermal_resistance. reflexivity.
Qed.

Lemma thermal_resistance_aligned (z_k z k : array) :
  length k = length z_k ->
  thermal_resistance z_k z k =
  Ok (np_cumsum (zip_with Rdiv (np_diff (0 :: z_k)) k)).
Proof.
  intros H. unfold thermal_resistance.
  rewrite broadcast2_same_length by (now rewrite np_diff_length).
  reflexivity.
Qed.

(** C10.  For a conductivity series with strictly increasing depths
    (held by the module-level [z_k]) and strictly positive
    conductivities, [thermal_resistance] returns an array in which every
    entry is at most the next one. *)
Theorem thermal_resistance_non_decreasing (z_k z k : array) :
  strictly_increasing z_k ->
  all_positive k ->
  length k = length z_k ->
  exists R_, thermal_resistance z_k z k = Ok R_ /\
             length R_ = length z_k /\
             non_decreasing R_.
Proof.
  intros Hz Hk Hlen.
  rewrite (thermal_resistance_aligned z_k z k Hlen).
  eexists; split; [reflexivity |]. split.
  - rewrite np_cumsum_length, zip_with_length; rewrite np_diff_length; auto.
  - destruct z_k as [| z1 zs]; [constructor |].
    destruct k as [| k1 ks]; [discriminate |].
    change (np_diff (0 :: z1 :: zs)) with ((z1 - 0) :: np_diff (z1 :: zs)).
    simpl zip_with. unfold np_cumsum.
    apply cumsum_from_sorted.
    apply zip_with_div_positive.
    + now apply np_diff_increasing.
    + now inversion Hk.
Qed.

Lemma thermal_resistance_non_decreasing_witness :
  exists R_, thermal_resistance [5; 15] [5; 15] [3; 3.2] = Ok R_ /\
             length R_ = length [5; 15] /\
             non_decreasing R_.
Proof.
  apply thermal_resistance_non_decreasing.
  - repeat constructor. lra.
  - repeat constructor; lra.
  - reflexivity.
Defined.

(** ** Climate correction *)

(** C5.  Superposition: two abutting epochs [(t0, t1)] and [(t1, t2)] with
    the same [Tk] correct by as much as the merged epoch [(t0, t2)]. *)
Theorem climate_correction_superposition (kappa Tk z t0 t1 t2 : R) :
  0 < kappa -> t0 > t1 -> t1 > t2 -> t2 > 0 ->
  climate_correction_period kappa t0 t1 Tk z +
  climate_correction_period kappa t1 t2 Tk z =
  climate_correction_period kappa t0 t2 Tk z.
Proof.
  intros _ _ _ _. unfold climate_correction_period. ring.
Qed.

Lemma climate_correction_superposition_witness :
  climate_correction_period 1 3 2 (-2) 10 +
  climate_correction_period 1 2 1 (-2) 10 =
  climate_correction_period 1 3 1 (-2) 10.
Proof.
  apply climate_correction_superposition; lra.
Defined.

Lemma climate_correction_surface (kappa t0 t1 Tk : R) :
  climate_correction_period kappa t0 t1 Tk 0 = 0.
Proof.
  unfold climate_correction_period, Rdiv.
  rewrite !Rmult_0_l, erfc_0. ring.
Qed.

(** C4, as amended.  At depth [z = 0], with [t_end = 0] clipped to the
    floor, the correction is [Tk * (erfc 0 - erfc 0) = 0] for every [Tk],
    every [kappa > 0] and every [t_start > 0]. *)
Theorem climate_correction_at_surface_is_zero (kappa t_start Tk : R) :
  0 < kappa -> 0 < t_start ->
  climate_correction_period kappa t_start (np_clip 0 1e-6 1e99) Tk 0 = 0.
Proof.
  intros _ _. apply climate_correction_surface.
Qed.

Lemma climate_correction_at_surface_is_zero_witness :
  climate_correction_period 1 1 (np_clip 0 1e-6 1e99) (-2) 0 = 0.
Proof.
  apply climate_correction_at_surface_is_zero; lra.
Defined.

(** C4, as stated, fails: with [Tk = -2], [kappa = 1], [t_start = 1] the
    correction at the surface is not [Tk]. *)
Lemma climate_correction_at_surface_not_Tk :
  0 < 1 /\ 0 < 1 /\
  climate_correction_period 1 1 (np_clip 0 1e-6 1e99) (-2) 0 <> -2.
Proof.
  repeat split; try lra.
  rewrite climate_correction_surface. lra.
Qed.

(** ** Thermal resistance against its contract *)

Lemma firstn_as_map (l : array) (m : nat) :
  (m <= length l)%nat -> firstn m l = map (fun j => nth j l 0) (seq 0 m).
Proof.
  revert m. induction l as [| x l IH]; intros m Hm.
  - simpl in Hm. assert (m = 0%nat) by lia. subst. reflexivity.
  - destruct m as [| m]; [reflexivity |].
    simpl in Hm. simpl firstn. rewrite IH by lia.
    change (seq 0 (S m)) with (0%nat :: seq 1 m).
    rewrite <- seq_shift, map_cons, map_map. reflexivity.
Qed.

Lemma cumsum_from_prefix_sums (acc : R) (d : array) :
  cumsum_from acc d =
  map (fun i => acc + np_sum (firstn (S i) d)) (seq 0 (length d)).
Proof.
  revert acc. induction d as [| x d IH]; intros acc; [reflexivity |].
  simpl cumsum_from. rewrite IH.
  change (length (x :: d)) with (S (length d)).
  change (seq 0 (S (length d))) with (0%nat :: seq 1 (length d)).
  rewrite <- seq_shift, map_cons, map_map.
  f_equal.
  - simpl. ring.
  - apply map_ext. intros i. simpl. unfold np_sum. ring.
Qed.

Lemma np_cumsum_prefix_sums (d : array) :
  np_cumsum d = map (fun i => np_sum (firstn (S i) d)) (seq 0 (length d)).
Proof.
  destruct d as [| x d]; [reflexivity |].
  unfold np_cumsum. rewrite cumsum_from_prefix_sums.
  change (length (x :: d)) with (S (length d)).
  change (seq 0 (S (length d))) with (0%nat :: seq 1 (length d)).
  rewrite <- seq_shift, map_cons, map_map.
  f_equal. simpl. ring.
Qed.

Lemma nth_zip_with (f : R -> R -> R) (xs ys : array) (i : nat) :
  length xs = length ys -> (i < length xs)%nat ->
  nth i (zip_with f xs ys) 0 = f (nth i xs 0) (nth i ys 0).
Proof.
  revert ys i. induction xs as [| x xs IH]; intros [| y ys] i Hl Hi;
    simpl in *; try lia; try discriminate.
  destruct i as [| i]; [reflexivity |]. apply IH; lia.
Qed.


Lemma nth_np_diff (a : R) (l : array) (j : nat) :
  (j < length l)%nat ->
  nth j (np_diff (a :: l)) 0 =
  nth j l 0 - match j with O => a | S j' => nth j' l 0 end.
Proof.
  revert a j. induction l as [| b l IH]; intros a j Hj; simpl in Hj; [lia |].
  change (np_diff (a :: b :: l)) with ((b - a) :: np_diff (b :: l)).
  destruct j as [| j]; [reflexivity |].
  change (nth (S j) ((b - a) :: np_diff (b :: l)) 0)
    with (nth j (np_diff (b :: l)) 0).
  rewrite IH by lia.
  destruct j; reflexivity.
Qed.

(** Where the cell calls it, with the module-level [z_k] as first argument
    and an aligned conductivity array, [thermal_resistance] computes the
    profile of the contract. *)
Lemma thermal_resistance_at_call_site (z_k k : array) :
  length k = length z_k ->
  thermal_resistance z_k z_k k = Ok (contract_resistance z_k k).
Proof.
  intros Hlen. rewrite thermal_resistance_aligned by exact Hlen.
  f_equal. rewrite np_cumsum_prefix_sums.
  set (d := zip_with Rdiv (np_diff (0 :: z_k)) k).
  assert (Hd : length d = length z_k).
  { unfold d. rewrite zip_with_length; rewrite np_diff_length; auto. }
  unfold contract_resistance. rewrite Hd.
  apply map_ext_in. intros i Hi. apply in_seq in Hi.
  unfold contract_resistance_at.
  rewrite firstn_as_map by lia.
  f_equal. apply map_ext_in. intros j Hj. apply in_seq in Hj.
  unfold d, segment.
  rewrite (nth_zip_with Rdiv); rewrite ?np_diff_length; try lia.
  rewrite nth_np_diff by lia. reflexivity.
Qed.

(** C2, at an input where the code departs from the claim.  With the
    module-level [z_k = [1; 2]], the call [thermal_resistance([10; 20],
    [1; 1])] returns [[1; 2]], whereas the claimed profile of the
    argument [z = [10; 20]] is [[10; 20]]. *)
Theorem thermal_resistance_not_of_its_argument :
  strictly_increasing [10; 20] /\
  length [1; 1] = length [10; 20] /\
  thermal_resistance [1; 2] [10; 20] [1; 1] = Ok [1; 2] /\
  contract_resistance [10; 20] [1; 1] = [10; 20] /\
  thermal_resistance [1; 2] [10; 20] [1; 1] <>
  Ok (contract_resistance [10; 20] [1; 1]).
Proof.
  assert (H1 : thermal_resistance [1; 2] [10; 20] [1; 1] = Ok [1; 2]).
  { unfold thermal_resistance. simpl. repeat f_equal; lra. }
  assert (H2 : contract_resistance [10; 20] [1; 1] = [10; 20]).
  { unfold contract_resistance, contract_resistance_at, segment. simpl.
    repeat f_equal; lra. }
  split; [repeat constructor; lra |].
  split; [reflexivity |].
  split; [exact H1 |].
  split; [exact H2 |].
  rewrite H1, H2. intros H. inversion H. lra.
Qed.

(** ** Least squares *)

Lemma sse_expand (xs ys : array) (m c : R) :
  length xs = length ys ->
  sse xs ys m c =
  m * m * np_sum (zip_with Rmult xs xs) + INR (length xs) * (c * c) +
  np_sum (zip_with Rmult ys ys) + 2 * m * c * np_sum xs -
  2 * m * np_sum (zip_with Rmult xs ys) - 2 * c * np_sum ys.
Proof.
  unfold sse. revert ys. induction xs as [| x l IH]; intros [| y l'] H;
    try discriminate.
  - simpl. ring.
  - injection H as H.
    change (length (x :: l)) with (S (length l)). rewrite S_INR.
    simpl zip_with. unfold np_sum in *. simpl fold_right.
    rewrite (IH l' H). ring.
Qed.

Lemma sum_sq_affine (xs : array) (a b : R) :
  np_sum (map (fun x => (a * x - b) * (a * x - b)) xs) =
  a * a * np_sum (zip_with Rmult xs xs) - 2 * a * b * np_sum xs +
  b * b * INR (length xs).
Proof.
  induction xs as [| x l IH].
  - simpl. ring.
  - change (length (x :: l)) with (S (length l)). rewrite S_INR.
    simpl map. simpl zip_with. unfold np_sum in *. simpl fold_right.
    rewrite IH. ring.
Qed.

Lemma np_sum_squares_nonneg (f : R -> R) (l : array) :
  0 <= np_sum (map (fun x => f x * f x) l).
Proof.
  induction l as [| x l IH]; simpl; [lra |].
  unfold np_sum in *. pose proof (Rle_0_sqr (f x)) as Hs. unfold Rsqr in Hs.
  simpl. lra.
Qed.

Lemma np_sum_squares_zero (f : R -> R) (l : array) :
  np_sum (map (fun x => f x * f x) l) = 0 -> forall x, In x l -> f x = 0.
Proof.
  induction l as [| y l IH]; intros H x Hin; [destruct Hin |].
  simpl in H. pose proof (np_sum_squares_nonneg f l) as Hl.
  pose proof (Rle_0_sqr (f y)) as Hs. unfold Rsqr in Hs.
  unfold np_sum in *.
  destruct Hin as [-> | Hin].
  - assert (Hz : f x * f x = 0) by lra.
    apply Rmult_integral in Hz. tauto.
  - apply IH; [lra | exact Hin].
Qed.

(** [n * discriminant] is a sum of squares. *)
Lemma discriminant_sum_of_squares (xs : array) :
  INR (length xs) * discriminant xs =
  np_sum (map (fun x => (INR (length xs) * x - np_sum xs)
                        * (INR (length xs) * x - np_sum xs)) xs).
Proof.
  rewrite sum_sq_affine. unfold discriminant. ring.
Qed.

Lemma discriminant_zero_entries (xs : array) :
  discriminant xs = 0 -> forall x, In x xs -> INR (length xs) * x = np_sum xs.
Proof.
  intros HD x Hin.
  pose proof (discriminant_sum_of_squares xs) as H0.
  rewrite HD, Rmult_0_r in H0. symmetry in H0.
  pose proof (np_sum_squares_zero (fun x => INR (length xs) * x - np_sum xs)
                xs H0 x Hin) as Hx.
  simpl in Hx. lra.
Qed.

Lemma length_pos_of_In (xs : array) (x : R) : In x xs -> 0 < INR (length xs).
Proof.
  destruct xs; [intros [] |]. intros _.
  apply lt_0_INR. simpl. lia.
Qed.

Lemma discriminant_zero_fewer (xs : array) :
  discriminant xs = 0 -> fewer_than_2_distinct xs.
Proof.
  intros HD x y Hx Hy.
  pose proof (discriminant_zero_entries xs HD x Hx) as Ex.
  pose proof (discriminant_zero_entries xs HD y Hy) as Ey.
  pose proof (length_pos_of_In xs x Hx) as Hn.
  apply Rmult_eq_reg_l with (INR (length xs)); lra.
Qed.

Lemma two_distinct_discriminant (xs : array) :
  two_distinct xs -> discriminant xs <> 0.
Proof.
  intros (x & y & Hx & Hy & Hne) HD.
  apply Hne. now apply (discriminant_zero_fewer xs).
Qed.

(** A pair solving the normal equations minimises the residual. *)
Lemma normal_equations_ols (xs ys : array) (m c : R) :
  length xs = length ys ->
  m * np_sum (zip_with Rmult xs xs) + c * np_sum xs = np_sum (zip_with Rmult xs ys) ->
  m * np_sum xs + INR (length xs) * c = np_sum ys ->
  is_ols xs ys (m, c).
Proof.
  intros Hlen E1 E2 m' c'. simpl fst; simpl snd.
  rewrite !sse_expand by exact Hlen.
  pose proof (np_sum_squares_nonneg (fun x => (m' - m) * x - (c - c')) xs) as Hs.
  cbv beta in Hs. rewrite (sum_sq_affine xs (m' - m) (c - c')) in Hs.
  rewrite <- E1, <- E2. nra.
Qed.

Lemma lstsq_line_full_rank (xs ys : array) :
  length xs = length ys ->
  discriminant xs <> 0 ->
  lstsq_line xs ys =
  let m := (INR (length xs) * np_sum (zip_with Rmult xs ys) - np_sum xs * np_sum ys)
           / discriminant xs in
  Ok (m, (np_sum ys - m * np_sum xs) / INR (length xs)).
Proof.
  intros Hlen HD. unfold lstsq_line.
  rewrite Hlen, Nat.eqb_refl. simpl negb. cbv iota. rewrite <- Hlen.
  destruct (Req_dec_T _ 0) as [E | _]; [contradiction | reflexivity].
Qed.

Lemma lstsq_line_rank_deficient (r : R) (xs ys : array) :
  length (r :: xs) = length ys ->
  discriminant (r :: xs) = 0 ->
  lstsq_line (r :: xs) ys =
  Ok (r * (np_sum ys / INR (length (r :: xs))) / (r * r + 1),
      (np_sum ys / INR (length (r :: xs))) / (r * r + 1)).
Proof.
  intros Hlen HD. unfold lstsq_line.
  rewrite Hlen, Nat.eqb_refl. simpl negb. cbv iota. rewrite <- Hlen.
  destruct (Req_dec_T _ 0) as [_ | N]; [reflexivity | contradiction].
Qed.

Lemma least_squares_is_lstsq (xs ys : array) :
  least_squares xs ys = lstsq_line xs ys.
Proof.
  unfold least_squares. destruct (lstsq_line xs ys) as [[m c] | e]; reflexivity.
Qed.

Lemma np_sum_zip_const (r : R) (xs ys : array) :
  (forall x, In x xs -> x = r) -> length xs = length ys ->
  np_sum (zip_with Rmult xs ys) = r * np_sum ys.
Proof.
  revert ys. induction xs as [| x l IH]; intros [| y l'] Hall Hlen;
    try discriminate.
  - simpl. ring.
  - injection Hlen as Hlen. simpl. unfold np_sum in *.
    rewrite IH; [| intros; apply Hall; now right | exact Hlen].
    rewrite (Hall x (or_introl eq_refl)). ring.
Qed.

Lemma np_sum_affine (m c : R) (xs : array) :
  np_sum (map (fun r => m * r + c) xs) = m * np_sum xs + INR (length xs) * c.
Proof.
  induction xs as [| x l IH].
  - simpl. ring.
  - change (length (x :: l)) with (S (length l)). rewrite S_INR.
    simpl. unfold np_sum in *. rewrite IH. ring.
Qed.

Lemma np_sum_zip_affine (m c : R) (xs : array) :
  np_sum (zip_with Rmult xs (map (fun r => m * r + c) xs)) =
  m * np_sum (zip_with Rmult xs xs) + c * np_sum xs.
Proof.
  induction xs as [| x l IH].
  - simpl. ring.
  - simpl. unfold np_sum in *. rewrite IH. ring.
Qed.

Lemma discriminant_nonzero_length (xs : array) :
  discriminant xs <> 0 -> INR (length xs) <> 0.
Proof.
  intros HD Hn. apply HD. destruct xs as [| x l].
  - unfold discriminant. simpl. ring.
  - exfalso. change (length (x :: l)) with (S (length l)) in Hn.
    rewrite S_INR in Hn. pose proof (pos_INR (length l)). lra.
Qed.

(** On equal-length inputs [least_squares] returns, and what it returns
    minimises the sum of squared residuals. *)
Lemma least_squares_total_ols (R_ T : array) :
  length R_ = length T ->
  exists p, least_squares R_ T = Ok p /\ is_ols R_ T p.
Proof.
  intros Hlen. rewrite least_squares_is_lstsq.
  destruct (Req_dec_T (discriminant R_) 0) as [HD | HD].
  - destruct R_ as [| r xs].
    + destruct T; [| discriminate].
      exists (0, 0). split; [unfold lstsq_line; simpl |].
      * destruct (Req_dec_T _ 0) as [_ | N]; [reflexivity | contradiction].
      * intros m' c'. unfold sse. simpl. lra.
    + rewrite (lstsq_line_rank_deficient r xs T Hlen HD).
      eexists; split; [reflexivity |].
      assert (Hn : 0 < INR (length (r :: xs))).
      { apply (length_pos_of_In (r :: xs) r). now left. }
      assert (Hall : forall x, In x (r :: xs) -> x = r).
      { intros x Hx. apply (discriminant_zero_fewer (r :: xs) HD); [exact Hx | now left]. }
      pose proof (discriminant_zero_entries (r :: xs) HD r (or_introl eq_refl)) as Hr.
      apply normal_equations_ols; [exact Hlen | |].
      * rewrite (np_sum_zip_const r (r :: xs) (r :: xs) Hall eq_refl).
        rewrite (np_sum_zip_const r (r :: xs) T Hall Hlen).
        rewrite <- Hr. field. split; [lra | nra].
      * rewrite <- Hr. field. split; [lra | nra].
  - rewrite (lstsq_line_full_rank R_ T Hlen HD). cbv zeta.
    eexists; split; [reflexivity |].
    pose proof (discriminant_nonzero_length R_ HD) as Hn.
    unfold discriminant in *.
    apply normal_equations_ols; [exact Hlen | |]; field; auto.
Qed.

(** In the rank-deficient case the pair returned is the shortest of the
    least-squares pairs, as [lstsq] documents. *)
Lemma lstsq_line_min_norm (r : R) (xs ys : array) (m' c' : R) :
  length (r :: xs) = length ys ->
  discriminant (r :: xs) = 0 ->
  is_ols (r :: xs) ys (m', c') ->
  exists m c, lstsq_line (r :: xs) ys = Ok (m, c) /\
              m * m + c * c <= m' * m' + c' * c'.
Proof.
  intros Hlen HD Hols.
  rewrite (lstsq_line_rank_deficient r xs ys Hlen HD).
  eexists; eexists; split; [reflexivity |].
  assert (Hn : 0 < INR (length (r :: xs))).
  { apply (length_pos_of_In (r :: xs) r). now left. }
  assert (Hall : forall x, In x (r :: xs) -> x = r).
  { intros x Hx. apply (discriminant_zero_fewer (r :: xs) HD); [exact Hx | now left]. }
  pose proof (discriminant_zero_entries (r :: xs) HD r (or_introl eq_refl)) as Hr.
  set (n := INR (length (r :: xs))) in *.
  set (u := np_sum ys / n).
  assert (Hu : np_sum ys = n * u) by (unfold u; field; lra).
  assert (Hq : 0 < r * r + 1) by nra.
  specialize (Hols (r * u / (r * r + 1)) (u / (r * r + 1))).
  simpl fst in Hols; simpl snd in Hols.
  rewrite !sse_expand in Hols by exact Hlen.
  rewrite (np_sum_zip_const r (r :: xs) (r :: xs) Hall eq_refl) in Hols.
  rewrite (np_sum_zip_const r (r :: xs) ys Hall Hlen) in Hols.
  fold n in Hols. rewrite <- Hr, Hu in Hols.
  assert (Hline : r * u / (r * r + 1) * r + u / (r * r + 1) = u) by (field; lra).
  assert (Hsame : m' * r + c' = u).
  { assert (Hsq : n * ((m' * r + c' - u) * (m' * r + c' - u)) <= 0).
    { replace (n * ((m' * r + c' - u) * (m' * r + c' - u)))
        with ((m' * m' * (r * (n * r)) + n * (c' * c') + 2 * m' * c' * (n * r)
               - 2 * m' * (r * (n * u)) - 2 * c' * (n * u))
              - (r * u / (r * r + 1) * (r * u / (r * r + 1)) * (r * (n * r))
                 + n * (u / (r * r + 1) * (u / (r * r + 1)))
                 + 2 * (r * u / (r * r + 1)) * (u / (r * r + 1)) * (n * r)
                 - 2 * (r * u / (r * r + 1)) * (r * (n * u))
                 - 2 * (u / (r * r + 1)) * (n * u)))
        by (field; lra).
      lra. }
    assert (Hz : (m' * r + c' - u) * (m' * r + c' - u) = 0).
    { pose proof (Rle_0_sqr (m' * r + c' - u)) as Hp. unfold Rsqr in Hp. nra. }
    apply Rmult_integral in Hz. lra. }
  replace (r * u / (r * r + 1) * (r * u / (r * r + 1))
           + u / (r * r + 1) * (u / (r * r + 1)))
    with (u * u / (r * r + 1)) by (field; lra).
  apply Rmult_le_reg_r with (r * r + 1); [exact Hq |].
  replace (u * u / (r * r + 1) * (r * r + 1)) with (u * u) by (field; lra).
  rewrite <- Hsame.
  pose proof (Rle_0_sqr (m' - c' * r)) as Hp. unfold Rsqr in Hp. nra.
Qed.




Lemma least_squares_recovers_line (m c : R) (R_ : array) :
  two_distinct R_ ->
  least_squares R_ (map (fun r => m * r + c) R_) = Ok (m, c).
Proof.
  intros H2. pose proof (two_distinct_discriminant R_ H2) as HD.
  pose proof (discriminant_nonzero_length R_ HD) as Hn.
  rewrite least_squares_is_lstsq.
  rewrite lstsq_line_full_rank; [| now rewrite length_map | exact HD].
  cbv zeta. rewrite np_sum_affine, np_sum_zip_affine.
  unfold discriminant in *.
  f_equal. f_equal; field; auto.
Qed.

(** ** The singular values of the design matrix *)

Lemma sum_squares_nonneg (xs : array) : 0 <= np_sum (zip_with Rmult xs xs).
Proof.
  induction xs as [| x l IH]; simpl; [lra |].
  unfold np_sum in *. nra.
Qed.

Lemma discriminant_nonneg (xs : array) : 0 <= discriminant xs.
Proof.
  destruct xs as [| x l]; [unfold discriminant; simpl; lra |].
  pose proof (discriminant_sum_of_squares (x :: l)) as H.
  pose proof (np_sum_squares_nonneg
                (fun y => INR (length (x :: l)) * y - np_sum (x :: l)) (x :: l)) as Hs.
  cbv beta in Hs. rewrite <- H in Hs.
  assert (Hn : 0 < INR (length (x :: l))).
  { apply (length_pos_of_In (x :: l) x). now left. }
  nra.
Qed.

Lemma gap_radicand_nonneg (a b : R) : 0 <= a * a + 4 * (b * b).
Proof.
  pose proof (Rle_0_sqr a) as Ha. pose proof (Rle_0_sqr b) as Hb.
  unfold Rsqr in *. lra.
Qed.

Lemma gram_trace_nonneg (xs : array) : 0 <= gram_trace xs.
Proof.
  unfold gram_trace. pose proof (sum_squares_nonneg xs). pose proof (pos_INR (length xs)).
  lra.
Qed.

Lemma gram_gap_nonneg (xs : array) : 0 <= gram_gap xs.
Proof. unfold gram_gap. apply sqrt_pos. Qed.

Lemma gram_gap_sqr (xs : array) :
  gram_gap xs * gram_gap xs = gram_trace xs * gram_trace xs - 4 * discriminant xs.
Proof.
  unfold gram_gap. cbv zeta. rewrite sqrt_sqrt by apply gap_radicand_nonneg.
  unfold gram_trace, discriminant. ring.
Qed.

Lemma gram_gap_le_trace (xs : array) : gram_gap xs <= gram_trace xs.
Proof.
  pose proof (gram_gap_sqr xs). pose proof (gram_gap_nonneg xs).
  pose proof (gram_trace_nonneg xs). pose proof (discriminant_nonneg xs).
  nra.
Qed.

Lemma gram_eigen_min_nonneg (xs : array) : 0 <= gram_eigen_min xs.
Proof. unfold gram_eigen_min. pose proof (gram_gap_le_trace xs). lra. Qed.

Lemma gram_eigen_order (xs : array) : gram_eigen_min xs <= gram_eigen_max xs.
Proof.
  unfold gram_eigen_min, gram_eigen_max. pose proof (gram_gap_nonneg xs). lra.
Qed.

Lemma gram_eigen_prod (xs : array) :
  gram_eigen_max xs * gram_eigen_min xs = discriminant xs.
Proof.
  unfold gram_eigen_min, gram_eigen_max. pose proof (gram_gap_sqr xs). nra.
Qed.

Lemma gram_eigen_max_bounds (xs : array) :
  gram_trace xs / 2 <= gram_eigen_max xs <= gram_trace xs /\
  np_sum (zip_with Rmult xs xs) <= gram_eigen_max xs /\
  INR (length xs) <= gram_eigen_max xs.
Proof.
  pose proof (gram_gap_nonneg xs) as G0. pose proof (gram_gap_le_trace xs) as G1.
  unfold gram_eigen_max. split; [lra |].
  assert (Hq : (np_sum (zip_with Rmult xs xs) - INR (length xs))
               * (np_sum (zip_with Rmult xs xs) - INR (length xs))
               <= gram_gap xs * gram_gap xs).
  { unfold gram_gap. cbv zeta. rewrite sqrt_sqrt by apply gap_radicand_nonneg.
    pose proof (Rle_0_sqr (np_sum xs)) as Hs. unfold Rsqr in Hs. lra. }
  unfold gram_trace in *. split; nra.
Qed.

Lemma singular_order (xs : array) : singular_min xs <= singular_max xs.
Proof.
  unfold singular_min, singular_max. apply sqrt_le_1.
  - apply gram_eigen_min_nonneg.
  - pose proof (gram_eigen_min_nonneg xs). pose proof (gram_eigen_order xs). lra.
  - apply gram_eigen_order.
Qed.

Lemma singular_max_nonneg (xs : array) : 0 <= singular_max xs.
Proof. apply sqrt_pos. Qed.

(** Above the cutoff the matrix has full rank. *)
Lemma well_conditioned_rank (rcond : R) (xs : array) :
  0 <= rcond -> well_conditioned rcond xs ->
  discriminant xs <> 0 /\
  ~ singular_max xs <= rcond * singular_max xs /\
  ~ singular_min xs <= rcond * singular_max xs.
Proof.
  unfold well_conditioned. intros Hr H.
  pose proof (singular_order xs) as Ho. pose proof (singular_max_nonneg xs) as Hm.
  assert (Hc : 0 <= rcond * singular_max xs) by (apply Rmult_le_pos; assumption).
  split; [| split; lra].
  intros HD.
  assert (Hz : gram_eigen_min xs = 0).
  { pose proof (gram_eigen_prod xs) as P. rewrite HD in P.
    apply Rmult_integral in P. destruct P as [P | P]; [| exact P].
    pose proof (gram_eigen_min_nonneg xs). pose proof (gram_eigen_order xs). lra. }
  unfold singular_min in H. rewrite Hz, sqrt_0 in H. lra.
Qed.

(** Where both singular values are kept, the cutoff plays no part. *)
Lemma lstsq_rcond_well_conditioned (rcond : R) (R_ T : array) :
  0 <= rcond -> well_conditioned rcond R_ ->
  lstsq_rcond rcond R_ T = lstsq_line R_ T.
Proof.
  intros Hr H. destruct (well_conditioned_rank rcond R_ Hr H) as (HD & H1 & H2).
  unfold lstsq_rcond, lstsq_line.
  destruct (negb (Nat.eqb (length R_) (length T))); [reflexivity |]. cbv zeta.
  destruct (Rle_dec (singular_max R_) _) as [C | _]; [contradiction |].
  destruct (Rle_dec (singular_min R_) _) as [C | _]; [contradiction |].
  destruct (Req_dec_T (discriminant R_) 0) as [C | _]; [contradiction |].
  reflexivity.
Qed.

Lemma least_squares_rcond_is_lstsq (rcond : R) (xs ys : array) :
  least_squares_rcond rcond xs ys = lstsq_rcond rcond xs ys.
Proof.
  unfold least_squares_rcond.
  destruct (lstsq_rcond rcond xs ys) as [[m c] | e]; reflexivity.
Qed.

Lemma least_squares_rcond_well_conditioned (rcond : R) (R_ T : array) :
  0 <= rcond -> well_conditioned rcond R_ ->
  least_squares_rcond rcond R_ T = least_squares R_ T.
Proof.
  intros Hr H.
  rewrite least_squares_rcond_is_lstsq, least_squares_is_lstsq.
  now apply lstsq_rcond_well_conditioned.
Qed.

(** A polynomial test for being above the cutoff. *)
Lemma well_conditioned_test (rcond : R) (xs : array) :
  0 <= rcond ->
  rcond * rcond * (gram_trace xs * gram_trace xs) < discriminant xs ->
  well_conditioned rcond xs.
Proof.
  intros Hr H. unfold well_conditioned, singular_max, singular_min.
  pose proof (gram_eigen_prod xs) as P.
  pose proof (gram_eigen_max_bounds xs) as ((B1 & B2) & _).
  pose proof (gram_eigen_min_nonneg xs) as M0.
  pose proof (gram_eigen_order xs) as Ho.
  pose proof (gram_trace_nonneg xs) as T0.
  set (L := gram_eigen_max xs) in *. set (l := gram_eigen_min xs) in *.
  assert (HL : 0 < L).
  { assert (0 < discriminant xs) by nra. nra. }
  assert (Hlt : rcond * rcond * L < l).
  { assert (rcond * rcond * (L * L) <= rcond * rcond * (gram_trace xs * gram_trace xs)).
    { apply Rmult_le_compat_l; [nra |]. nra. }
    assert (rcond * rcond * L * L < l * L) by nra.
    apply Rmult_lt_reg_r with L; [exact HL | lra]. }
  replace (rcond * sqrt L) with (sqrt (rcond * rcond * L)).
  - apply sqrt_lt_1_alt. split; [| exact Hlt].
    apply Rmult_le_pos; [nra | lra].
  - rewrite sqrt_mult by nra. now rewrite sqrt_square.
Qed.

(** A polynomial test for losing the smaller singular value. *)
Lemma rank_one_test (rcond : R) (xs : array) :
  0 <= rcond < 1 -> 0 < gram_trace xs ->
  4 * discriminant xs <= rcond * rcond * (gram_trace xs * gram_trace xs) ->
  ~ singular_max xs <= rcond * singular_max xs /\
  singular_min xs <= rcond * singular_max xs.
Proof.
  intros Hr HT H. unfold singular_max, singular_min.
  pose proof (gram_eigen_prod xs) as P.
  pose proof (gram_eigen_max_bounds xs) as ((B1 & B2) & _).
  pose proof (gram_eigen_min_nonneg xs) as M0.
  set (L := gram_eigen_max xs) in *. set (l := gram_eigen_min xs) in *.
  assert (HL : 0 < L) by lra.
  pose proof (sqrt_lt_R0 L HL) as HS.
  split; [nra |].
  assert (Hle : l <= rcond * rcond * L).
  { assert (rcond * rcond * (gram_trace xs * gram_trace xs) <= 4 * (rcond * rcond * (L * L))).
    { assert (gram_trace xs * gram_trace xs <= 4 * (L * L)) by nra.
      assert (0 <= rcond * rcond) by nra. nra. }
    assert (l * L <= rcond * rcond * L * L) by nra.
    apply Rmult_le_reg_r with L; [exact HL | lra]. }
  replace (rcond * sqrt L) with (sqrt (rcond * rcond * L)).
  - apply sqrt_le_1; [exact M0 | | exact Hle].
    apply Rmult_le_pos; [nra | lra].
  - rewrite sqrt_mult by nra. now rewrite sqrt_square.
Qed.

Lemma np_sum_const (r : R) (xs : array) :
  (forall x, In x xs -> x = r) -> np_sum xs = INR (length xs) * r.
Proof.
  induction xs as [| x l IH]; intros Hall.
  - simpl. ring.
  - change (length (x :: l)) with (S (length l)). rewrite S_INR.
    simpl. unfold np_sum in *. rewrite IH by (intros; apply Hall; now right).
    rewrite (Hall x (or_introl eq_refl)). ring.
Qed.

Lemma discriminant_two_distinct (xs : array) :
  discriminant xs <> 0 -> two_distinct xs.
Proof.
  intros HD. destruct xs as [| r xs].
  - exfalso. apply HD. unfold discriminant. simpl. ring.
  - destruct (Forall_Exists_dec (fun x => x = r) (fun x => Req_dec_T x r) (r :: xs))
      as [Hall | Hex].
    + exfalso. apply HD. rewrite Forall_forall in Hall. unfold discriminant.
      rewrite (np_sum_zip_const r (r :: xs) (r :: xs) Hall eq_refl).
      rewrite (np_sum_const r (r :: xs) Hall). ring.
    + apply Exists_exists in Hex. destruct Hex as (x & Hx & Hne).
      exists x, r. split; [exact Hx |]. split; [now left | exact Hne].
Qed.

(** C8, as amended.  Round trip: from temperatures generated exactly on
    the line [T_i = m * R_i + c], over resistances whose design matrix
    keeps its full rank under the cutoff of the solver (the smaller
    singular value exceeds [rcond] times the larger), [least_squares]
    recovers [(m, c)] within [1e-9] (in the model over the reals,
    exactly). *)
Theorem least_squares_round_trip_conditioned (rcond m c : R) (R_ : array) :
  0 <= rcond ->
  (2 <= length R_)%nat ->
  well_conditioned rcond R_ ->
  exists m' c',
    least_squares_rcond rcond R_ (map (fun r => m * r + c) R_) = Ok (m', c') /\
    Rabs (m' - m) <= 1e-9 /\ Rabs (c' - c) <= 1e-9.
Proof.
  intros Hr _ H. exists m, c.
  rewrite (least_squares_rcond_well_conditioned rcond R_ _ Hr H).
  destruct (well_conditioned_rank rcond R_ Hr H) as (HD & _).
  split; [apply least_squares_recovers_line; now apply discriminant_two_distinct |].
  replace (m - m) with 0 by ring. replace (c - c) with 0 by ring.
  rewrite Rabs_R0. lra.
Qed.

Lemma sample_resistances_well_conditioned : well_conditioned rcond_lapack [1; 2; 4].
Proof.
  apply well_conditioned_test.
  - unfold rcond_lapack. lra.
  - unfold gram_trace, discriminant, rcond_lapack, np_sum. simpl. lra.
Qed.

Lemma least_squares_round_trip_conditioned_witness :
  exists m' c',
    least_squares_rcond rcond_lapack [1; 2; 4]
      (map (fun r => 0.065 * r + 12) [1; 2; 4]) = Ok (m', c') /\
    Rabs (m' - 0.065) <= 1e-9 /\ Rabs (c' - 12) <= 1e-9.
Proof.
  apply least_squares_round_trip_conditioned.
  - unfold rcond_lapack. lra.
  - simpl. lia.
  - apply sample_resistances_well_conditioned.
Defined.

(** With the smaller singular value below the cutoff and a non-zero sum
    of the resistances, the solver returns the projection on the
    dominant direction. *)
Lemma lstsq_rcond_rank_one (rcond : R) (xs ys : array) :
  length xs = length ys ->
  ~ singular_max xs <= rcond * singular_max xs ->
  singular_min xs <= rcond * singular_max xs ->
  np_sum xs <> 0 ->
  lstsq_rcond rcond xs ys =
  let v1 := gram_eigen_max xs - INR (length xs) in
  let v2 := np_sum xs in
  let beta := (v1 * np_sum (zip_with Rmult xs ys) + v2 * np_sum ys)
              / (gram_eigen_max xs * (v1 * v1 + v2 * v2)) in
  Ok (beta * v1, beta * v2).
Proof.
  intros Hlen H1 H2 HS. unfold lstsq_rcond.
  rewrite Hlen, Nat.eqb_refl. simpl negb. cbv iota. rewrite <- Hlen. cbv zeta.
  destruct (Rle_dec (singular_max xs) _) as [C | _]; [contradiction |].
  destruct (Rle_dec (singular_min xs) _) as [_ | C]; [| contradiction].
  unfold dominant. destruct (Req_dec_T (np_sum xs) 0) as [C | _]; [contradiction |].
  reflexivity.
Qed.

(** The resistances [1e9, 1e9 + 1, 1e9 + 2] with temperatures on the line
    [2 R + 3]: the ratio of the singular values is about [8e-19], the
    smaller one is dropped under any cutoff from the machine precision
    up, and the intercept returned is below [1]. *)
Lemma ill_conditioned_fit (rcond : R) :
  rcond_lapack <= rcond < 1 ->
  exists m' c',
    least_squares_rcond rcond [1e9; 1e9 + 1; 1e9 + 2]
      (map (fun r => 2 * r + 3) [1e9; 1e9 + 1; 1e9 + 2]) = Ok (m', c') /\
    c' < 1.
Proof.
  intros [Hlo Hhi].
  set (xs := [1e9; 1e9 + 1; 1e9 + 2]).
  set (ys := map (fun r => 2 * r + 3) xs).
  assert (ESx : np_sum xs = 3000000003) by (unfold xs, np_sum; simpl; lra).
  assert (ESxx : np_sum (zip_with Rmult xs xs) = 3000000006000000005)
    by (unfold xs, np_sum; simpl; lra).
  assert (ESy : np_sum ys = 6000000015) by (unfold ys, xs, np_sum; simpl; lra).
  assert (ESxy : np_sum (zip_with Rmult xs ys) = 6000000021000000019)
    by (unfold ys, xs, np_sum; simpl; lra).
  assert (En : INR (length xs) = 3) by (unfold xs; simpl; lra).
  assert (ET : gram_trace xs = 3000000006000000008)
    by (unfold gram_trace; rewrite ESxx, En; lra).
  assert (ED : discriminant xs = 6)
    by (unfold discriminant; rewrite ESxx, ESx, En; lra).
  assert (Hr0 : 0 < rcond_lapack) by (unfold rcond_lapack; lra).
  destruct (rank_one_test rcond xs) as [H1 H2].
  - lra.
  - rewrite ET. lra.
  - rewrite ET, ED.
    assert (rcond_lapack * rcond_lapack <= rcond * rcond) by nra.
    assert (24 <= rcond_lapack * rcond_lapack
                  * (3000000006000000008 * 3000000006000000008))
      by (unfold rcond_lapack; lra).
    nra.
  - rewrite least_squares_rcond_is_lstsq.
    rewrite (lstsq_rcond_rank_one rcond xs ys eq_refl H1 H2) by (rewrite ESx; lra).
    cbv zeta. rewrite ESx, ESxy, ESy, En.
    pose proof (gram_eigen_max_bounds xs) as ((_ & B2) & B3 & _).
    rewrite ET in B2. rewrite ESxx in B3.
    set (L := gram_eigen_max xs) in *.
    eexists; eexists; split; [reflexivity |].
    set (N := (L - 3) * 6000000021000000019 + 3000000003 * 6000000015).
    set (D := L * ((L - 3) * (L - 3) + 3000000003 * 3000000003)).
    assert (HN : N * 3000000003
                 <= (3000000006000000005 * 6000000021000000019
                     + 3000000003 * 6000000015) * 3000000003).
    { unfold N. nra. }
    assert (HD : 3000000006000000005
                 * (3000000006000000002 * 3000000006000000002) <= D).
    { unfold D.
      assert (Hv : 3000000006000000002 * 3000000006000000002 <= (L - 3) * (L - 3)).
      { apply Rmult_le_compat; lra. }
      apply Rmult_le_compat; try lra. }
    assert (Hpos : 0 < D) by lra.
    replace (N / D * 3000000003) with (N * 3000000003 * / D) by (field; lra).
    apply Rmult_lt_reg_r with D; [exact Hpos |].
    rewrite Rmult_assoc, Rinv_l by lra. lra.
Qed.

(** C8, as stated, fails: [R = [1e9, 1e9 + 1, 1e9 + 2]] has three
    distinct values, and from [T = 2 R + 3] generated exactly
    [least_squares] returns an intercept below [1], not [3], under the
    default cutoff of the LAPACK driver and under that of NumPy 2. *)
Lemma least_squares_round_trip_ill_conditioned :
  (2 <= length [1e9; 1e9 + 1; 1e9 + 2]%R)%nat /\
  two_distinct [1e9; 1e9 + 1; 1e9 + 2] /\
  (exists m' c',
     least_squares_rcond rcond_lapack [1e9; 1e9 + 1; 1e9 + 2]
       (map (fun r => 2 * r + 3) [1e9; 1e9 + 1; 1e9 + 2]) = Ok (m', c') /\
     1e-9 < Rabs (c' - 3)) /\
  (exists m' c',
     least_squares_rcond (rcond_numpy2 3) [1e9; 1e9 + 1; 1e9 + 2]
       (map (fun r => 2 * r + 3) [1e9; 1e9 + 1; 1e9 + 2]) = Ok (m', c') /\
     1e-9 < Rabs (c' - 3)).
Proof.
  split; [simpl; lia |].
  split; [exists 1e9, (1e9 + 1); simpl; repeat split; auto; lra |].
  split.
  - destruct (ill_conditioned_fit rcond_lapack) as (m' & c' & E & H).
    + unfold rcond_lapack. lra.
    + exists m', c'. split; [exact E |]. rewrite Rabs_left by lra. lra.
  - destruct (ill_conditioned_fit (rcond_numpy2 3)) as (m' & c' & E & H).
    + unfold rcond_numpy2, rcond_lapack. simpl. lra.
    + exists m', c'. split; [exact E |]. rewrite Rabs_left by lra. lra.
Qed.

(** On an exactly rank-deficient matrix the smaller singular value is
    zero and the two readings of the solver agree, whatever the cutoff. *)
Lemma lstsq_rcond_rank_deficient (rcond : R) (xs ys : array) :
  0 <= rcond < 1 -> discriminant xs = 0 ->
  lstsq_rcond rcond xs ys = lstsq_line xs ys.
Proof.
  intros [Hr0 Hr1] HD.
  destruct (Nat.eq_dec (length xs) (length ys)) as [Hlen | Hlen].
  2:{ unfold lstsq_rcond, lstsq_line.
      destruct (Nat.eqb_spec (length xs) (length ys)); [contradiction | reflexivity]. }
  assert (EG : gram_gap xs = gram_trace xs).
  { pose proof (gram_gap_sqr xs) as Q. rewrite HD in Q.
    pose proof (gram_gap_nonneg xs). pose proof (gram_trace_nonneg xs). nra. }
  assert (EL : gram_eigen_max xs = gram_trace xs) by (unfold gram_eigen_max; lra).
  assert (El : singular_min xs = 0).
  { unfold singular_min, gram_eigen_min. rewrite EG.
    replace ((gram_trace xs - gram_trace xs) / 2) with 0 by lra. apply sqrt_0. }
  destruct xs as [| r l].
  - destruct ys; [| discriminate].
    unfold lstsq_rcond, lstsq_line. simpl negb. cbv iota zeta.
    assert (Es : singular_max [] = 0).
    { unfold singular_max. rewrite EL. unfold gram_trace. simpl.
      replace (0 + 0) with 0 by lra. apply sqrt_0. }
    rewrite Es.
    destruct (Rle_dec 0 (rcond * 0)) as [_ | C]; [| exfalso; apply C; lra].
    destruct (Req_dec_T (discriminant []) 0) as [_ | C]; [reflexivity | contradiction].
  - assert (Hn : 0 < INR (length (r :: l))).
    { apply (length_pos_of_In (r :: l) r). now left. }
    assert (Hall : forall x, In x (r :: l) -> x = r).
    { intros x Hx. apply (discriminant_zero_fewer (r :: l) HD); [exact Hx | now left]. }
    pose proof (np_sum_const r (r :: l) Hall) as ESx.
    pose proof (np_sum_zip_const r (r :: l) (r :: l) Hall eq_refl) as ESxx.
    pose proof (np_sum_zip_const r (r :: l) ys Hall Hlen) as ESxy.
    rewrite ESx in ESxx.
    assert (ET : gram_trace (r :: l) = INR (length (r :: l)) * (r * r + 1)).
    { unfold gram_trace. rewrite ESxx. ring. }
    assert (HLpos : 0 < gram_eigen_max (r :: l)) by (rewrite EL, ET; nra).
    pose proof (sqrt_lt_R0 _ HLpos) as Hs. fold (singular_max (r :: l)) in Hs.
    rewrite (lstsq_line_rank_deficient r l ys Hlen HD).
    unfold lstsq_rcond.
    rewrite Hlen, Nat.eqb_refl. simpl negb. cbv iota. rewrite <- Hlen. cbv zeta.
    destruct (Rle_dec (singular_max (r :: l)) _) as [C | _]; [exfalso; nra |].
    destruct (Rle_dec (singular_min (r :: l)) _) as [_ | C];
      [| exfalso; apply C; rewrite El; nra].
    unfold dominant. rewrite EL, ET, ESxy, ESxx, ESx.
    set (n := INR (length (r :: l))) in *.
    destruct (Req_dec_T (n * r) 0) as [Z | NZ].
    + assert (Hr : r = 0).
      { apply Rmult_integral in Z. destruct Z; lra. }
      destruct (Rle_dec (r * (n * r)) n) as [_ | C]; [| exfalso; apply C; rewrite Hr; lra].
      cbn [fst snd]. rewrite Hr. f_equal. f_equal; field; lra.
    + assert (Hr : r <> 0) by (intros ->; apply NZ; ring).
      cbn [fst snd]. f_equal. f_equal; field; repeat split; try lra; nra.
Qed.

(** With no cutoff at all the routine is the infinite-precision reading. *)
Lemma lstsq_rcond_zero (xs ys : array) : lstsq_rcond 0 xs ys = lstsq_line xs ys.
Proof.
  destruct (Req_dec_T (discriminant xs) 0) as [HD | HD].
  - apply lstsq_rcond_rank_deficient; [lra | exact HD].
  - apply lstsq_rcond_well_conditioned; [lra |].
    unfold well_conditioned. rewrite Rmult_0_l.
    unfold singular_min. apply sqrt_lt_R0.
    pose proof (gram_eigen_prod xs) as P.
    pose proof (gram_eigen_min_nonneg xs) as M0.
    destruct (Req_dec_T (gram_eigen_min xs) 0) as [Z | NZ]; [| lra].
    rewrite Z, Rmult_0_r in P. exfalso. apply HD. now symmetry.
Qed.

(** ** The monad, draws and loops *)

Lemma bind_ok {A B : Type} (c : M A) (f : A -> M B) (w w' : world) (a : A) :
  c w = Ok (a, w') -> bind c f w = f a w'.
Proof.
  intros H. unfold bind. now rewrite H.
Qed.

Lemma bind_lift_ok {A B : Type} (r : result A) (f : A -> M B) (w : world) (a : A) :
  r = Ok a -> bind (lift r) f w = f a w.
Proof.
  intros ->. reflexivity.
Qed.

Lemma calls_advance (n : nat) (w : world) : calls (advance n w) = calls w.
Proof.
  revert w. induction n as [| n IH]; intros w; simpl; [reflexivity |].
  now rewrite IH.
Qed.


Lemma normal_ok (loc scale : R) (w : world) :
  0 <= scale ->
  normal loc scale w = Ok (loc + scale * draws w 0%nat, tail_world w).
Proof.
  intros H. unfold normal. destruct (Rlt_dec scale 0) as [N | _]; [lra |].
  reflexivity.
Qed.

Lemma draw_each_ok (ps : list (R * R)) (w : world) :
  exists arr,
    draw_each ps w = Ok (arr, advance (length ps) w) /\
    length arr = length ps /\
    (Forall (fun p => snd p = 0) ps -> arr = map fst ps).
Proof.
  revert w. induction ps as [| [loc scale] ps IH]; intros w.
  - exists []. repeat split; auto.
  - destruct (IH (tail_world w)) as (arr & E & L & Z).
    exists ((loc + scale * draws w 0%nat) :: arr). split; [| split].
    + simpl. unfold bind at 1. unfold standard_normal.
      unfold bind at 1. rewrite E. reflexivity.
    + simpl. now rewrite L.
    + intros H. inversion H as [| ? ? H0 Hps]; subst. simpl in H0. subst scale.
      simpl. rewrite (Z Hps). f_equal. ring.
Qed.

Lemma existsb_negative_scale (loc scale : array) :
  all_nonneg scale -> existsb negative_scale (zip_with pair loc scale) = false.
Proof.
  intros H. revert loc. induction H as [| s scale Hs Hall IH]; intros [| l loc];
    simpl; auto.
  rewrite IH. unfold negative_scale. simpl.
  destruct (Rlt_dec s 0); [lra | reflexivity].
Qed.

Lemma zip_pair_zero (loc scale : array) :
  length loc = length scale -> all_zero scale ->
  Forall (fun p => snd p = 0) (zip_with pair loc scale) /\
  map fst (zip_with pair loc scale) = loc.
Proof.
  revert scale. induction loc as [| l loc IH]; intros [| s scale] Hlen Hz;
    try discriminate; simpl.
  - split; [constructor | reflexivity].
  - injection Hlen as Hlen. inversion Hz; subst.
    destruct (IH scale Hlen) as [F E]; [assumption |].
    split; [constructor; [reflexivity | exact F] | now rewrite E].
Qed.

Lemma normal_arr_ok (loc scale : array) (w : world) :
  length loc = length scale -> all_nonneg scale ->
  exists arr,
    normal_arr loc scale w = Ok (arr, advance (length loc) w) /\
    length arr = length loc /\
    (all_zero scale -> arr = loc).
Proof.
  intros Hlen Hnn. unfold normal_arr.
  rewrite (bind_lift_ok _ _ w _ (broadcast2_same_length pair loc scale Hlen)).
  rewrite existsb_negative_scale by exact Hnn.
  destruct (draw_each_ok (zip_with pair loc scale) w) as (arr & E & L & Z).
  rewrite zip_with_length in E, L by exact Hlen.
  exists arr. repeat split; auto.
  intros Hz. destruct (zip_pair_zero loc scale Hlen Hz) as [F M'].
  rewrite (Z F). exact M'.
Qed.


Lemma getitem_ok (l : array) (j : nat) :
  (j < length l)%nat -> getitem l j = Ok (nth j l 0).
Proof.
  intros H. unfold getitem.
  destruct (nth_error l j) as [x |] eqn:E.
  - now rewrite (nth_error_nth l j 0 E).
  - apply nth_error_None in E. lia.
Qed.

Lemma call_climate_correction_period_ok
    (kappa : array) (t0 t1 Tk : R) (z : array) (w : world) :
  length kappa = length z ->
  call_climate_correction_period kappa t0 t1 Tk z w =
  Ok (correction_of_call (mk_call kappa t0 t1 Tk z),
      log_call (mk_call kappa t0 t1 Tk z) w).
Proof.
  intros H. unfold call_climate_correction_period, climate_correction_period_arr.
  now rewrite broadcast2_same_length by exact H.
Qed.

Lemma y2s_1e3_nonneg : 0 <= y2s 1e3.
Proof. unfold y2s. lra. Qed.

Lemma for_each_invariant {S : Type} (I : nat -> S -> world -> Prop)
    (body : nat -> S -> M S) (n a : nat) :
  (forall j s w, (a <= j < a + n)%nat -> I j s w ->
                 exists s' w', body j s w = Ok (s', w') /\ I (Datatypes.S j) s' w') ->
  forall s w, I a s w ->
  exists s' w', for_each (seq a n) body s w = Ok (s', w') /\ I (a + n)%nat s' w'.
Proof.
  revert a. induction n as [| n IH]; intros a Hstep s w H0.
  - exists s, w. rewrite Nat.add_0_r. split; [reflexivity | exact H0].
  - destruct (Hstep a s w) as (s1 & w1 & E1 & I1); [lia | exact H0 |].
    destruct (IH (Datatypes.S a)) with (s := s1) (w := w1) as (s2 & w2 & E2 & I2).
    + intros j s' w' Hj. apply Hstep. lia.
    + exact I1.
    + exists s2, w2. split.
      * simpl. rewrite (bind_ok _ _ w w1 s1 E1). exact E2.
      * now rewrite Nat.add_succ_r.
Qed.

Lemma for_range_invariant {S : Type} (I : nat -> S -> world -> Prop)
    (body : nat -> S -> M S) (n : nat) :
  (forall j s w, (j < n)%nat -> I j s w ->
                 exists s' w', body j s w = Ok (s', w') /\ I (Datatypes.S j) s' w') ->
  forall s w, I 0%nat s w ->
  exists s' w', for_range n body s w = Ok (s', w') /\ I n s' w'.
Proof.
  intros Hstep s w H0. unfold for_range.
  apply (for_each_invariant I body n 0); [| exact H0].
  intros j s' w' Hj. apply Hstep. lia.
Qed.

(** ** One epoch step *)

Lemma correction_of_call_length (c : ccp_call) :
  length (call_kappa c) = length (call_z c) ->
  length (correction_of_call c) = length (call_z c).
Proof.
  intros H. unfold correction_of_call. rewrite zip_with_length; auto.
Qed.

Lemma nth_nonneg (l : array) (j : nat) : all_nonneg l -> 0 <= nth j l 0.
Proof.
  intros H. revert j. induction H as [| x l Hx Hl IH]; intros [| j]; simpl;
    try lra; auto.
Qed.

Lemma palaeoclimate_step_ok (g : Globals.t) (a T : array) (j : nat) (w : world) :
  well_formed g ->
  (j < length (Globals.t0 g))%nat ->
  length a = length (Globals.z_k g) ->
  length T = length (Globals.z_k g) ->
  palaeoclimate_step g a j T w =
  Ok (zip_with Rplus T (correction_of_call (palaeoclimate_call g a j w)),
      log_call (palaeoclimate_call g a j w) (advance 3 w)).
Proof.
  intros WF Hj Ha HT. unfold palaeoclimate_step.
  rewrite (bind_lift_ok _ _ _ _ (getitem_ok _ j Hj)).
  rewrite (bind_ok _ _ _ _ _ (normal_ok _ _ w y2s_1e3_nonneg)).
  rewrite (bind_lift_ok _ _ _ _ (getitem_ok (Globals.t1 g) j
             ltac:(rewrite (wf_t1 g WF); exact Hj))).
  rewrite (bind_ok _ _ _ _ _ (normal_ok _ _ (tail_world w) y2s_1e3_nonneg)).
  rewrite (bind_lift_ok _ _ _ _ (getitem_ok (Globals.Tc g) j
             ltac:(rewrite (wf_Tc g WF); exact Hj))).
  rewrite (bind_lift_ok _ _ _ _ (getitem_ok (Globals.sigma_Tc g) j
             ltac:(rewrite (wf_sigma_Tc g WF); exact Hj))).
  rewrite (bind_ok _ _ _ _ _
             (normal_ok _ _ (tail_world (tail_world w))
                (nth_nonneg _ j (wf_sTc_nonneg g WF)))).
  rewrite (bind_ok _ _ _ _ _
             (call_climate_correction_period_ok a _ _ _ (Globals.z_k g) _ Ha)).
  unfold lift. rewrite iadd_same_length.
  - reflexivity.
  - rewrite correction_of_call_length; simpl; congruence.
Qed.

Lemma instrumental_step_ok (g : Globals.t) (a T : array) (j : nat) (w : world) :
  well_formed g ->
  (j < length (Globals.t0b g))%nat ->
  length a = length (Globals.z_k g) ->
  length T = length (Globals.z_k g) ->
  instrumental_step g a j T w =
  Ok (zip_with Rplus T (correction_of_call (instrumental_call g a j w)),
      log_call (instrumental_call g a j w) (advance 1 w)).
Proof.
  intros WF Hj Ha HT. unfold instrumental_step.
  rewrite (bind_lift_ok _ _ _ _ (getitem_ok _ j Hj)).
  rewrite (bind_lift_ok _ _ _ _ (getitem_ok (Globals.t1b g) j
             ltac:(rewrite (wf_t1b g WF); exact Hj))).
  rewrite (bind_lift_ok _ _ _ _ (getitem_ok (Globals.T0_40N2 g) j
             ltac:(rewrite (wf_T0 g WF); exact Hj))).
  rewrite (bind_ok _ _ _ _ _ (normal_ok _ 0.1 w ltac:(lra))).
  rewrite (bind_ok _ _ _ _ _
             (call_climate_correction_period_ok a _ _ _ (Globals.z_k g) _ Ha)).
  unfold lift. rewrite iadd_same_length.
  - reflexivity.
  - rewrite correction_of_call_length; simpl; congruence.
Qed.

(** ** The epoch loops *)


Lemma apply_calls_snoc (T : array) (cs : list ccp_call) (c : ccp_call) :
  apply_calls T (cs ++ [c]) = zip_with Rplus (apply_calls T cs) (correction_of_call c).
Proof.
  unfold apply_calls. now rewrite fold_left_app.
Qed.

Lemma epoch_loop_ok (body : nat -> array -> M array)
    (mkc : nat -> world -> ccp_call) (d m : nat) (a z T : array) (w : world) :
  (forall j T w, (j < m)%nat -> length T = length z ->
     body j T w = Ok (zip_with Rplus T (correction_of_call (mkc j w)),
                      log_call (mkc j w) (advance d w))) ->
  (forall j w, epoch_calls a z [mkc j w]) ->
  length a = length z ->
  length T = length z ->
  exists T' w' cs,
    for_range m body T w = Ok (T', w') /\
    calls w' = calls w ++ cs /\
    length cs = m /\
    epoch_calls a z cs /\
    T' = apply_calls T cs /\
    length T' = length z.
Proof.
  intros Hbody Hmk Ha HT.
  pose (I := fun (j : nat) (T' : array) (w' : world) =>
               length T' = length z /\
               exists cs, calls w' = calls w ++ cs /\ length cs = j /\
                          epoch_calls a z cs /\ T' = apply_calls T cs).
  destruct (for_range_invariant I body m) with (s := T) (w := w)
    as (T' & w' & E & HL & cs & Hc & Hn & He & HT').
  - intros j T1 w1 Hj (HL & cs & Hc & Hn & He & HT1).
    eexists; eexists. split; [apply Hbody; assumption |].
    pose proof (Hmk j w1) as Hk. destruct (Forall_inv Hk) as (Hka & Hz & Hb).
    split.
    + rewrite zip_with_length; [exact HL |].
      rewrite correction_of_call_length; congruence.
    + exists (cs ++ [mkc j w1]). repeat split.
      * unfold log_call. simpl. rewrite calls_advance, Hc. now rewrite app_assoc.
      * rewrite length_app. simpl. lia.
      * apply Forall_app. split; [exact He | exact Hk].
      * rewrite apply_calls_snoc, <- HT1. reflexivity.
  - split; [exact HT |]. exists []. repeat split.
    + now rewrite app_nil_r.
    + constructor.
  - exists T', w', cs. repeat split; assumption.
Qed.

Lemma palaeoclimate_call_band (g : Globals.t) (a : array) (j : nat) (w : world) :
  epoch_calls a (Globals.z_k g) [palaeoclimate_call g a j w].
Proof.
  constructor; [| constructor]. simpl.
  repeat split; try apply np_clip_bounds; lra.
Qed.

Lemma instrumental_call_band (g : Globals.t) (a : array) (j : nat) (w : world) :
  epoch_calls a (Globals.z_k g) [instrumental_call g a j w].
Proof.
  constructor; [| constructor]. simpl.
  repeat split; try apply np_clip_bounds; lra.
Qed.

Lemma palaeoclimate_loop_ok (g : Globals.t) (a T : array) (w : world) :
  well_formed g ->
  length a = length (Globals.z_k g) ->
  length T = length (Globals.z_k g) ->
  exists T' w' cs,
    for_range (length (Globals.t0 g)) (palaeoclimate_step g a) T w = Ok (T', w') /\
    calls w' = calls w ++ cs /\
    length cs = length (Globals.t0 g) /\
    epoch_calls a (Globals.z_k g) cs /\
    T' = apply_calls T cs /\
    length T' = length (Globals.z_k g).
Proof.
  intros WF Ha HT.
  apply (epoch_loop_ok _ (palaeoclimate_call g a) 3); auto.
  - intros j T1 w1 Hj HT1. now apply palaeoclimate_step_ok.
  - intros j w1. apply palaeoclimate_call_band.
Qed.

Lemma instrumental_loop_ok (g : Globals.t) (a T : array) (w : world) :
  well_formed g ->
  length a = length (Globals.z_k g) ->
  length T = length (Globals.z_k g) ->
  exists T' w' cs,
    for_range (length (Globals.t0b g)) (instrumental_step g a) T w = Ok (T', w') /\
    calls w' = calls w ++ cs /\
    length cs = length (Globals.t0b g) /\
    epoch_calls a (Globals.z_k g) cs /\
    T' = apply_calls T cs /\
    length T' = length (Globals.z_k g).
Proof.
  intros WF Ha HT.
  apply (epoch_loop_ok _ (instrumental_call g a) 1); auto.
  - intros j T1 w1 Hj HT1. now apply instrumental_step_ok.
  - intros j w1. apply instrumental_call_band.
Qed.

Lemma apply_calls_app (T : array) (cs1 cs2 : list ccp_call) :
  apply_calls T (cs1 ++ cs2) = apply_calls (apply_calls T cs1) cs2.
Proof.
  unfold apply_calls. now rewrite fold_left_app.
Qed.


(** After a run of calls, each depth holds its start value plus the
    superposition sum over the epochs of the calls. *)
Lemma nth_apply_calls (a z T : array) (cs : list ccp_call) (i : nat) :
  epoch_calls a z cs -> length a = length z -> length T = length z ->
  (i < length z)%nat ->
  nth i (apply_calls T cs) 0 = nth i T 0 + epoch_sum cs (nth i a 0) (nth i z 0).
Proof.
  intros He Ha HT Hi. revert T HT.
  induction He as [| c cs (Hka & Hz & _) _ IH]; intros T HT.
  - unfold epoch_sum. simpl. ring.
  - simpl apply_calls.
    assert (HL : length (correction_of_call c) = length z).
    { rewrite correction_of_call_length; congruence. }
    rewrite IH by (rewrite zip_with_length; congruence).
    rewrite nth_zip_with by (try congruence; lia).
    unfold correction_of_call at 1.
    rewrite nth_zip_with by (try congruence; lia).
    rewrite Hka, Hz. unfold epoch_sum, climate_correction_period, np_sum.
    simpl. ring.
Qed.

(** ** One pass of the sensitivity loop *)

Lemma perturbed_conductivity_length (kr : array) :
  length (perturbed_conductivity kr) = length kr.
Proof. unfold perturbed_conductivity. apply length_map. Qed.

Lemma diffusivity_length (k_random : array) :
  length (diffusivity k_random) = length k_random.
Proof. unfold diffusivity. apply length_map. Qed.

Lemma thermal_resistance_length (z_k z k R_ : array) :
  length k = length z_k ->
  thermal_resistance z_k z k = Ok R_ -> length R_ = length z_k.
Proof.
  intros Hlen E. rewrite thermal_resistance_aligned in E by exact Hlen.
  assert (E' : R_ = np_cumsum (zip_with Rdiv (np_diff (0 :: z_k)) k)) by congruence.
  rewrite E'. clear E E'.
  rewrite np_cumsum_length, zip_with_length; rewrite np_diff_length; auto.
Qed.

(** On well-formed data a pass never raises, whatever the draws. *)
Lemma iteration_ok (g : Globals.t) (w : world) :
  well_formed g ->
  exists s w', iteration g w = Ok (s, w') /\ iteration_post g w s w'.
Proof.
  intros WF. unfold iteration.
  destruct (normal_arr_ok (Globals.T_k g) (Globals.sigma_T_k g) w)
    as (T0 & E0 & L0 & Z0);
    [rewrite (wf_T_k g WF), (wf_sigma_T_k g WF); reflexivity
    | exact (wf_sT_nonneg g WF) |].
  rewrite (bind_ok _ _ _ _ _ E0).
  set (w1 := advance (length (Globals.T_k g)) w).
  destruct (normal_arr_ok (Globals.k g) (Globals.sigma_k g) w1)
    as (kr & E1 & L1 & Z1);
    [rewrite (wf_k g WF), (wf_sigma_k g WF); reflexivity
    | exact (wf_sk_nonneg g WF) |].
  rewrite (bind_ok _ _ _ _ _ E1).
  set (w2 := advance (length (Globals.k g)) w1).
  rewrite (wf_T_k g WF) in L0. rewrite (wf_k g WF) in L1.
  assert (Lk : length (perturbed_conductivity kr) = length (Globals.z_k g)).
  { now rewrite perturbed_conductivity_length. }
  assert (La : length (diffusivity (perturbed_conductivity kr))
               = length (Globals.z_k g)).
  { now rewrite diffusivity_length. }
  pose proof (thermal_resistance_aligned (Globals.z_k g) (Globals.z_k g) _ Lk) as ER.
  set (R_ := np_cumsum _) in ER.
  assert (LR : length R_ = length (Globals.z_k g)).
  { apply (thermal_resistance_length _ _ _ _ Lk ER). }
  rewrite (bind_lift_ok _ _ _ _ ER).
  destruct (least_squares_total_ols R_ T0) as ([q c] & Eq & _); [congruence |].
  rewrite (bind_lift_ok _ _ _ _ Eq).
  destruct (palaeoclimate_loop_ok g _ T0 w2 WF La L0)
    as (T1 & w3 & cs1 & El1 & C1 & N1 & B1 & A1 & LT1).
  rewrite (bind_ok _ _ _ _ _ El1).
  destruct (instrumental_loop_ok g _ T1 w3 WF La LT1)
    as (T2 & w4 & cs2 & El2 & C2 & N2 & B2 & A2 & LT2).
  rewrite (bind_ok _ _ _ _ _ El2).
  destruct (least_squares_total_ols R_ T2) as ([qc cc] & Eqc & _); [congruence |].
  rewrite (bind_lift_ok _ _ _ _ Eqc).
  eexists; eexists. split; [reflexivity |].
  exists T0, kr, R_, (cs1 ++ cs2). simpl.
  repeat split; auto.
  - rewrite C2, C1. unfold w2, w1. rewrite !calls_advance. now rewrite app_assoc.
  - rewrite length_app. lia.
  - apply Forall_app. split; assumption.
  - rewrite apply_calls_app. congruence.
Qed.

Lemma clipped_diffusivities (kr : array) :
  Forall (fun ka => clipped_diffusivity ka /\ 0 < ka)
         (diffusivity (perturbed_conductivity kr)).
Proof.
  unfold diffusivity, perturbed_conductivity.
  induction kr as [| x kr IH]; simpl; constructor; [| exact IH].
  pose proof (np_clip_bounds x 0.001 1e99 conductivity_floor_lt_ceiling) as Hb.
  split.
  - exists (np_clip x 0.001 1e99). split; [exact Hb | reflexivity].
  - apply Rdiv_lt_0_compat; [lra |]. unfold cp, rho. lra.
Qed.

Lemma epoch_calls_in_domain (kr z : array) (cs : list ccp_call) :
  epoch_calls (diffusivity (perturbed_conductivity kr)) z cs ->
  Forall call_in_domain cs.
Proof.
  intros H. induction H as [| c cs (Hka & _ & H0 & H1) _ IH]; constructor;
    [| exact IH].
  unfold call_in_domain. split; [exact H0 |]. split; [exact H1 |].
  rewrite Hka.
  eapply Forall_impl; [| apply clipped_diffusivities].
  intros ka [Hc Hpos]. cbv beta.
  assert (P0 : 0 < ka * call_t0 c) by (apply Rmult_lt_0_compat; lra).
  assert (P1 : 0 < ka * call_t1 c) by (apply Rmult_lt_0_compat; lra).
  pose proof (sqrt_lt_R0 _ P0). pose proof (sqrt_lt_R0 _ P1).
  repeat split; try assumption; lra.
Qed.

(** C9.  In every pass of the sensitivity loop, whatever the draws, each
    call of [climate_correction_period] receives boundary times clipped
    into [[1e-6, 1e99]] and diffusivities [k/(cp*rho)] of conductivities
    clipped into [[0.001, 1e99]]: the diffusivities and the products
    under the square roots are strictly positive and no divisor is zero.
    The pass itself returns. *)
Theorem sensitivity_pass_stays_in_domain (g : Globals.t) (w : world) :
  well_formed g ->
  exists s w' cs,
    iteration g w = Ok (s, w') /\
    calls w' = calls w ++ cs /\
    length cs = (length (Globals.t0 g) + length (Globals.t0b g))%nat /\
    Forall call_in_domain cs.
Proof.
  intros WF.
  destruct (iteration_ok g w WF)
    as (s & w' & E & T0 & kr & R_ & cs & _ & _ & _ & _ & _ & _ & C & N & B & _).
  exists s, w', cs. repeat split; try assumption.
  now apply epoch_calls_in_domain with (z := Globals.z_k g) (kr := kr).
Qed.

Lemma sample_borehole_well_formed : well_formed Sample.borehole.
Proof.
  constructor; try reflexivity; repeat constructor; simpl; lra.
Qed.

Lemma sensitivity_pass_stays_in_domain_witness :
  exists s w' cs,
    iteration Sample.borehole Sample.stream = Ok (s, w') /\
    calls w' = calls Sample.stream ++ cs /\
    length cs = (length (Globals.t0 Sample.borehole)
                 + length (Globals.t0b Sample.borehole))%nat /\
    Forall call_in_domain cs.
Proof.
  apply sensitivity_pass_stays_in_domain.
  constructor; try reflexivity; repeat constructor; simpl; lra.
Defined.

(** ** The epoch loops in terms of the epoch tables *)

Lemma draws_advance (n i : nat) (w : world) :
  draws (advance n w) i = draws w (n + i)%nat.
Proof.
  revert w. induction n as [| n IH]; intros w; [reflexivity |].
  simpl advance. rewrite IH. reflexivity.
Qed.

(** After the calls that pass the epochs [es] in turn, each depth holds
    its start value plus the specification's sum over [es]. *)
Lemma nth_apply_epochs (a z T : array) (es : list (R * R * R)) (i : nat) :
  length a = length z -> length T = length z -> (i < length z)%nat ->
  nth i (apply_calls T (map (call_of_epoch a z) es)) 0 =
  nth i T 0 + full_correction es (nth i a 0) (nth i z 0).
Proof.
  intros Ha HT Hi. revert T HT.
  induction es as [| [[ts te] Tk] es IH]; intros T HT.
  - unfold full_correction. simpl. ring.
  - assert (HL : length (correction_of_call (call_of_epoch a z (ts, te, Tk)))
                 = length z).
    { rewrite correction_of_call_length; simpl; congruence. }
    change (apply_calls T (map (call_of_epoch a z) ((ts, te, Tk) :: es)))
      with (apply_calls
              (zip_with Rplus T (correction_of_call (call_of_epoch a z (ts, te, Tk))))
              (map (call_of_epoch a z) es)).
    rewrite IH by (rewrite zip_with_length; congruence).
    rewrite nth_zip_with by (try congruence; lia).
    unfold correction_of_call at 1.
    rewrite nth_zip_with by (simpl; try congruence; lia).
    unfold full_correction, climate_correction_period, np_sum.
    simpl. ring.
Qed.

(** A loop whose step [j] consumes [d] draws and passes the epoch
    [epoch j] adds the corrections of exactly these epochs, in order. *)
Lemma epoch_loop_trace (body : nat -> array -> M array)
    (epoch : nat -> R * R * R) (d m : nat) (a z T : array) (w : world) :
  (forall j T' w', (j < m)%nat -> length T' = length z ->
     (forall i, draws w' i = draws w (d * j + i)%nat) ->
     body j T' w' =
     Ok (zip_with Rplus T' (correction_of_call (call_of_epoch a z (epoch j))),
         log_call (call_of_epoch a z (epoch j)) (advance d w'))) ->
  length a = length z ->
  length T = length z ->
  exists w',
    for_range m body T w =
      Ok (apply_calls T (map (call_of_epoch a z) (map epoch (seq 0 m))), w') /\
    calls w' = calls w ++ map (call_of_epoch a z) (map epoch (seq 0 m)) /\
    (forall i, draws w' i = draws w (d * m + i)%nat).
Proof.
  intros Hbody Ha HT.
  pose (cs := fun j => map (call_of_epoch a z) (map epoch (seq 0 j))).
  pose (I := fun (j : nat) (T' : array) (w' : world) =>
               length T' = length z /\
               (forall i, draws w' i = draws w (d * j + i)%nat) /\
               calls w' = calls w ++ cs j /\
               T' = apply_calls T (cs j)).
  destruct (for_range_invariant I body m) with (s := T) (w := w)
    as (T' & w' & E & _ & HD & HC & HT').
  - intros j T1 w1 Hj (HL & HD & HC & HT1).
    eexists; eexists. split; [apply Hbody; assumption |].
    assert (Ecs : cs (S j) = cs j ++ [call_of_epoch a z (epoch j)]).
    { unfold cs. rewrite seq_S, !map_app. reflexivity. }
    split; [| split; [| split]].
    + rewrite zip_with_length; [exact HL |].
      rewrite correction_of_call_length; destruct (epoch j) as [[ts te] Tk];
        simpl; congruence.
    + intros i. unfold log_call. cbn [draws].
      rewrite draws_advance, HD. f_equal. lia.
    + unfold log_call. cbn [calls]. rewrite calls_advance, HC, Ecs.
      now rewrite app_assoc.
    + rewrite Ecs, apply_calls_snoc, <- HT1. reflexivity.
  - unfold I, cs. simpl. repeat split.
    + exact HT.
    + intros i. f_equal. lia.
    + now rewrite app_nil_r.
  - exists w'. fold (cs m). rewrite <- HT'. repeat split; assumption.
Qed.

Lemma palaeoclimate_loop_trace (g : Globals.t) (a T : array) (w : world) :
  well_formed g ->
  length a = length (Globals.z_k g) ->
  length T = length (Globals.z_k g) ->
  exists w',
    for_range (length (Globals.t0 g)) (palaeoclimate_step g a) T w =
      Ok (apply_calls T (map (call_of_epoch a (Globals.z_k g))
                           (palaeoclimate_epochs g (draws w))), w') /\
    calls w' = calls w ++ map (call_of_epoch a (Globals.z_k g))
                            (palaeoclimate_epochs g (draws w)) /\
    (forall i, draws w' i = draws w (3 * length (Globals.t0 g) + i)%nat).
Proof.
  intros WF Ha HT. unfold palaeoclimate_epochs.
  apply (epoch_loop_trace (palaeoclimate_step g a) _ 3); [| exact Ha | exact HT].
  intros j T1 w1 Hj HT1 HD.
  rewrite (palaeoclimate_step_ok g a T1 j w1 WF Hj Ha HT1).
  unfold palaeoclimate_call, call_of_epoch.
  rewrite !HD. rewrite Nat.add_0_r. reflexivity.
Qed.

Lemma instrumental_loop_trace (g : Globals.t) (a T : array) (w : world) :
  well_formed g ->
  length a = length (Globals.z_k g) ->
  length T = length (Globals.z_k g) ->
  exists w',
    for_range (length (Globals.t0b g)) (instrumental_step g a) T w =
      Ok (apply_calls T (map (call_of_epoch a (Globals.z_k g))
                           (instrumental_epochs g (draws w))), w') /\
    calls w' = calls w ++ map (call_of_epoch a (Globals.z_k g))
                            (instrumental_epochs g (draws w)) /\
    (forall i, draws w' i = draws w (1 * length (Globals.t0b g) + i)%nat).
Proof.
  intros WF Ha HT. unfold instrumental_epochs.
  apply (epoch_loop_trace (instrumental_step g a) _ 1); [| exact Ha | exact HT].
  intros j T1 w1 Hj HT1 HD.
  rewrite (instrumental_step_ok g a T1 j w1 WF Hj Ha HT1).
  unfold instrumental_call, call_of_epoch.
  rewrite !HD. rewrite Nat.add_0_r, Nat.mul_1_l. reflexivity.
Qed.

Lemma apply_epochs_length (a z T : array) (es : list (R * R * R)) :
  length a = length z -> length T = length z ->
  length (apply_calls T (map (call_of_epoch a z) es)) = length z.
Proof.
  intros Ha. revert T. induction es as [| [[ts te] Tk] es IH]; intros T HT.
  - exact HT.
  - simpl. apply IH. rewrite zip_with_length; [exact HT |].
    rewrite correction_of_call_length; simpl; congruence.
Qed.

(** C1.  Inside its domain ([kappa], [t_start], [t_end] positive, so that
    no divisor is zero) [climate_correction_period] returns
    [Tk * (erfc (z / (2 sqrt (kappa t_end))) - erfc (z / (2 sqrt (kappa t_start))))],
    its second argument being the start and its third the end of the
    epoch.  Each of the two epoch loops of the cell leaves at every depth
    the temperature it found plus the sum of that expression over the
    epoch set of its table: for the palaeoclimate table epoch [j] runs
    from [t0[j]] to [t1[j]] with delta [Tc[j]], for the instrumental
    blocks from [t0b[j]] to [t1b[j]] with delta [T0_40N2[j]], each as
    perturbed by the draws of the pass and clipped. *)
Theorem climate_correction_is_epoch_sum
    (kappa t_start t_end Tk z : R) (g : Globals.t) (a T : array) (w : world) :
  0 < kappa -> 0 < t_start -> 0 < t_end -> 0 <= z ->
  well_formed g ->
  length a = length (Globals.z_k g) ->
  length T = length (Globals.z_k g) ->
  (2 * sqrt (kappa * t_end) <> 0 /\ 2 * sqrt (kappa * t_start) <> 0 /\
   climate_correction_period kappa t_start t_end Tk z =
     full_correction [(t_start, t_end, Tk)] kappa z /\
   full_correction [(t_start, t_end, Tk)] kappa z =
     Tk * (erfc (z / (2 * sqrt (kappa * t_end)))
           - erfc (z / (2 * sqrt (kappa * t_start))))) /\
  (exists T' w',
     for_range (length (Globals.t0 g)) (palaeoclimate_step g a) T w = Ok (T', w') /\
     length T' = length (Globals.z_k g) /\
     forall i, (i < length (Globals.z_k g))%nat ->
       nth i T' 0 =
       nth i T 0 + full_correction (palaeoclimate_epochs g (draws w))
                     (nth i a 0) (nth i (Globals.z_k g) 0)) /\
  (exists T' w',
     for_range (length (Globals.t0b g)) (instrumental_step g a) T w = Ok (T', w') /\
     length T' = length (Globals.z_k g) /\
     forall i, (i < length (Globals.z_k g))%nat ->
       nth i T' 0 =
       nth i T 0 + full_correction (instrumental_epochs g (draws w))
                     (nth i a 0) (nth i (Globals.z_k g) 0)).
Proof.
  intros Hk Hs He _ WF Ha HT. split; [| split].
  - assert (P1 : 0 < kappa * t_end) by (apply Rmult_lt_0_compat; assumption).
    assert (P0 : 0 < kappa * t_start) by (apply Rmult_lt_0_compat; assumption).
    pose proof (sqrt_lt_R0 _ P1). pose proof (sqrt_lt_R0 _ P0).
    repeat split; try lra;
      unfold full_correction, climate_correction_period, np_sum; simpl; ring.
  - destruct (palaeoclimate_loop_trace g a T w WF Ha HT) as (w' & E & _).
    eexists; exists w'. split; [exact E |].
    split; [now apply apply_epochs_length |].
    intros i Hi. now apply nth_apply_epochs.
  - destruct (instrumental_loop_trace g a T w WF Ha HT) as (w' & E & _).
    eexists; exists w'. split; [exact E |].
    split; [now apply apply_epochs_length |].
    intros i Hi. now apply nth_apply_epochs.
Qed.

Lemma climate_correction_is_epoch_sum_witness :
  (2 * sqrt (1e-6 * 1e-6) <> 0 /\ 2 * sqrt (1e-6 * y2s 100e3) <> 0 /\
   climate_correction_period 1e-6 (y2s 100e3) 1e-6 (-2) 5 =
     full_correction [(y2s 100e3, 1e-6, -2)] 1e-6 5 /\
   full_correction [(y2s 100e3, 1e-6, -2)] 1e-6 5 =
     (-2) * (erfc (5 / (2 * sqrt (1e-6 * 1e-6)))
             - erfc (5 / (2 * sqrt (1e-6 * y2s 100e3))))) /\
  (exists T' w',
     for_range (length (Globals.t0 Sample.borehole))
       (palaeoclimate_step Sample.borehole [1e-6; 1e-6]) [10.25; 10.75] Sample.stream
       = Ok (T', w') /\
     length T' = length (Globals.z_k Sample.borehole) /\
     forall i, (i < length (Globals.z_k Sample.borehole))%nat ->
       nth i T' 0 =
       nth i [10.25; 10.75] 0
       + full_correction (palaeoclimate_epochs Sample.borehole (draws Sample.stream))
           (nth i [1e-6; 1e-6] 0) (nth i (Globals.z_k Sample.borehole) 0)) /\
  (exists T' w',
     for_range (length (Globals.t0b Sample.borehole))
       (instrumental_step Sample.borehole [1e-6; 1e-6]) [10.25; 10.75] Sample.stream
       = Ok (T', w') /\
     length T' = length (Globals.z_k Sample.borehole) /\
     forall i, (i < length (Globals.z_k Sample.borehole))%nat ->
       nth i T' 0 =
       nth i [10.25; 10.75] 0
       + full_correction (instrumental_epochs Sample.borehole (draws Sample.stream))
           (nth i [1e-6; 1e-6] 0) (nth i (Globals.z_k Sample.borehole) 0)).
Proof.
  apply climate_correction_is_epoch_sum; try reflexivity; try lra.
  - unfold y2s. lra.
  - apply sample_borehole_well_formed.
Defined.

(** ** Storing and aggregating *)

Lemma setitem_ok (l : array) (i : nat) (v : R) :
  (i < length l)%nat ->
  exists l', setitem l i v = Ok l' /\
             length l' = length l /\
             firstn (S i) l' = firstn i l ++ [v].
Proof.
  revert i. induction l as [| x l IH]; intros i Hi; simpl in Hi; [lia |].
  destruct i as [| i].
  - exists (v :: l). repeat split.
  - destruct (IH i) as (l' & E & L & F); [lia |].
    exists (x :: l'). simpl setitem. rewrite E. simpl bind_result.
    split; [reflexivity |]. split; [simpl; now rewrite L |].
    change (firstn (S (S i)) (x :: l')) with (x :: firstn (S i) l').
    rewrite F. reflexivity.
Qed.

Lemma setrow_ok (rows : list array) (i n : nat) (v : array) :
  (i < length rows)%nat ->
  Forall (fun r => length r = n) rows ->
  length v = n ->
  exists rows', setrow rows i v = Ok rows' /\
                length rows' = length rows /\
                Forall (fun r => length r = n) rows'.
Proof.
  intros Hi Hall Hv. revert i Hi.
  induction Hall as [| r rows Hr Hall IH]; intros i Hi; simpl in Hi; [lia |].
  destruct i as [| i].
  - exists (v :: rows). simpl. rewrite Hv, Hr, Nat.eqb_refl.
    repeat split. constructor; assumption.
  - destruct (IH i) as (rows' & E & L & F); [lia |].
    exists (r :: rows'). simpl setrow. rewrite E. simpl.
    repeat split; [now rewrite L | constructor; assumption].
Qed.

Lemma np_sum_repeat (v : R) (n : nat) : np_sum (repeat v n) = INR n * v.
Proof.
  induction n as [| n IH].
  - simpl. ring.
  - rewrite S_INR. simpl. unfold np_sum in *. rewrite IH. ring.
Qed.

Lemma np_mean_repeat (v : R) (n : nat) :
  (1 <= n)%nat -> np_mean (repeat v n) = v.
Proof.
  intros Hn. unfold np_mean. rewrite np_sum_repeat, repeat_length.
  field. apply not_0_INR. lia.
Qed.

Lemma np_std_repeat (v : R) (n : nat) :
  (1 <= n)%nat -> np_std (repeat v n) = 0.
Proof.
  intros Hn. unfold np_std. rewrite np_mean_repeat by exact Hn.
  rewrite map_repeat.
  replace (Rabs (v - v) * Rabs (v - v)) with 0.
  - rewrite np_mean_repeat by exact Hn. apply sqrt_0.
  - replace (v - v) with 0 by ring. rewrite Rabs_R0. ring.
Qed.

Lemma repeat_snoc (v : R) (n : nat) : repeat v n ++ [v] = repeat v (S n).
Proof.
  induction n as [| n IH]; simpl; [reflexivity |]. now rewrite IH.
Qed.

Lemma Ok_injective {A : Type} (a b : A) : Ok a = Ok b -> a = b.
Proof. intros H. now injection H. Qed.

Lemma store_ok (i n : nat) (s : sample) (st : storage) :
  (i < Datatypes.length (q_all st))%nat ->
  storage_sized (length (q_all st)) st ->
  length (T_all st) = length (q_all st) ->
  Forall (fun r => length r = n) (T_all st) ->
  length (s_T s) = n ->
  exists st', store i s st = Ok st' /\
              storage_sized (length (q_all st)) st' /\
              length (T_all st') = length (q_all st) /\
              Forall (fun r => length r = n) (T_all st') /\
              firstn (S i) (q_all st') = firstn i (q_all st) ++ [s_q s] /\
              firstn (S i) (qc_all st') = firstn i (qc_all st) ++ [s_qc s].
Proof.
  intros Hi (Lq & Lqc & Lc & Lcc) LT Hrows Hs.
  destruct (setitem_ok (q_all st) i (s_q s) Hi) as (q' & Eq & Lq' & Fq).
  destruct (setitem_ok (c_all st) i (s_c s)) as (c' & Ec & Lc' & _); [lia |].
  destruct (setitem_ok (qc_all st) i (s_qc s)) as (qc' & Eqc & Lqc' & Fqc); [lia |].
  destruct (setitem_ok (cc_all st) i (s_cc s)) as (cc' & Ecc & Lcc' & _); [lia |].
  destruct (setrow_ok (T_all st) i n (s_T s)) as (T' & ET & LT' & FT);
    [lia | assumption | assumption |].
  exists (mk_storage q' qc' c' cc' T'). unfold store.
  rewrite Eq, Ec, Eqc, Ecc, ET. simpl.
  repeat split; simpl; try assumption; congruence.
Qed.

(** C6, as amended.  With every input standard deviation at zero, and for
    any [nsim >= 1], the mean of the uncorrected heat flow over the passes
    is the heat flow of the one regression of [T_k] against the resistance
    of the (clipped) conductivities, times 1000, and its standard
    deviation is zero. *)
Theorem zero_uncertainty_uncorrected_heat_flow
    (g : Globals.t) (st : storage) (w : world) :
  well_formed g ->
  all_zero (Globals.sigma_T_k g) ->
  all_zero (Globals.sigma_k g) ->
  all_zero (Globals.sigma_Tc g) ->
  (1 <= Globals.nsim g)%nat ->
  storage_sized (Globals.nsim g) st ->
  exists R_ q c res st' w',
    thermal_resistance (Globals.z_k g) (Globals.z_k g)
      (perturbed_conductivity (Globals.k g)) = Ok R_ /\
    least_squares R_ (Globals.T_k g) = Ok (q, c) /\
    sensitivity_analysis g st w = Ok ((res, st'), w') /\
    Qs res = q * 1e3 /\
    sigma_Qs res = 0.
Proof.
  intros WF ZT Zk _ Hn (Sq & Sqc & Sc & Scc).
  assert (Lk : length (perturbed_conductivity (Globals.k g))
               = length (Globals.z_k g)).
  { rewrite perturbed_conductivity_length. apply (wf_k g WF). }
  pose proof (thermal_resistance_aligned (Globals.z_k g) (Globals.z_k g) _ Lk) as ER.
  set (R_ := np_cumsum _) in ER.
  pose proof (thermal_resistance_length _ _ _ _ Lk ER) as LR.
  destruct (least_squares_total_ols R_ (Globals.T_k g)) as ([q c] & Eq & _).
  { rewrite (wf_T_k g WF). exact LR. }
  exists R_, q, c.
  unfold sensitivity_analysis. cbv zeta.
  set (st0 := mk_storage _ _ _ _ _).
  pose (n := Globals.nsim g).
  pose (I := fun (i : nat) (s : storage) (_ : world) =>
               storage_sized n s /\ length (T_all s) = n /\
               Forall (fun r => length r = length (Globals.z_k g)) (T_all s) /\
               firstn i (q_all s) = repeat q i).
  destruct (for_range_invariant I
              (fun i st => s <- iteration g ;; lift (store i s st)) n)
    with (s := st0) (w := w)
    as (st' & w' & E & (Sq' & _) & _ & _ & F).
  - intros i s1 w1 Hi ((Sq1 & Sr1) & LT1 & FT1 & F1).
    destruct (iteration_ok g w1 WF) as (s & w2 & Ei & P).
    destruct P as (T0 & kr & R1 & cs & _ & ZT0 & _ & Zkr & ER1 & Eq1 & _ & _ & _
                   & _ & LsT & _).
    rewrite (ZT0 ZT) in Eq1. rewrite (Zkr Zk) in ER1.
    rewrite ER in ER1. apply Ok_injective in ER1. subst R1.
    rewrite Eq in Eq1. apply Ok_injective in Eq1.
    assert (Hq : s_q s = q) by congruence.
    destruct (store_ok i (length (Globals.z_k g)) s s1)
      as (s2 & Es & Sz & LT2 & FT2 & Fq2 & _);
      try assumption; try (rewrite Sq1; first [exact Hi | exact LT1]).
    { rewrite Sq1. split; assumption. }
    exists s2, w2. split.
    + rewrite (bind_ok _ _ _ _ _ Ei). unfold lift. now rewrite Es.
    + rewrite Sq1 in Sz, LT2. repeat split; try assumption; try apply Sz.
      rewrite Fq2, F1, Hq. apply repeat_snoc.
  - unfold I, st0, storage_sized, n. simpl. repeat split; try assumption.
    + apply repeat_length.
    + apply Forall_forall. intros r Hr. apply repeat_spec in Hr. subst r.
      unfold np_zeros. rewrite repeat_length. apply (wf_T_k g WF).
  - exists (summarise st'), st', w'.
    assert (Hall : q_all st' = repeat q n).
    { rewrite <- F. symmetry. apply firstn_all2. lia. }
    split; [exact ER |]. split; [exact Eq |]. split.
    + unfold sensitivity_loop in *. fold n.
      rewrite (bind_ok _ _ _ _ _ E). reflexivity.
    + unfold summarise. simpl. rewrite Hall. split.
      * rewrite np_mean_repeat by exact Hn. reflexivity.
      * rewrite np_std_repeat by exact Hn. ring.
Qed.

Lemma zero_uncertainty_uncorrected_heat_flow_witness :
  exists R_ q c res st' w',
    thermal_resistance (Globals.z_k Sample.exact_borehole)
      (Globals.z_k Sample.exact_borehole)
      (perturbed_conductivity (Globals.k Sample.exact_borehole)) = Ok R_ /\
    least_squares R_ (Globals.T_k Sample.exact_borehole) = Ok (q, c) /\
    sensitivity_analysis Sample.exact_borehole
      (fresh_storage Sample.exact_borehole) Sample.exact_stream
      = Ok ((res, st'), w') /\
    Qs res = q * 1e3 /\
    sigma_Qs res = 0.
Proof.
  apply zero_uncertainty_uncorrected_heat_flow.
  - constructor; try reflexivity; repeat constructor; simpl; lra.
  - repeat constructor.
  - repeat constructor.
  - repeat constructor.
  - simpl. lia.
  - repeat split.
Defined.

(** ** A pass with exact inputs and a single palaeoclimate epoch *)

Lemma least_squares_two_points (x1 x2 y1 y2 : R) :
  x1 <> x2 ->
  least_squares [x1; x2] [y1; y2] =
  Ok ((y2 - y1) / (x2 - x1), y1 - (y2 - y1) / (x2 - x1) * x1).
Proof.
  intros Hx. rewrite least_squares_is_lstsq.
  assert (HD : discriminant [x1; x2] <> 0).
  { unfold discriminant. simpl. intros H. apply Hx.
    assert (H0 : (x1 - x2) * (x1 - x2) = 0) by lra.
    apply Rmult_integral in H0. lra. }
  rewrite lstsq_line_full_rank; [| reflexivity | exact HD].
  unfold discriminant in *. cbv zeta. simpl. simpl in HD. f_equal.
  f_equal; field; (split; [lra | intros H; apply HD; lra]).
Qed.

Lemma iteration_single_epoch (g : Globals.t) (w : world) (R_ : array)
    (p pc : R * R) (cl : ccp_call) :
  well_formed g ->
  all_zero (Globals.sigma_T_k g) ->
  all_zero (Globals.sigma_k g) ->
  length (Globals.t0 g) = 1%nat ->
  length (Globals.t0b g) = 0%nat ->
  thermal_resistance (Globals.z_k g) (Globals.z_k g)
    (perturbed_conductivity (Globals.k g)) = Ok R_ ->
  palaeoclimate_call g (diffusivity (perturbed_conductivity (Globals.k g))) 0
    (advance (length (Globals.k g)) (advance (length (Globals.T_k g)) w)) = cl ->
  least_squares R_ (Globals.T_k g) = Ok p ->
  least_squares R_ (zip_with Rplus (Globals.T_k g) (correction_of_call cl)) = Ok pc ->
  iteration g w =
  Ok (mk_sample (fst p) (snd p) (fst pc) (snd pc)
        (zip_with Rplus (Globals.T_k g) (correction_of_call cl)),
      log_call cl
        (advance 3 (advance (length (Globals.k g))
                      (advance (length (Globals.T_k g)) w)))).
Proof.
  intros WF ZT Zk H1 H0 ER Hcl Ep Epc. unfold iteration.
  destruct (normal_arr_ok (Globals.T_k g) (Globals.sigma_T_k g) w)
    as (T0 & E0 & _ & Z0);
    [rewrite (wf_T_k g WF), (wf_sigma_T_k g WF); reflexivity
    | exact (wf_sT_nonneg g WF) |].
  rewrite (Z0 ZT) in E0. clear Z0 T0.
  rewrite (bind_ok _ _ _ _ _ E0).
  destruct (normal_arr_ok (Globals.k g) (Globals.sigma_k g)
              (advance (length (Globals.T_k g)) w))
    as (kr & E1 & _ & Z1);
    [rewrite (wf_k g WF), (wf_sigma_k g WF); reflexivity
    | exact (wf_sk_nonneg g WF) |].
  rewrite (Z1 Zk) in E1. clear Z1 kr.
  rewrite (bind_ok _ _ _ _ _ E1).
  set (w2 := advance (length (Globals.k g)) _) in *.
  rewrite (bind_lift_ok _ _ _ _ ER).
  rewrite (bind_lift_ok _ _ _ _ Ep).
  destruct p as [q c]. rewrite H1, H0.
  unfold for_range. simpl seq. simpl for_each.
  assert (La : length (diffusivity (perturbed_conductivity (Globals.k g)))
               = length (Globals.z_k g)).
  { rewrite diffusivity_length, perturbed_conductivity_length. apply (wf_k g WF). }
  assert (Es : palaeoclimate_step g (diffusivity (perturbed_conductivity (Globals.k g)))
                 0 (Globals.T_k g) w2
               = Ok (zip_with Rplus (Globals.T_k g) (correction_of_call cl),
                     log_call cl (advance 3 w2))).
  { rewrite <- Hcl. apply palaeoclimate_step_ok; auto; [lia | apply (wf_T_k g WF)]. }
  rewrite (bind_ok _ _ _ _ _ (bind_ok _ _ _ _ _ Es)).
  unfold ret at 1. unfold bind at 1. unfold ret at 1.
  rewrite (bind_lift_ok _ _ _ _ Epc).
  destruct pc as [qc cc]. reflexivity.
Qed.

Lemma sensitivity_two_passes (g : Globals.t) (st : storage)
    (w w1 w2 : world) (s1 s2 : sample) :
  Globals.nsim g = 2%nat ->
  storage_sized 2 st ->
  iteration g w = Ok (s1, w1) ->
  iteration g w1 = Ok (s2, w2) ->
  length (s_T s1) = length (Globals.T_k g) ->
  length (s_T s2) = length (Globals.T_k g) ->
  exists st',
    sensitivity_analysis g st w = Ok ((summarise st', st'), w2) /\
    qc_all st' = [s_qc s1; s_qc s2].
Proof.
  intros Hn (Sq & Sqc & Sc & Scc) E1 E2 L1 L2.
  unfold sensitivity_analysis, sensitivity_loop. cbv zeta. rewrite Hn.
  set (st0 := mk_storage _ _ _ _ _).
  assert (Hrows : Forall (fun r => length r = length (Globals.T_k g)) (T_all st0)).
  { simpl. repeat constructor; unfold np_zeros; apply repeat_length. }
  assert (Hq0 : length (q_all st0) = 2%nat) by exact Sq.
  assert (Hs0 : storage_sized (length (q_all st0)) st0).
  { rewrite Hq0. repeat split; assumption. }
  assert (HT0 : length (T_all st0) = length (q_all st0)) by (rewrite Hq0; reflexivity).
  destruct (store_ok 0 (length (Globals.T_k g)) s1 st0
              ltac:(rewrite Hq0; lia) Hs0 HT0 Hrows L1)
    as (st1 & Es1 & Hs1 & LT1 & FT1 & _ & Fqc1).
  rewrite Hq0 in Hs1, LT1.
  assert (Hq1 : length (q_all st1) = 2%nat) by apply Hs1.
  rewrite <- Hq1 in Hs1, LT1.
  destruct (store_ok 1 (length (Globals.T_k g)) s2 st1
              ltac:(rewrite Hq1; lia) Hs1 LT1 FT1 L2)
    as (st2 & Es2 & Hs2 & LT2 & FT2 & _ & Fqc2).
  rewrite Hq1 in Hs2.
  destruct Hs2 as (Sq2 & Sqc2 & _).
  exists st2. split.
  - unfold for_range. simpl seq. simpl for_each.
    unfold bind, lift, ret.
    rewrite E1, Es1, E2, Es2. reflexivity.
  - rewrite Fqc1 in Fqc2. change (firstn 0 (qc_all st0) ++ [s_qc s1]) with [s_qc s1] in Fqc2.
    change ([s_qc s1] ++ [s_qc s2]) with [s_qc s1; s_qc s2] in Fqc2.
    rewrite <- Fqc2. symmetry. apply firstn_all2. lia.
Qed.

Lemma np_std_two_distinct (a b : R) : a <> b -> np_std [a; b] <> 0.
Proof.
  intros Hab. unfold np_std.
  assert (Hm : np_mean [a; b] = (a + b) / 2).
  { unfold np_mean. simpl. field. }
  rewrite Hm. simpl map.
  assert (Hsq : forall x, Rabs x * Rabs x = x * x).
  { intros x. unfold Rabs. destruct (Rcase_abs x); ring. }
  rewrite !Hsq.
  assert (Hpos : 0 < np_mean [(a - (a + b) / 2) * (a - (a + b) / 2);
                              (b - (a + b) / 2) * (b - (a + b) / 2)]).
  { unfold np_mean. simpl.
    assert (H0 : 0 < (a - b) * (a - b)).
    { destruct (Rtotal_order a b) as [H | [H | H]]; [nra | contradiction | nra]. }
    apply Rdiv_lt_0_compat; [| lra]. nra. }
  pose proof (sqrt_lt_R0 _ Hpos). lra.
Qed.

Lemma erfc_arguments_differ (kappa : R) :
  0 < kappa ->
  erfc (1 / (2 * sqrt (kappa * 1e-6))) <> erfc (1 / (2 * sqrt (kappa * y2s 1e3))).
Proof.
  intros Hk H. apply erfc_injective in H.
  assert (P1 : 0 < kappa * 1e-6) by (apply Rmult_lt_0_compat; lra).
  assert (P2 : 0 < kappa * y2s 1e3).
  { apply Rmult_lt_0_compat; [lra | unfold y2s; lra]. }
  pose proof (sqrt_lt_R0 _ P1) as S1. pose proof (sqrt_lt_R0 _ P2) as S2.
  assert (Hinv : forall x y, 0 < x -> 0 < y -> 1 / (2 * x) = 1 / (2 * y) -> x = y).
  { intros x y Hx Hy Hxy.
    assert (Hxy' : (1 / (2 * x)) * (2 * x * y) = (1 / (2 * y)) * (2 * x * y))
      by now rewrite Hxy.
    field_simplify in Hxy'; lra. }
  pose proof (Hinv _ _ S1 S2 H) as Hs.
  apply sqrt_inj in Hs; try lra.
  unfold y2s in Hs. nra.
Qed.

(** ** The corrected heat flow under exact inputs *)

Lemma exact_borehole_well_formed : well_formed Sample.exact_borehole.
Proof.
  constructor; try reflexivity; repeat constructor; simpl; lra.
Qed.

Lemma exact_borehole_resistance :
  thermal_resistance (Globals.z_k Sample.exact_borehole)
    (Globals.z_k Sample.exact_borehole)
    (perturbed_conductivity (Globals.k Sample.exact_borehole)) = Ok [0; 1 / 2].
Proof.
  unfold thermal_resistance, perturbed_conductivity. simpl.
  rewrite np_clip_id by lra. f_equal. f_equal; [| f_equal]; lra.
Qed.

Lemma exact_first_call (a : array) :
  palaeoclimate_call Sample.exact_borehole a 0
    (advance 2 (advance 2 Sample.exact_stream)) =
  mk_call a (y2s 1e3) 1e-6 (-2) [0; 1].
Proof.
  unfold palaeoclimate_call. simpl.
  f_equal.
  - replace (y2s 1e3 + y2s 1e3 * 0) with (y2s 1e3) by ring.
    apply np_clip_id. unfold y2s. lra.
  - apply np_clip_floor; lra.
  - ring.
Qed.

Lemma exact_second_call (a : array) (c : ccp_call) :
  palaeoclimate_call Sample.exact_borehole a 0
    (advance 2 (advance 2
       (log_call c (advance 3 (advance 2 (advance 2 Sample.exact_stream)))))) =
  mk_call a 1e-6 1e-6 (-2) [0; 1].
Proof.
  unfold palaeoclimate_call. simpl.
  f_equal.
  - apply np_clip_floor; [unfold y2s |]; lra.
  - apply np_clip_floor; lra.
  - ring.
Qed.

(** C6, as stated, fails for the climate-corrected heat flow.  On
    [Sample.exact_borehole] every input standard deviation is zero and
    [nsim = 2]; the two passes still perturb the start time of the epoch
    with standard deviation [y2s 1e3], and with the draws of
    [Sample.exact_stream] they produce two different corrected heat flows:
    the standard deviation reported is not zero. *)
Lemma zero_uncertainty_corrected_heat_flow_varies :
  well_formed Sample.exact_borehole /\
  all_zero (Globals.sigma_T_k Sample.exact_borehole) /\
  all_zero (Globals.sigma_k Sample.exact_borehole) /\
  all_zero (Globals.sigma_Tc Sample.exact_borehole) /\
  (1 <= Globals.nsim Sample.exact_borehole)%nat /\
  exists res st' w',
    sensitivity_analysis Sample.exact_borehole
      (fresh_storage Sample.exact_borehole) Sample.exact_stream
      = Ok ((res, st'), w') /\
    sigma_Qs_c res <> 0.
Proof.
  pose proof exact_borehole_well_formed as WF.
  assert (ZT : all_zero (Globals.sigma_T_k Sample.exact_borehole))
    by repeat constructor.
  assert (Zk : all_zero (Globals.sigma_k Sample.exact_borehole))
    by repeat constructor.
  split; [exact WF |]. split; [exact ZT |]. split; [exact Zk |].
  split; [repeat constructor |]. split; [simpl; lia |].
  assert (Hx : (0 : R) <> 1 / 2) by lra.
  set (a := diffusivity (perturbed_conductivity (Globals.k Sample.exact_borehole))).
  pose proof (iteration_single_epoch Sample.exact_borehole Sample.exact_stream
                [0; 1 / 2] _ _ _ WF ZT Zk eq_refl eq_refl exact_borehole_resistance
                (exact_first_call a)
                (least_squares_two_points 0 (1 / 2) 10 11 Hx)
                (least_squares_two_points 0 (1 / 2) _ _ Hx)) as E1.
  set (c1 := mk_call a (y2s 1e3) 1e-6 (-2) [0; 1]) in E1.
  pose proof (iteration_single_epoch Sample.exact_borehole _
                [0; 1 / 2] _ _ _ WF ZT Zk eq_refl eq_refl exact_borehole_resistance
                (exact_second_call a c1)
                (least_squares_two_points 0 (1 / 2) 10 11 Hx)
                (least_squares_two_points 0 (1 / 2) _ _ Hx)) as E2.
  destruct (sensitivity_two_passes Sample.exact_borehole
              (fresh_storage Sample.exact_borehole) _ _ _ _ _
              eq_refl ltac:(repeat split) E1 E2 eq_refl eq_refl)
    as (st' & Es & Hqc).
  eexists; eexists; eexists. split; [exact Es |].
  unfold summarise. simpl sigma_Qs_c. rewrite Hqc.
  unfold c1. simpl s_qc. simpl fst. cbv beta.
  simpl call_t0. simpl call_t1. simpl call_Tk.
  rewrite !climate_correction_surface. unfold climate_correction_period.
  assert (Hk : 0 < np_clip 2 0.001 1e99 / (cp * rho)).
  { rewrite np_clip_id by lra. unfold cp, rho. lra. }
  pose proof (erfc_arguments_differ _ Hk) as Hd.
  intros H. apply Rmult_integral in H. destruct H as [H | H]; [| lra].
  revert H. apply np_std_two_distinct.
  intros H. apply Hd. lra.
Qed.

(** * Further properties *)

(** ** Trimming the conductivity samples in [load_borehole] *)

Lemma max_from_spec (m : R) (l : array) :
  m <= max_from m l /\ Forall (fun x => x <= max_from m l) l /\
  In (max_from m l) (m :: l).
Proof.
  revert m. induction l as [| x l IH]; intros m; simpl.
  - repeat split; [lra | constructor | now left].
  - destruct (IH (Rmax m x)) as (H1 & H2 & H3).
    pose proof (Rmax_l m x). pose proof (Rmax_r m x).
    repeat split; [lra | constructor; [lra | exact H2] |].
    destruct H3 as [H3 | H3]; [| now right; right].
    rewrite <- H3. unfold Rmax. destruct (Rle_dec m x); [right; now left | now left].
Qed.

Lemma np_max_spec (z : array) :
  z <> [] ->
  exists zmax, np_max z = Ok zmax /\ In zmax z /\ Forall (fun x => x <= zmax) z.
Proof.
  destruct z as [| x l]; [congruence |]. intros _.
  destruct (max_from_spec x l) as (H1 & H2 & H3).
  exists (max_from x l). repeat split; [exact H3 |].
  constructor; assumption.
Qed.

Lemma le_mask_length (a : array) (m : R) : length (le_mask a m) = length a.
Proof. unfold le_mask. apply length_map. Qed.

Lemma getmask_le_mask (a b : array) (m : R) :
  length b = length a ->
  getmask b (le_mask a m) =
  Ok (map snd (filter (fun p => if Rle_dec (fst p) m then true else false)
                 (combine a b))).
Proof.
  intros H. unfold getmask. rewrite le_mask_length, <- H, Nat.eqb_refl.
  f_equal. revert b H. induction a as [| x a IH]; intros [| y b] H;
    try discriminate; [reflexivity |].
  injection H as H. simpl. destruct (Rle_dec x m); simpl; now rewrite IH.
Qed.

Lemma getmask_le_mask_self (a : array) (m : R) :
  getmask a (le_mask a m) =
  Ok (filter (fun x => if Rle_dec x m then true else false) a).
Proof.
  unfold getmask. rewrite le_mask_length, Nat.eqb_refl. f_equal.
  induction a as [| x a IH]; [reflexivity |].
  simpl. destruct (Rle_dec x m); simpl; now rewrite IH.
Qed.


(** ** Reading the file in [load_borehole] *)

Lemma astype_float_ok (to_float : String.string -> option R)
    (col : list String.string) :
  Forall (fun s => exists x, to_float s = Some x) col ->
  astype_float to_float col = Ok (map (value to_float) col).
Proof.
  induction 1 as [| s col (x & Hx) _ IH]; [reflexivity |].
  simpl. unfold value at 1. rewrite Hx, IH. reflexivity.
Qed.

Lemma trim_column_ok (to_float : String.string -> option R)
    (col : list String.string) :
  Forall (field_ok to_float) col ->
  trim_column to_float col =
  Ok (map (value to_float) (filter (fun s => negb (blank s)) col)).
Proof.
  intros H. unfold trim_column. apply astype_float_ok.
  apply Forall_forall. intros s Hs. apply filter_In in Hs. destruct Hs as [Hin Hb].
  rewrite Forall_forall in H. destruct (H s Hin) as [Hbl | Hx]; [| exact Hx].
  rewrite Hbl in Hb. discriminate.
Qed.

Lemma filter_map_swap {A B : Type} (f : A -> B) (p : B -> bool) (l : list A) :
  filter p (map f l) = map f (filter (fun a => p (f a)) l).
Proof.
  induction l as [| a l IH]; [reflexivity |].
  simpl. destruct (p (f a)); simpl; now rewrite IH.
Qed.

(** A column of a file whose rows are in order, in terms of the rows. *)
Lemma trim_column_rows (to_float : String.string -> option R)
    (f : row -> String.string) (rows : list row) :
  Forall (fun r => field_ok to_float (f r)) rows ->
  trim_column to_float (map f rows) =
  Ok (map (fun r => value to_float (f r))
        (filter (fun r => negb (blank (f r))) rows)).
Proof.
  intros H. rewrite trim_column_ok.
  - rewrite filter_map_swap, map_map. reflexivity.
  - apply Forall_map. exact H.
Qed.

Lemma select_le_mask_rows {A : Type} (d f : A -> R) (l : list A) (m : R) :
  select (le_mask (map d l) m) (map f l) =
  map f (filter (fun a => if Rle_dec (d a) m then true else false) l).
Proof.
  induction l as [| a l IH]; [reflexivity |].
  simpl. destruct (Rle_dec (d a) m); simpl; now rewrite IH.
Qed.

Lemma getmask_rows {A : Type} (d f : A -> R) (l : list A) (m : R) :
  getmask (map f l) (le_mask (map d l) m) =
  Ok (map f (filter (fun a => if Rle_dec (d a) m then true else false) l)).
Proof.
  unfold getmask. rewrite le_mask_length, !length_map, Nat.eqb_refl.
  now rewrite select_le_mask_rows.
Qed.

Lemma combine3_map {A : Type} (f g h : A -> R) (l : list A) :
  combine (map f l) (combine (map g l) (map h l)) =
  map (fun a => (f a, (g a, h a))) l.
Proof.
  induction l as [| a l IH]; [reflexivity |]. simpl. now rewrite IH.
Qed.

(** [load_borehole] on a file of two or more well-formed rows whose
    conductivity fields are aligned. *)
Lemma load_borehole_rows (to_float : String.string -> option R)
    (rows : list row) (zmax : R) :
  (2 <= length rows)%nat ->
  Forall (row_ok to_float) rows ->
  Forall row_aligned rows ->
  np_max (depths to_float rows) = Ok zmax ->
  let kept := filter (fun r => if Rle_dec (value to_float (f_z_k r)) zmax
                               then true else false)
                (filter (fun r => negb (blank (f_z_k r))) rows) in
  load_borehole to_float rows =
  Ok (mk_columns
        (depths to_float rows)
        (map (value to_float) (filter (fun s => negb (blank s)) (map f_T rows)))
        (map (value to_float) (filter (fun s => negb (blank s)) (map f_sigma_T rows)))
        (map (fun r => value to_float (f_z_k r)) kept)
        (map (fun r => value to_float (f_k r)) kept)
        (map (fun r => value to_float (f_sigma_k r)) kept)).
Proof.
  intros H2 Hok Hal Em kept.
  assert (Hf : forall f : row -> String.string,
             (forall r, row_ok to_float r -> field_ok to_float (f r)) ->
             Forall (fun r => field_ok to_float (f r)) rows).
  { intros f Hf. eapply Forall_impl; [| exact Hok]. exact Hf. }
  assert (Ek : filter (fun r => negb (blank (f_k r))) rows
               = filter (fun r => negb (blank (f_z_k r))) rows).
  { apply filter_ext_in. intros r Hr. rewrite Forall_forall in Hal.
    destruct (Hal r Hr) as [E _]. now rewrite E. }
  assert (Es : filter (fun r => negb (blank (f_sigma_k r))) rows
               = filter (fun r => negb (blank (f_z_k r))) rows).
  { apply filter_ext_in. intros r Hr. rewrite Forall_forall in Hal.
    destruct (Hal r Hr) as [_ E]. now rewrite E. }
  unfold load_borehole.
  destruct rows as [| r1 [| r2 rows]]; simpl in H2; try lia.
  set (rs := r1 :: r2 :: rows) in *.
  rewrite (trim_column_ok to_float (map f_z rs))
    by (apply Forall_map, Hf; intros r H; apply H).
  rewrite (trim_column_ok to_float (map f_T rs))
    by (apply Forall_map, Hf; intros r H; apply H).
  rewrite (trim_column_ok to_float (map f_sigma_T rs))
    by (apply Forall_map, Hf; intros r H; apply H).
  rewrite (trim_column_rows to_float f_z_k rs) by (apply Hf; intros r H; apply H).
  rewrite (trim_column_rows to_float f_k rs) by (apply Hf; intros r H; apply H).
  rewrite (trim_column_rows to_float f_sigma_k rs) by (apply Hf; intros r H; apply H).
  rewrite Ek, Es. cbn [bind_result].
  unfold load_borehole_trim. fold (depths to_float rs). rewrite Em. cbn [bind_result].
  rewrite !getmask_rows. cbn [bind_result]. reflexivity.
Qed.

Lemma filter_fst_all_true {B : Type} (l : list (R * B)) (m : R) :
  Forall (fun s => fst s <= m) l ->
  filter (fun s => if Rle_dec (fst s) m then true else false) l = l.
Proof.
  intros H. induction H as [| x l Hx _ IH]; [reflexivity |].
  simpl. destruct (Rle_dec (fst x) m); [now rewrite IH | contradiction].
Qed.

(** X1.  On a file of two or more rows whose fields are blank or numbers,
    with the three conductivity fields of every row blank together, and
    with at least one temperature depth, [load_borehole] returns the
    temperature depths of the file and keeps exactly the conductivity
    samples whose depth is at most the deepest of them: in the order of
    the rows, each depth with the conductivity and the uncertainty of its
    own row. *)
Theorem load_borehole_trim_keeps_in_range
    (to_float : String.string -> option R) (rows : list row) :
  (2 <= length rows)%nat ->
  Forall (row_ok to_float) rows ->
  Forall row_aligned rows ->
  depths to_float rows <> [] ->
  exists b zmax,
    load_borehole to_float rows = Ok b /\
    b_z b = depths to_float rows /\
    In zmax (b_z b) /\ Forall (fun x => x <= zmax) (b_z b) /\
    combine (b_z_k b) (combine (b_k b) (b_sigma_k b)) =
      filter (fun s => if Rle_dec (fst s) zmax then true else false)
        (samples to_float rows).
Proof.
  intros H2 Hok Hal Hz.
  destruct (np_max_spec _ Hz) as (zmax & Em & Hin & Hub).
  rewrite (load_borehole_rows to_float rows zmax H2 Hok Hal Em). cbv zeta.
  eexists; exists zmax. split; [reflexivity |]. cbn [b_z b_z_k b_k b_sigma_k].
  split; [reflexivity |]. split; [exact Hin |]. split; [exact Hub |].
  rewrite combine3_map. unfold samples.
  rewrite (filter_map_swap (sample_of to_float)). reflexivity.
Qed.

Lemma sample_file_ok :
  Forall (row_ok Sample.to_float) Sample.file /\ Forall row_aligned Sample.file /\
  Forall (row_ok Sample.to_float) Sample.shallow_file /\
  Forall row_aligned Sample.shallow_file.
Proof.
  unfold Sample.file, Sample.shallow_file.
  repeat split; repeat (apply Forall_cons; [| ]); try apply Forall_nil;
    unfold row_ok, row_aligned, field_ok;
    cbn [f_z f_T f_sigma_T f_z_k f_k f_sigma_k];
    repeat split; try reflexivity; try (left; reflexivity);
    right; eexists; reflexivity.
Qed.

Lemma load_borehole_trim_keeps_in_range_witness :
  exists b zmax,
    load_borehole Sample.to_float Sample.file = Ok b /\
    b_z b = depths Sample.to_float Sample.file /\
    In zmax (b_z b) /\ Forall (fun x => x <= zmax) (b_z b) /\
    combine (b_z_k b) (combine (b_k b) (b_sigma_k b)) =
      filter (fun s => if Rle_dec (fst s) zmax then true else false)
        (samples Sample.to_float Sample.file).
Proof.
  apply load_borehole_trim_keeps_in_range.
  - simpl. lia.
  - apply sample_file_ok.
  - apply sample_file_ok.
  - discriminate.
Defined.

Lemma filter_all_true (a : array) (m : R) :
  Forall (fun x => x <= m) a ->
  filter (fun x => if Rle_dec x m then true else false) a = a.
Proof.
  intros H. induction H as [| x a Hx Ha IH]; [reflexivity |].
  simpl. destruct (Rle_dec x m); [now rewrite IH | contradiction].
Qed.

Lemma filter_combine_all_true (a b : array) (m : R) :
  Forall (fun x => x <= m) a -> length b = length a ->
  map snd (filter (fun p : R * R => if Rle_dec (fst p) m then true else false)
             (combine a b)) = b.
Proof.
  intros H. revert b. induction H as [| x a Hx Ha IH]; intros [| y b] Hl;
    try discriminate; [reflexivity |].
  injection Hl as Hl. simpl. destruct (Rle_dec x m); [| contradiction].
  simpl. now rewrite IH.
Qed.

Lemma load_borehole_trim_noop (z z_k k sigma_k : array) (zmax : R) :
  np_max z = Ok zmax ->
  Forall (fun x => x <= zmax) z_k ->
  length k = length z_k ->
  length sigma_k = length z_k ->
  load_borehole_trim z z_k k sigma_k = Ok (z_k, k, sigma_k).
Proof.
  intros Em Hall Hk Hs. unfold load_borehole_trim. rewrite Em. simpl bind_result.
  rewrite getmask_le_mask_self, (getmask_le_mask z_k k zmax Hk),
    (getmask_le_mask z_k sigma_k zmax Hs).
  simpl bind_result.
  rewrite (filter_all_true z_k zmax Hall),
    (filter_combine_all_true z_k k zmax Hall Hk),
    (filter_combine_all_true z_k sigma_k zmax Hall Hs).
  reflexivity.
Qed.

Lemma sample_depths_in_range :
  Forall (fun x => x <= max_from 0 [10; 20]) [5; 15].
Proof.
  simpl. unfold Rmax.
  destruct (Rle_dec 0 10); [| lra]. destruct (Rle_dec 10 20); [| lra].
  repeat constructor; lra.
Qed.

Lemma sample_file_deepest :
  np_max (depths Sample.to_float Sample.shallow_file) = Ok 20 /\
  Forall (fun s => fst s <= 20) (samples Sample.to_float Sample.shallow_file).
Proof.
  split.
  - change (np_max [0; 10; 20] = Ok 20). simpl. f_equal. unfold Rmax.
    destruct (Rle_dec 0 10); [| lra]. destruct (Rle_dec 10 20); lra.
  - change (Forall (fun s : R * (R * R) => fst s <= 20) [(5, (3, 0.1)); (15, (3.2, 0.2))]).
    repeat constructor; simpl; lra.
Qed.

(** X2.  On such a file, when no conductivity sample lies deeper than the
    deepest temperature reading, [load_borehole] trims nothing: it
    returns every conductivity sample of the file, row by row. *)
Theorem load_borehole_trim_nothing
    (to_float : String.string -> option R) (rows : list row) (zmax : R) :
  (2 <= length rows)%nat ->
  Forall (row_ok to_float) rows ->
  Forall row_aligned rows ->
  np_max (depths to_float rows) = Ok zmax ->
  Forall (fun s => fst s <= zmax) (samples to_float rows) ->
  exists b,
    load_borehole to_float rows = Ok b /\
    b_z b = depths to_float rows /\
    combine (b_z_k b) (combine (b_k b) (b_sigma_k b)) = samples to_float rows.
Proof.
  intros H2 Hok Hal Em Hall.
  rewrite (load_borehole_rows to_float rows zmax H2 Hok Hal Em). cbv zeta.
  eexists. split; [reflexivity |]. cbn [b_z b_z_k b_k b_sigma_k].
  split; [reflexivity |].
  rewrite combine3_map.
  rewrite <- (filter_fst_all_true _ zmax Hall). unfold samples.
  rewrite (filter_map_swap (sample_of to_float)). reflexivity.
Qed.

Lemma load_borehole_trim_nothing_witness :
  exists b,
    load_borehole Sample.to_float Sample.shallow_file = Ok b /\
    b_z b = depths Sample.to_float Sample.shallow_file /\
    combine (b_z_k b) (combine (b_k b) (b_sigma_k b))
    = samples Sample.to_float Sample.shallow_file.
Proof.
  apply (load_borehole_trim_nothing _ _ 20).
  - simpl. lia.
  - apply sample_file_ok.
  - apply sample_file_ok.
  - apply sample_file_deepest.
  - apply sample_file_deepest.
Defined.

(** ** Pairing by position *)

Lemma filter_combine_fst (a b : array) (m : R) :
  length b = length a ->
  map fst (filter (fun p : R * R => if Rle_dec (fst p) m then true else false)
             (combine a b)) =
  filter (fun x => if Rle_dec x m then true else false) a.
Proof.
  revert b. induction a as [| x a IH]; intros [| y b] H; try discriminate;
    [reflexivity |].
  injection H as H. simpl. destruct (Rle_dec x m); simpl; now rewrite IH.
Qed.

Lemma combine_map_fst_snd (l : list (R * R)) :
  combine (map fst l) (map snd l) = l.
Proof.
  induction l as [| [a b] l IH]; simpl; [reflexivity | now rewrite IH].
Qed.

Lemma load_borehole_trim_filter (z z_k k sigma_k : array) (zmax : R) :
  np_max z = Ok zmax ->
  length k = length z_k ->
  length sigma_k = length z_k ->
  exists z_k' k' sigma_k',
    load_borehole_trim z z_k k sigma_k = Ok (z_k', k', sigma_k') /\
    combine z_k' k' =
      filter (fun p => if Rle_dec (fst p) zmax then true else false)
        (combine z_k k) /\
    combine z_k' sigma_k' =
      filter (fun p => if Rle_dec (fst p) zmax then true else false)
        (combine z_k sigma_k).
Proof.
  intros Em Hk Hs.
  unfold load_borehole_trim. rewrite Em. simpl bind_result.
  rewrite getmask_le_mask_self, (getmask_le_mask z_k k zmax Hk),
    (getmask_le_mask z_k sigma_k zmax Hs).
  simpl bind_result.
  eexists; eexists; eexists. split; [reflexivity |]. split.
  - rewrite <- (filter_combine_fst z_k k zmax Hk). apply combine_map_fst_snd.
  - rewrite <- (filter_combine_fst z_k sigma_k zmax Hs). apply combine_map_fst_snd.
Qed.

(** X30.  [load_borehole] strips the blanks of every column on its own,
    so the conductivity samples it returns are paired by position in the
    stripped columns, whatever rows the fields stood in: when the three
    stripped conductivity columns have equal lengths, the function
    returns, and a kept depth goes with the conductivity and the
    uncertainty at its position, even if they come from other rows. *)
Theorem load_borehole_pairs_by_position
    (to_float : String.string -> option R) (rows : list row)
    (z T sigma_T z_k k sigma_k : array) (zmax : R) :
  (2 <= length rows)%nat ->
  trim_column to_float (map f_z rows) = Ok z ->
  trim_column to_float (map f_T rows) = Ok T ->
  trim_column to_float (map f_sigma_T rows) = Ok sigma_T ->
  trim_column to_float (map f_z_k rows) = Ok z_k ->
  trim_column to_float (map f_k rows) = Ok k ->
  trim_column to_float (map f_sigma_k rows) = Ok sigma_k ->
  np_max z = Ok zmax ->
  length k = length z_k ->
  length sigma_k = length z_k ->
  exists z_k' k' sigma_k',
    load_borehole to_float rows = Ok (mk_columns z T sigma_T z_k' k' sigma_k') /\
    combine z_k' k' =
      filter (fun p => if Rle_dec (fst p) zmax then true else false)
        (combine z_k k) /\
    combine z_k' sigma_k' =
      filter (fun p => if Rle_dec (fst p) zmax then true else false)
        (combine z_k sigma_k).
Proof.
  intros H2 Ez ET EsT Ezk Ek Esk Em Hk Hs.
  destruct (load_borehole_trim_filter z z_k k sigma_k zmax Em Hk Hs)
    as (z_k' & k' & sigma_k' & E & C1 & C2).
  exists z_k', k', sigma_k'. split; [| split; assumption].
  unfold load_borehole.
  destruct rows as [| r1 [| r2 rows]]; simpl in H2; try lia.
  rewrite Ez, ET, EsT, Ezk, Ek, Esk. cbn [bind_result]. rewrite E. reflexivity.
Qed.

Lemma load_borehole_pairs_by_position_witness :
  exists z_k' k' sigma_k',
    load_borehole Sample.to_float Sample.shifted_file
    = Ok (mk_columns [0; 10; 20] [10; 10.5; 11] [0.1; 0.1; 0.1] z_k' k' sigma_k') /\
    combine z_k' k' =
      filter (fun p => if Rle_dec (fst p) 20 then true else false)
        (combine [5; 15] [3; 3.2]) /\
    combine z_k' sigma_k' =
      filter (fun p => if Rle_dec (fst p) 20 then true else false)
        (combine [5; 15] [0.1; 0.2]).
Proof.
  apply (load_borehole_pairs_by_position Sample.to_float Sample.shifted_file);
    try reflexivity.
  - simpl. lia.
  - simpl. f_equal. unfold Rmax.
    destruct (Rle_dec 0 10); [| lra]. destruct (Rle_dec 10 20); lra.
Defined.



Lemma filter_sorted_lt (a : array) (m : R) :
  strictly_increasing a ->
  strictly_increasing (filter (fun x => if Rle_dec x m then true else false) a).
Proof.
  intros H. unfold strictly_increasing in *.
  apply Sorted_StronglySorted in H; [| intros x y w; apply Rlt_trans].
  apply StronglySorted_Sorted.
  induction H as [| x a Ha IH Hx]; [constructor |].
  simpl. destruct (Rle_dec x m); [| exact IH].
  constructor; [exact IH |].
  apply Forall_forall. intros y Hy. apply filter_In in Hy.
  rewrite Forall_forall in Hx. apply Hx, Hy.
Qed.

(** X4.  Trimming keeps the conductivity depths strictly increasing. *)
Theorem load_borehole_trim_increasing (z z_k k sigma_k z_k' k' sigma_k' : array) :
  strictly_increasing z_k ->
  load_borehole_trim z z_k k sigma_k = Ok (z_k', k', sigma_k') ->
  strictly_increasing z_k'.
Proof.
  intros Hs. unfold load_borehole_trim.
  destruct (np_max z) as [zmax | e]; [| discriminate]. simpl bind_result.
  rewrite getmask_le_mask_self. simpl bind_result.
  destruct (getmask k _) as [k1 | e]; [| discriminate]. simpl bind_result.
  destruct (getmask sigma_k _) as [s1 | e]; [| discriminate]. simpl bind_result.
  intros E. injection E as <- _ _. now apply filter_sorted_lt.
Qed.

Lemma load_borehole_trim_increasing_witness :
  strictly_increasing [5; 15].
Proof.
  apply (load_borehole_trim_increasing [0; 10; 20] [5; 15] [3; 3.2] [0.1; 0.1]
           [5; 15] [3; 3.2] [0.1; 0.1]).
  - repeat constructor. lra.
  - apply (load_borehole_trim_noop _ _ _ _ (max_from 0 [10; 20]));
      [reflexivity | apply sample_depths_in_range | reflexivity | reflexivity].
Defined.

(** ** Uncertainty of the resistance *)

Lemma min_from_spec (m : R) (l : array) :
  min_from m l <= m /\ Forall (fun x => min_from m l <= x) l /\
  In (min_from m l) (m :: l).
Proof.
  revert m. induction l as [| x l IH]; intros m; simpl.
  - repeat split; [lra | constructor | now left].
  - destruct (IH (Rmin m x)) as (H1 & H2 & H3).
    pose proof (Rmin_l m x). pose proof (Rmin_r m x).
    repeat split; [lra | constructor; [lra | exact H2] |].
    destruct H3 as [H3 | H3]; [| now right; right].
    rewrite <- H3. unfold Rmin. destruct (Rle_dec m x); [now left | right; now left].
Qed.

Lemma np_min_spec (a : array) :
  a <> [] ->
  exists m, np_min a = Ok m /\ In m a /\ Forall (fun x => m <= x) a.
Proof.
  destruct a as [| x l]; [congruence |]. intros _.
  destruct (min_from_spec x l) as (H1 & H2 & H3).
  exists (min_from x l). repeat split; [exact H3 |].
  constructor; assumption.
Qed.

Lemma sigma_z_of_spec (z z_k : array) :
  z <> [] ->
  exists sigma_z,
    sigma_z_of z z_k = Ok sigma_z /\
    length sigma_z = length z_k /\
    all_nonneg sigma_z /\
    ((forall x, In x z_k -> In x z) -> all_zero sigma_z).
Proof.
  intros Hz. induction z_k as [| x rest IH].
  - exists []. repeat split; constructor.
  - destruct IH as (r & Er & Lr & Nr & Zr).
    assert (Hne : map (fun zj => Rabs (x - zj)) z <> []).
    { destruct z; [congruence | discriminate]. }
    destruct (np_min_spec _ Hne) as (m & Em & Hin & Hlb).
    exists (m :: r). simpl sigma_z_of. rewrite Em. simpl bind_result.
    rewrite Er. simpl bind_result.
    assert (Hm : 0 <= m).
    { apply in_map_iff in Hin. destruct Hin as (zj & <- & _). apply Rabs_pos. }
    repeat split; [simpl; now rewrite Lr | constructor; assumption |].
    intros Hall. constructor.
    + assert (H0 : In 0 (map (fun zj => Rabs (x - zj)) z)).
      { apply in_map_iff. exists x. split; [| apply Hall; now left].
        replace (x - x) with 0 by ring. apply Rabs_R0. }
      rewrite Forall_forall in Hlb. pose proof (Hlb 0 H0). lra.
    + apply Zr. intros y Hy. apply Hall. now right.
Qed.

Lemma cumsum_from_sorted_nonneg (acc : R) (l : array) :
  all_nonneg l -> non_decreasing (acc :: cumsum_from acc l).
Proof.
  intros H. revert acc. induction H as [| x l Hx Hl IH]; intros acc; simpl.
  - repeat constructor.
  - constructor; [apply IH |]. constructor. lra.
Qed.

Lemma np_cumsum_sorted_nonneg (l : array) :
  all_nonneg l -> non_decreasing (np_cumsum l) /\ all_nonneg (np_cumsum l).
Proof.
  intros H. destruct H as [| x l Hx Hl]; [split; constructor |].
  unfold np_cumsum.
  pose proof (cumsum_from_sorted_nonneg x l Hl) as Hs. split; [exact Hs |].
  unfold non_decreasing in Hs.
  apply Sorted_StronglySorted in Hs; [| intros a b c; apply Rle_trans].
  inversion Hs as [| ? ? _ Hall]; subst.
  constructor; [exact Hx |].
  eapply Forall_impl; [| exact Hall]. intros a Ha. simpl in Ha. lra.
Qed.

Lemma map_sqrt_sorted (l : array) :
  non_decreasing l -> non_decreasing (map sqrt l).
Proof.
  intros H. induction H as [| x l Hs IH Hr]; [constructor |].
  simpl. constructor; [exact IH |].
  destruct Hr as [| y l' Hxy]; constructor. now apply sqrt_le_1_alt.
Qed.

Lemma map_square_nonneg (l : array) : all_nonneg (map square l).
Proof.
  induction l as [| x l IH]; constructor; [| exact IH].
  unfold square. pose proof (Rle_0_sqr x) as H. unfold Rsqr in H. exact H.
Qed.

Lemma bind_result_ok {A B : Type} (a : A) (f : A -> result B) :
  bind_result (Ok a) f = f a.
Proof. reflexivity. Qed.

(** X5.  For temperature readings present, conductivity depths strictly
    increasing from above zero and positive conductivities, the cell
    computes a resistance uncertainty [sigma_R] with one entry per sample,
    none negative, and never decreasing with depth. *)
Theorem resistance_uncertainty_grows (z z_k k sigma_k : array) :
  z <> [] ->
  strictly_increasing (0 :: z_k) ->
  all_positive k ->
  length k = length z_k ->
  length sigma_k = length z_k ->
  exists sigma_R,
    resistance_uncertainty z z_k k sigma_k = Ok sigma_R /\
    length sigma_R = length z_k /\
    all_nonneg sigma_R /\
    non_decreasing sigma_R.
Proof.
  intros Hz _ _ Hk Hs.
  destruct (sigma_z_of_spec z z_k Hz) as (sz & Esz & Lsz & _).
  unfold resistance_uncertainty. rewrite Esz. rewrite bind_result_ok; cbv beta zeta.
  pose proof (np_diff_length 0 z_k) as Ld.
  rewrite (broadcast2_same_length Rdiv (np_diff (0 :: z_k)) k) by congruence.
  rewrite bind_result_ok; cbv beta zeta.
  rewrite (broadcast2_same_length Rdiv sigma_k k) by congruence.
  rewrite bind_result_ok; cbv beta zeta.
  rewrite (broadcast2_same_length Rdiv sz (np_diff (0 :: z_k))) by congruence.
  rewrite bind_result_ok; cbv beta zeta.
  rewrite broadcast2_same_length
    by (rewrite !length_map, !zip_with_length; congruence).
  rewrite bind_result_ok; cbv beta zeta.
  rewrite broadcast2_same_length
    by (rewrite !length_map, !zip_with_length; rewrite ?length_map, ?zip_with_length;
        congruence).
  rewrite bind_result_ok; cbv beta zeta.
  eexists. split; [reflexivity |].
  set (d := zip_with Rmult _ _).
  destruct (np_cumsum_sorted_nonneg (map square d) (map_square_nonneg d)) as [S N].
  split; [| split].
  - rewrite length_map, np_cumsum_length, length_map. unfold d.
    rewrite zip_with_length; rewrite !length_map, !zip_with_length;
      rewrite ?length_map, ?zip_with_length; congruence.
  - apply Forall_forall. intros x Hx. apply in_map_iff in Hx.
    destruct Hx as (y & <- & _). apply sqrt_pos.
  - now apply map_sqrt_sorted.
Qed.

Lemma resistance_uncertainty_grows_witness :
  exists sigma_R,
    resistance_uncertainty [0; 10; 20] [5; 15] [3; 3.2] [0.1; 0.1] = Ok sigma_R /\
    length sigma_R = length [5; 15] /\
    all_nonneg sigma_R /\
    non_decreasing sigma_R.
Proof.
  apply resistance_uncertainty_grows; try reflexivity; try discriminate.
  - repeat constructor; lra.
  - repeat constructor; lra.
Defined.

(** X6.  A conductivity sample taken at a depth where the temperature was
    read has no placement uncertainty: if every conductivity depth is a
    temperature depth, [sigma_z] is zero throughout. *)
Theorem placement_uncertainty_at_readings (z z_k : array) :
  z <> [] ->
  (forall x, In x z_k -> In x z) ->
  sigma_z_of z z_k = Ok (repeat 0 (length z_k)).
Proof.
  intros Hz Hall.
  destruct (sigma_z_of_spec z z_k Hz) as (sz & E & L & _ & Z).
  rewrite E. f_equal. specialize (Z Hall). rewrite <- L. clear -Z.
  induction Z as [| x l Hx _ IH]; [reflexivity |]. simpl. f_equal; assumption.
Qed.

Lemma placement_uncertainty_at_readings_witness :
  sigma_z_of [0; 10; 20] [10; 20] = Ok (repeat 0 (length [10; 20])).
Proof.
  apply placement_uncertainty_at_readings; [discriminate |].
  intros x [<- | [<- | []]]; simpl; auto.
Defined.

(** ** Thermal resistance: uniform rock and shapes *)

Lemma cumsum_from_uniform (k0 acc a : R) (l : array) :
  cumsum_from acc (map (fun d => d / k0) (np_diff (a :: l))) =
  map (fun x => acc + (x - a) / k0) l.
Proof.
  revert acc a. induction l as [| b l IH]; intros acc a; [reflexivity |].
  change (np_diff (a :: b :: l)) with ((b - a) :: np_diff (b :: l)).
  cbn [map cumsum_from]. rewrite IH. f_equal.
  apply map_ext. intros x. unfold Rdiv. ring.
Qed.

Lemma np_cumsum_uniform (k0 : R) (z_k : array) :
  np_cumsum (map (fun d => d / k0) (np_diff (0 :: z_k))) =
  map (fun x => x / k0) z_k.
Proof.
  destruct z_k as [| b l]; [reflexivity |].
  change (np_diff (0 :: b :: l)) with ((b - 0) :: np_diff (b :: l)).
  cbn [map]. unfold np_cumsum. rewrite cumsum_from_uniform. f_equal.
  - unfold Rdiv. ring.
  - apply map_ext. intros x. unfold Rdiv. ring.
Qed.

Lemma zip_with_repeat_r (f : R -> R -> R) (xs : array) (y : R) :
  zip_with f xs (repeat y (length xs)) = map (fun x => f x y) xs.
Proof.
  induction xs as [| x xs IH]; simpl; [reflexivity | now rewrite IH].
Qed.

Lemma broadcast2_singleton_r (f : R -> R -> R) (xs : array) (y : R) :
  broadcast2 f xs [y] = Ok (map (fun x => f x y) xs).
Proof.
  unfold broadcast2. destruct (Nat.eqb_spec (length xs) (length [y])) as [E | N].
  - destruct xs as [| x [| x' xs]]; try discriminate. reflexivity.
  - destruct xs as [| x [| x' xs]]; reflexivity.
Qed.

(** X7.  In rock of one conductivity [k0], given either as an array of
    equal entries or as a single value that broadcasts, the resistance at
    each depth is the depth divided by [k0]. *)
Theorem thermal_resistance_uniform (z_k z k : array) (k0 : R) :
  k0 <> 0 ->
  k = repeat k0 (length z_k) \/ k = [k0] ->
  thermal_resistance z_k z k = Ok (map (fun d => d / k0) z_k).
Proof.
  intros _ [-> | ->]; unfold thermal_resistance.
  - rewrite broadcast2_same_length
      by (now rewrite np_diff_length, repeat_length).
    rewrite <- (np_diff_length 0 z_k) at 1. rewrite zip_with_repeat_r.
    simpl bind_result. f_equal. apply np_cumsum_uniform.
  - rewrite broadcast2_singleton_r. simpl bind_result. f_equal.
    apply np_cumsum_uniform.
Qed.

Lemma thermal_resistance_uniform_witness :
  thermal_resistance [5; 15; 40] [5; 15; 40] [3.2] =
  Ok (map (fun d => d / 3.2) [5; 15; 40]).
Proof.
  apply thermal_resistance_uniform; [lra | now right].
Defined.

(** X8.  [thermal_resistance] fails only with [ValueError], and exactly
    when the conductivities do not broadcast against the module-level
    depths: the lengths differ and neither is 1. *)
Theorem thermal_resistance_value_error (z_k z k : array) :
  (thermal_resistance z_k z k = Raise ValueError <->
   length z_k <> length k /\ length z_k <> 1%nat /\ length k <> 1%nat) /\
  (forall e, thermal_resistance z_k z k = Raise e -> e = ValueError).
Proof.
  unfold thermal_resistance, broadcast2.
  rewrite np_diff_length.
  destruct (Nat.eqb_spec (length z_k) (length k)) as [E | N].
  - cbn [bind_result]. split; [split |].
    + discriminate.
    + intros [H _]. contradiction.
    + intros e H. discriminate.
  - destruct z_k as [| a [| b zs]].
    + destruct k as [| y [| y' k']]; cbn in N |- *.
      * contradiction.
      * split; [split |]; [discriminate | intros (_ & _ & H); contradiction
                          | intros e H; discriminate].
      * split; [split |]; [intros _; repeat split; lia | reflexivity
                          | intros e H; congruence].
    + cbn. split; [split |]; [discriminate | intros (_ & H & _); contradiction
                             | intros e H; discriminate].
    + change (np_diff (0 :: a :: b :: zs))
        with ((a - 0) :: (b - a) :: np_diff (b :: zs)).
      destruct k as [| y [| y' k']]; cbn [bind_result length] in N |- *.
      * split; [split |]; [intros _; repeat split; lia | reflexivity
                          | intros e H; congruence].
      * split; [split |]; [discriminate | intros (_ & _ & H); contradiction
                          | intros e H; discriminate].
      * split; [split |]; [intros _; repeat split; lia | reflexivity
                          | intros e H; congruence].
Qed.

(** ** Climate correction: sign and times *)

Lemma erfc_argument_order (kappa t0 t1 z : R) :
  0 < kappa -> 0 < t1 -> t1 < t0 -> 0 < z ->
  z / (2 * sqrt (kappa * t0)) < z / (2 * sqrt (kappa * t1)).
Proof.
  intros Hk H1 H10 Hz.
  assert (P1 : 0 < kappa * t1) by (apply Rmult_lt_0_compat; lra).
  assert (P0 : kappa * t1 < kappa * t0) by (apply Rmult_lt_compat_l; lra).
  pose proof (sqrt_lt_R0 _ P1) as S1.
  assert (S10 : sqrt (kappa * t1) < sqrt (kappa * t0)) by (apply sqrt_lt_1; lra).
  unfold Rdiv. apply Rmult_lt_compat_l; [exact Hz |].
  apply Rinv_lt_contravar; [| lra].
  apply Rmult_lt_0_compat; lra.
Qed.

(** X9.  Below the surface, for an epoch that ended after it began
    ([0 < t1 < t0]), the correction has the sign opposite to the epoch's
    temperature delta: a colder past gives a positive correction, a
    warmer past a negative one. *)
Theorem climate_correction_sign (kappa t0 t1 Tk z : R) :
  0 < kappa -> 0 < t1 -> t1 < t0 -> 0 < z ->
  (Tk < 0 -> 0 < climate_correction_period kappa t0 t1 Tk z) /\
  (0 < Tk -> climate_correction_period kappa t0 t1 Tk z < 0).
Proof.
  intros Hk H1 H10 Hz.
  pose proof (erfc_decreasing _ _ (erfc_argument_order kappa t0 t1 z Hk H1 H10 Hz)) as Hd.
  unfold climate_correction_period. split; intros HT; nra.
Qed.

Lemma climate_correction_sign_witness :
  (-2 < 0 -> 0 < climate_correction_period 1e-6 (y2s 100e3) (y2s 10e3) (-2) 500) /\
  (0 < -2 -> climate_correction_period 1e-6 (y2s 100e3) (y2s 10e3) (-2) 500 < 0).
Proof.
  apply climate_correction_sign; unfold y2s; lra.
Defined.

(** X10.  Seconds and years convert back and forth without loss. *)
Theorem y2s_s2y_round_trip (t : R) : s2y (y2s t) = t /\ y2s (s2y t) = t.
Proof.
  unfold s2y, y2s. split; field; try (repeat split; lra).
Qed.

(** ** Least squares: errors, uniqueness, centroid, additivity *)

Lemma lstsq_line_normal_equations (xs ys : array) :
  length xs = length ys ->
  exists m c,
    lstsq_line xs ys = Ok (m, c) /\
    m * np_sum (zip_with Rmult xs xs) + c * np_sum xs
      = np_sum (zip_with Rmult xs ys) /\
    m * np_sum xs + INR (length xs) * c = np_sum ys.
Proof.
  intros Hlen.
  destruct (Req_dec_T (discriminant xs) 0) as [HD | HD].
  - destruct xs as [| r xs].
    + destruct ys; [| discriminate].
      exists 0, 0. split; [| simpl; split; ring].
      unfold lstsq_line. simpl.
      destruct (Req_dec_T _ 0) as [_ | N]; [reflexivity | contradiction].
    + rewrite (lstsq_line_rank_deficient r xs ys Hlen HD).
      eexists; eexists; split; [reflexivity |].
      assert (Hn : 0 < INR (length (r :: xs))).
      { apply (length_pos_of_In (r :: xs) r). now left. }
      assert (Hall : forall x, In x (r :: xs) -> x = r).
      { intros x Hx. apply (discriminant_zero_fewer (r :: xs) HD); [exact Hx | now left]. }
      pose proof (discriminant_zero_entries (r :: xs) HD r (or_introl eq_refl)) as Hr.
      rewrite (np_sum_zip_const r (r :: xs) (r :: xs) Hall eq_refl).
      rewrite (np_sum_zip_const r (r :: xs) ys Hall Hlen).
      rewrite <- Hr. split; field; (split; [lra | nra]).
  - rewrite (lstsq_line_full_rank xs ys Hlen HD). cbv zeta.
    eexists; eexists; split; [reflexivity |].
    pose proof (discriminant_nonzero_length xs HD) as Hn.
    unfold discriminant in *. split; field; auto.
Qed.

(** X11.  [least_squares] raises [LinAlgError] exactly when the two
    arrays differ in length; on equal lengths it always returns a pair. *)
Theorem least_squares_error_iff (R_ T : array) :
  (least_squares R_ T = Raise LinAlgError <-> length R_ <> length T) /\
  (length R_ = length T <-> exists m c, least_squares R_ T = Ok (m, c)).
Proof.
  rewrite least_squares_is_lstsq.
  destruct (Nat.eq_dec (length R_) (length T)) as [E | N].
  - destruct (lstsq_line_normal_equations R_ T E) as (m & c & H & _).
    rewrite H. split; split; try discriminate; try contradiction; eauto.
  - assert (H : lstsq_line R_ T = Raise LinAlgError).
    { unfold lstsq_line.
      destruct (Nat.eqb_spec (length R_) (length T)); [contradiction | reflexivity]. }
    rewrite H. split; split; try contradiction; auto.
    intros (m & c & H'). discriminate.
Qed.

Lemma sse_decompose (xs ys : array) (m c m' c' : R) :
  length xs = length ys ->
  m * np_sum (zip_with Rmult xs xs) + c * np_sum xs = np_sum (zip_with Rmult xs ys) ->
  m * np_sum xs + INR (length xs) * c = np_sum ys ->
  sse xs ys m' c' =
  sse xs ys m c +
  np_sum (map (fun x => ((m' - m) * x - (c - c')) * ((m' - m) * x - (c - c'))) xs).
Proof.
  intros Hlen E1 E2.
  rewrite !sse_expand by exact Hlen.
  rewrite (sum_sq_affine xs (m' - m) (c - c')).
  rewrite <- E1, <- E2. ring.
Qed.

Lemma least_squares_unique_fit (R_ T : array) (m' c' : R) :
  length R_ = length T ->
  two_distinct R_ ->
  is_ols R_ T (m', c') ->
  least_squares R_ T = Ok (m', c').
Proof.
  intros Hlen (x & y & Hx & Hy & Hxy) Hols.
  rewrite least_squares_is_lstsq.
  destruct (lstsq_line_normal_equations R_ T Hlen) as (m & c & E & N1 & N2).
  rewrite E. f_equal.
  pose proof (sse_decompose R_ T m c m' c' Hlen N1 N2) as Hd.
  pose proof (Hols m c) as Hle. simpl in Hle.
  pose proof (np_sum_squares_nonneg (fun x => (m' - m) * x - (c - c')) R_) as Hnn.
  cbv beta in Hnn.
  assert (H0 : np_sum (map (fun x => ((m' - m) * x - (c - c'))
                                     * ((m' - m) * x - (c - c'))) R_) = 0) by lra.
  pose proof (np_sum_squares_zero (fun x => (m' - m) * x - (c - c')) R_ H0) as Hz.
  pose proof (Hz x Hx) as Zx. pose proof (Hz y Hy) as Zy. cbv beta in Zx, Zy.
  assert (Hm : m' = m).
  { assert (Hp : (m' - m) * (x - y) = 0) by lra.
    apply Rmult_integral in Hp. destruct Hp; lra. }
  subst m'. f_equal. lra.
Qed.

(** X12.  When the design matrix keeps its full rank under the cutoff
    of the solver, the least-squares line is unique: every pair minimising
    the sum of squared residuals is the pair [least_squares] returns. *)
Theorem least_squares_unique (rcond : R) (R_ T : array) (m' c' : R) :
  0 <= rcond ->
  length R_ = length T ->
  well_conditioned rcond R_ ->
  is_ols R_ T (m', c') ->
  least_squares_rcond rcond R_ T = Ok (m', c').
Proof.
  intros Hr Hlen H Hols.
  rewrite (least_squares_rcond_well_conditioned rcond R_ T Hr H).
  destruct (well_conditioned_rank rcond R_ Hr H) as (HD & _).
  apply least_squares_unique_fit; [exact Hlen | | exact Hols].
  now apply discriminant_two_distinct.
Qed.

Lemma sse_exact_line_zero (m c : R) (xs : array) :
  sse xs (map (fun r => m * r + c) xs) m c = 0.
Proof.
  unfold sse. induction xs as [| x l IH]; [reflexivity |].
  simpl. unfold np_sum in *. rewrite IH. ring.
Qed.

Lemma sse_nonneg (xs ys : array) (m c : R) : 0 <= sse xs ys m c.
Proof.
  unfold sse. revert ys. induction xs as [| x l IH]; intros [| y l'];
    simpl; try lra.
  specialize (IH l'). unfold np_sum in *.
  pose proof (Rle_0_sqr (m * x + c - y)) as H. unfold Rsqr in H. lra.
Qed.

Lemma least_squares_unique_witness :
  least_squares_rcond rcond_lapack [1; 2; 4]
    (map (fun r => 0.065 * r + 12) [1; 2; 4])
  = Ok (0.065, 12).
Proof.
  apply least_squares_unique.
  - unfold rcond_lapack. lra.
  - reflexivity.
  - apply sample_resistances_well_conditioned.
  - intros m' c'. simpl fst. simpl snd.
    rewrite sse_exact_line_zero. apply sse_nonneg.
Defined.



Lemma np_sum_zip_plus (xs ys : array) :
  length xs = length ys ->
  np_sum (zip_with Rplus xs ys) = np_sum xs + np_sum ys.
Proof.
  revert ys. induction xs as [| x l IH]; intros [| y l'] H; try discriminate.
  - simpl. ring.
  - injection H as H. simpl. unfold np_sum in *. rewrite (IH l' H). ring.
Qed.

Lemma np_sum_zip_mult_plus (xs ys zs : array) :
  length xs = length ys -> length ys = length zs ->
  np_sum (zip_with Rmult xs (zip_with Rplus ys zs)) =
  np_sum (zip_with Rmult xs ys) + np_sum (zip_with Rmult xs zs).
Proof.
  revert ys zs. induction xs as [| x l IH]; intros [| y l'] [| z l''] H1 H2;
    try discriminate.
  - simpl. ring.
  - injection H1 as H1. injection H2 as H2. simpl. unfold np_sum in *.
    rewrite (IH l' l'' H1 H2). ring.
Qed.

Lemma least_squares_add (R_ T U : array) (m1 c1 m2 c2 : R) :
  two_distinct R_ ->
  length T = length U ->
  least_squares R_ T = Ok (m1, c1) ->
  least_squares R_ U = Ok (m2, c2) ->
  least_squares R_ (zip_with Rplus T U) = Ok (m1 + m2, c1 + c2).
Proof.
  intros H2 HTU E1 E2.
  pose proof (two_distinct_discriminant R_ H2) as HD.
  pose proof (discriminant_nonzero_length R_ HD) as Hn.
  assert (HT : length R_ = length T).
  { destruct (Nat.eq_dec (length R_) (length T)) as [H | H]; [exact H |].
    rewrite least_squares_is_lstsq in E1. unfold lstsq_line in E1.
    destruct (Nat.eqb_spec (length R_) (length T)); [contradiction | discriminate]. }
  rewrite least_squares_is_lstsq in *.
  rewrite (lstsq_line_full_rank R_ T HT HD) in E1.
  rewrite (lstsq_line_full_rank R_ U ltac:(congruence) HD) in E2.
  rewrite lstsq_line_full_rank;
    [| rewrite zip_with_length; congruence | exact HD].
  cbv zeta in *. injection E1 as <- <-. injection E2 as <- <-.
  rewrite np_sum_zip_plus by exact HTU.
  rewrite np_sum_zip_mult_plus by congruence.
  unfold discriminant in *. f_equal. f_equal; field; auto.
Qed.

(** X14.  Over resistances with at least two distinct values the fit is
    additive in the temperatures: the line fitted to a sum of two
    temperature arrays has the sum of the two slopes and the sum of the
    two intercepts. *)
Theorem least_squares_additive (R_ T U : array) (m1 c1 m2 c2 : R) :
  two_distinct R_ ->
  length T = length U ->
  least_squares R_ T = Ok (m1, c1) ->
  least_squares R_ U = Ok (m2, c2) ->
  least_squares R_ (zip_with Rplus T U) = Ok (m1 + m2, c1 + c2).
Proof.
  apply least_squares_add.
Qed.

Lemma least_squares_additive_witness :
  least_squares [0; 1 / 2] (zip_with Rplus [10; 11] [0; 1])
  = Ok ((11 - 10) / (1 / 2 - 0) + (1 - 0) / (1 / 2 - 0),
        10 - (11 - 10) / (1 / 2 - 0) * 0 + (0 - (1 - 0) / (1 / 2 - 0) * 0)).
Proof.
  apply least_squares_additive.
  - exists 0, (1 / 2). simpl. repeat split; auto. lra.
  - reflexivity.
  - apply least_squares_two_points. lra.
  - apply least_squares_two_points. lra.
Defined.

(** ** The instrumental record in blocks *)

Lemma fold_result_invariant {S : Type} (I : nat -> S -> Prop)
    (f : nat -> nat) (body : nat -> S -> result S) (n a : nat) :
  (forall q s, (a <= q < a + n)%nat -> I q s ->
               exists s', body (f q) s = Ok s' /\ I (Datatypes.S q) s') ->
  forall s, I a s ->
  exists s', fold_result (map f (seq a n)) body s = Ok s' /\ I (a + n)%nat s'.
Proof.
  revert a. induction n as [| n IH]; intros a Hstep s H0.
  - exists s. rewrite Nat.add_0_r. split; [reflexivity | exact H0].
  - destruct (Hstep a s) as (s1 & E1 & I1); [lia | exact H0 |].
    destruct (IH (Datatypes.S a)) with (s := s1) as (s2 & E2 & I2).
    + intros q s' Hq. apply Hstep. lia.
    + exact I1.
    + exists s2. split.
      * simpl. rewrite E1. exact E2.
      * now rewrite Nat.add_succ_r.
Qed.

Lemma setitem_middle (pre post : array) (x v : R) :
  setitem (pre ++ x :: post) (length pre) v = Ok (pre ++ v :: post).
Proof.
  induction pre as [| p pre IH]; [reflexivity |].
  simpl. now rewrite IH.
Qed.

(** The mean of the [q]-th block of [t_av] entries. *)
Lemma block_fill (a : array) (q n : nat) (pre : array) (v : R) :
  length pre = q -> (q < n)%nat ->
  setitem (pre ++ repeat 0 (n - q)) q v =
  Ok ((pre ++ [v]) ++ repeat 0 (n - Datatypes.S q)).
Proof.
  intros Hp Hq.
  replace (n - q)%nat with (Datatypes.S (n - Datatypes.S q)) by lia.
  simpl repeat. rewrite <- Hp at 2. rewrite setitem_middle.
  now rewrite <- app_assoc.
Qed.

Lemma blocks_needed_le (len : nat) :
  ((len + t_av - 1) / t_av <= len / 10 + 1)%nat.
Proof.
  unfold t_av.
  replace (len + 10 - 1)%nat with (len + 9)%nat by lia.
  transitivity ((len + 1 * 10) / 10)%nat.
  - apply Nat.Div0.div_le_mono. lia.
  - rewrite Nat.div_add by lia. lia.
Qed.

Lemma decadal_loop_spec (year T0_40N : array) :
  let n := (length year / 10 + 1)%nat in
  let m := ((length year + t_av - 1) / t_av)%nat in
  fold_result (range_step (length year) t_av) (decadal_step year T0_40N)
    (np_zeros n, np_zeros n, 0%nat) =
  Ok (map (fun q => np_mean (slice year (q * t_av) t_av)) (seq 0 m)
        ++ repeat 0 (n - m),
      map (fun q => np_mean (slice T0_40N (q * t_av) t_av)) (seq 0 m)
        ++ repeat 0 (n - m),
      m).
Proof.
  intros n m.
  pose proof (blocks_needed_le (length year)) as Hmn. fold m n in Hmn.
  pose (I := fun (q : nat) (st : array * array * nat) =>
               st = (map (fun q => np_mean (slice year (q * t_av) t_av)) (seq 0 q)
                       ++ repeat 0 (n - q),
                     map (fun q => np_mean (slice T0_40N (q * t_av) t_av)) (seq 0 q)
                       ++ repeat 0 (n - q),
                     q)).
  destruct (fold_result_invariant I (fun q => (q * t_av)%nat)
              (decadal_step year T0_40N) m 0)
    with (s := (np_zeros n, np_zeros n, 0%nat)) as (s' & E & Hs').
  - intros q s [_ Hq] ->. simpl in Hq.
    eexists. split; [| reflexivity].
    unfold decadal_step.
    rewrite (block_fill year q n) by (rewrite ?length_map, ?length_seq; lia).
    rewrite bind_result_ok. cbv beta.
    rewrite (block_fill T0_40N q n) by (rewrite ?length_map, ?length_seq; lia).
    rewrite bind_result_ok. cbv beta.
    rewrite !seq_S, !map_app. reflexivity.
  - unfold I. simpl. now rewrite Nat.sub_0_r.
  - unfold range_step. fold m. rewrite E. f_equal. exact Hs'.
Qed.

Lemma removelast_plus_diff (l : array) :
  zip_with Rplus (removelast l) (np_diff l) = tl l.
Proof.
  destruct l as [| a l]; [reflexivity |].
  revert a. induction l as [| b l IH]; intros a; [reflexivity |].
  change (removelast (a :: b :: l)) with (a :: removelast (b :: l)).
  change (np_diff (a :: b :: l)) with ((b - a) :: np_diff (b :: l)).
  cbn [zip_with tl]. rewrite IH. f_equal. ring.
Qed.

Lemma removelast_diff_length (l : array) :
  length (removelast l) = length (np_diff l).
Proof.
  destruct l as [| a l]; [reflexivity |].
  revert a. induction l as [| b l IH]; intros a; [reflexivity |].
  change (removelast (a :: b :: l)) with (a :: removelast (b :: l)).
  change (np_diff (a :: b :: l)) with ((b - a) :: np_diff (b :: l)).
  cbn [length]. now rewrite IH.
Qed.

Lemma decadal_blocks_spec (year T0_40N : array) :
  let n := (length year / 10 + 1)%nat in
  let m := ((length year + t_av - 1) / t_av)%nat in
  let t0b := map (fun q => np_mean (slice year (q * t_av) t_av)) (seq 0 m)
               ++ repeat 0 (n - m) in
  decadal_blocks year T0_40N =
  Ok (t0b, tl t0b ++ [0],
      map (fun q => np_mean (slice T0_40N (q * t_av) t_av)) (seq 0 m)
        ++ repeat 0 (n - m)).
Proof.
  intros n m t0b. unfold decadal_blocks.
  rewrite (decadal_loop_spec year T0_40N). rewrite bind_result_ok. cbv beta iota.
  fold n m t0b.
  rewrite broadcast2_same_length by apply removelast_diff_length.
  rewrite bind_result_ok. cbv beta. now rewrite removelast_plus_diff.
Qed.

(** X15.  The cell that cuts the instrumental record into blocks never
    raises; it returns three arrays of [year.size // 10 + 1] entries each,
    in which every block ends where the next begins ([t1b[j] = t0b[j+1]])
    and the last block ends at the present ([0]). *)
Theorem decadal_blocks_abut (year T0_40N : array) :
  exists t0b t1b T0_40N2,
    decadal_blocks year T0_40N = Ok (t0b, t1b, T0_40N2) /\
    length t0b = (length year / 10 + 1)%nat /\
    length t1b = length t0b /\
    length T0_40N2 = length t0b /\
    t1b = tl t0b ++ [0].
Proof.
  pose proof (decadal_blocks_spec year T0_40N) as E. cbv zeta in E.
  pose proof (blocks_needed_le (length year)) as Hmn.
  eexists; eexists; eexists. split; [exact E |].
  set (m := ((length year + t_av - 1) / t_av)%nat) in *.
  assert (L : forall (f : nat -> R),
             length (map f (seq 0 m) ++ repeat 0 (length year / 10 + 1 - m))
             = (length year / 10 + 1)%nat).
  { intros f. rewrite length_app, length_map, length_seq, repeat_length. lia. }
  repeat split.
  - apply L.
  - rewrite length_app. simpl.
    destruct (map _ (seq 0 m) ++ _) as [| x l] eqn:El.
    + pose proof (L (fun q => np_mean (slice year (q * t_av) t_av))) as HL.
      rewrite El in HL. simpl in HL. lia.
    + simpl. lia.
  - rewrite !L. reflexivity.
Qed.

Lemma blocks_needed_exact (len : nat) :
  (len / 10 + 1 - (len + t_av - 1) / t_av =
   if Nat.eqb (len mod 10) 0 then 1 else 0)%nat.
Proof.
  unfold t_av.
  pose proof (Nat.div_mod_eq len 10) as Hd.
  pose proof (Nat.mod_upper_bound len 10 ltac:(lia)) as Hm.
  set (d := (len / 10)%nat) in *. set (r := (len mod 10)%nat) in *.
  replace (len + 10 - 1)%nat with (r + 9 + d * 10)%nat by lia.
  rewrite Nat.div_add by lia.
  destruct (Nat.eqb_spec r 0) as [E | N].
  - rewrite E. simpl. lia.
  - assert (Hq : ((r + 9) / 10 = 1)%nat).
    { replace (r + 9)%nat with ((r - 1) + 1 * 10)%nat by lia.
      rewrite Nat.div_add by lia. rewrite Nat.div_small by lia. reflexivity. }
    rewrite Hq. lia.
Qed.

(** X16.  The entries written by the loop are the means of the successive
    blocks of ten years; when the number of years is a multiple of ten the
    arrays are one entry longer than the number of blocks, and that last
    entry of [t0b] and of [T0_40N2] is left at [0]. *)
Theorem decadal_blocks_content (year T0_40N : array) :
  length T0_40N = length year ->
  exists t1b,
    decadal_blocks year T0_40N =
    Ok (map (fun q => np_mean (slice year (q * 10) 10))
          (seq 0 ((length year + 9) / 10))
          ++ (if Nat.eqb (length year mod 10) 0 then [0] else []),
        t1b,
        map (fun q => np_mean (slice T0_40N (q * 10) 10))
          (seq 0 ((length year + 9) / 10))
          ++ (if Nat.eqb (length year mod 10) 0 then [0] else [])).
Proof.
  intros _.
  pose proof (decadal_blocks_spec year T0_40N) as E. cbv zeta in E.
  rewrite blocks_needed_exact in E. unfold t_av in E.
  replace (length year + 10 - 1)%nat with (length year + 9)%nat in E by lia.
  destruct (Nat.eqb (length year mod 10) 0); eexists; exact E.
Qed.

Lemma decadal_blocks_content_witness :
  exists t1b,
    decadal_blocks [3; 2; 1] [0.2; 0.1; 0] =
    Ok (map (fun q => np_mean (slice [3; 2; 1] (q * 10) 10))
          (seq 0 ((length [3; 2; 1] + 9) / 10))
          ++ (if Nat.eqb (length [3; 2; 1] mod 10) 0 then [0] else []),
        t1b,
        map (fun q => np_mean (slice [0.2; 0.1; 0] (q * 10) 10))
          (seq 0 ((length [3; 2; 1] + 9) / 10))
          ++ (if Nat.eqb (length [3; 2; 1] mod 10) 0 then [0] else [])).
Proof.
  apply decadal_blocks_content. reflexivity.
Defined.

Lemma np_mean_gt (c : R) (l : array) :
  l <> [] -> (forall x, In x l -> c < x) -> c < np_mean l.
Proof.
  intros Hne Hall. unfold np_mean.
  assert (Hn : 0 < INR (length l)).
  { destruct l; [congruence |]. apply lt_0_INR. simpl. lia. }
  assert (Hs : INR (length l) * c < np_sum l).
  { clear Hn. induction l as [| x l IH]; [congruence |].
    destruct l as [| y l].
    - simpl. pose proof (Hall x (or_introl eq_refl)). lra.
    - change (length (x :: y :: l)) with (S (length (y :: l))). rewrite S_INR.
      pose proof (Hall x (or_introl eq_refl)).
      assert (IH' : INR (length (y :: l)) * c < np_sum (y :: l)).
      { apply IH; [discriminate |]. intros z Hz. apply Hall. now right. }
      change (np_sum (x :: y :: l)) with (x + np_sum (y :: l)). lra. }
  apply Rmult_lt_reg_r with (INR (length l)); [exact Hn |].
  unfold Rdiv. rewrite Rmult_assoc, Rinv_l by lra. lra.
Qed.

Lemma np_mean_le (c : R) (l : array) :
  l <> [] -> (forall x, In x l -> x <= c) -> np_mean l <= c.
Proof.
  intros Hne Hall. unfold np_mean.
  assert (Hn : 0 < INR (length l)).
  { destruct l; [congruence |]. apply lt_0_INR. simpl. lia. }
  assert (Hs : np_sum l <= INR (length l) * c).
  { clear Hn Hne. induction l as [| x l IH]; [simpl; lra |].
    change (length (x :: l)) with (S (length l)). rewrite S_INR.
    pose proof (Hall x (or_introl eq_refl)).
    assert (IH' : np_sum l <= INR (length l) * c).
    { apply IH. intros z Hz. apply Hall. now right. }
    change (np_sum (x :: l)) with (x + np_sum l). lra. }
  apply Rmult_le_reg_r with (INR (length l)); [exact Hn |].
  unfold Rdiv. rewrite Rmult_assoc, Rinv_l by lra. lra.
Qed.

Lemma firstn_plus (a b : nat) (l : array) :
  firstn (a + b) l = firstn a l ++ firstn b (skipn a l).
Proof.
  revert l. induction a as [| a IH]; intros l; [reflexivity |].
  destruct l as [| x l]; [simpl; now rewrite firstn_nil |].
  simpl. now rewrite IH.
Qed.

Lemma strongly_sorted_app_gt (l1 l2 : array) :
  StronglySorted Rgt (l1 ++ l2) ->
  forall a b, In a l1 -> In b l2 -> b < a.
Proof.
  induction l1 as [| x l1 IH]; intros Hs a b Ha Hb; [destruct Ha |].
  simpl in Hs. inversion Hs as [| ? ? Hs' Hx]; subst.
  destruct Ha as [<- | Ha].
  - rewrite Forall_forall in Hx. apply Hx, in_or_app. now right.
  - now apply IH.
Qed.

Lemma skipn_nonempty (l : array) (i : nat) :
  (i < length l)%nat -> skipn i l <> [].
Proof.
  intros Hi H. pose proof (length_skipn i l) as L. rewrite H in L. simpl in L. lia.
Qed.

Lemma slice_nonempty (l : array) (i n : nat) :
  (i < length l)%nat -> (0 < n)%nat -> slice l i n <> [].
Proof.
  intros Hi Hn. unfold slice.
  pose proof (skipn_nonempty l i Hi) as Hs.
  destruct (skipn i l) as [| x r]; [congruence |].
  destruct n; [lia | discriminate].
Qed.

Lemma strongly_sorted_app_r (l1 l2 : array) :
  StronglySorted Rgt (l1 ++ l2) -> StronglySorted Rgt l2.
Proof.
  induction l1 as [| x l1 IH]; intros H; [exact H |].
  simpl in H. inversion H; subst. now apply IH.
Qed.

Lemma in_firstn_in (n : nat) (l : array) (x : R) : In x (firstn n l) -> In x l.
Proof.
  revert l. induction n as [| n IH]; intros [| y l] H; simpl in H; try contradiction.
  destruct H as [-> | H]; [now left | right; now apply IH].
Qed.

Lemma block_means_decrease (year : array) (j : nat) :
  strictly_decreasing year ->
  (S j * 10 < length year)%nat ->
  np_mean (slice year (S j * 10) 10) < np_mean (slice year (j * 10) 10).
Proof.
  intros Hs Hj. unfold strictly_decreasing in Hs.
  apply Sorted_StronglySorted in Hs; [| intros x y z H1 H2; unfold Rgt in *; lra].
  assert (HA : slice year (j * 10) 10 <> []) by (apply slice_nonempty; lia).
  pose proof (skipn_nonempty year (S j * 10) Hj) as Hne.
  assert (Hsplit : year = firstn (j * 10 + 10) year ++ skipn (S j * 10) year).
  { replace (S j * 10)%nat with (j * 10 + 10)%nat by lia.
    symmetry. apply firstn_skipn. }
  rewrite Hsplit in Hs. unfold slice at 1.
  destruct (skipn (S j * 10) year) as [| b0 rest]; [congruence |].
  pose proof (strongly_sorted_app_r _ _ Hs) as Hsuf.
  inversion Hsuf as [| ? ? _ Hrest]; subst. rewrite Forall_forall in Hrest.
  apply Rle_lt_trans with b0.
  - apply np_mean_le; [discriminate |].
    change (firstn 10 (b0 :: rest)) with (b0 :: firstn 9 rest).
    intros x [<- | Hx]; [lra |].
    apply in_firstn_in in Hx. pose proof (Hrest x Hx). unfold Rgt in *. lra.
  - apply np_mean_gt; [exact HA |].
    intros a Ha.
    apply (strongly_sorted_app_gt _ _ Hs); [| now left].
    rewrite firstn_plus. apply in_or_app. right. exact Ha.
Qed.

Lemma nth_tl (l : array) (j : nat) : nth j (tl l) 0 = nth (S j) l 0.
Proof.
  destruct l as [| x l]; [destruct j; reflexivity | reflexivity].
Qed.

Lemma tl_length (l : array) : length (tl l) = pred (length l).
Proof. destruct l; reflexivity. Qed.

Lemma decadal_blocks_order (year T0_40N t0b t1b T0_40N2 : array) (j : nat) :
  strictly_decreasing year ->
  decadal_blocks year T0_40N = Ok (t0b, t1b, T0_40N2) ->
  (S j * 10 < length year)%nat ->
  nth j t1b 0 < nth j t0b 0.
Proof.
  intros Hs E Hj.
  pose proof (decadal_blocks_spec year T0_40N) as E'. cbv zeta in E'.
  rewrite E' in E. apply Ok_injective in E.
  pose proof (f_equal (fun p => fst (fst p)) E) as E0.
  pose proof (f_equal (fun p => snd (fst p)) E) as E1.
  cbn [fst snd] in E0, E1. subst t0b t1b. clear E E'.
  assert (Hm : (S (S j) <= (length year + 10 - 1) / 10)%nat).
  { clear -Hj. apply Nat.div_le_lower_bound; [discriminate |].
    revert Hj. generalize (length year). intros n Hj. lia. }
  change ((length year + 10 - 1) / 10)%nat
    with ((length year + t_av - 1) / t_av)%nat in Hm.
  set (m := ((length year + t_av - 1) / t_av)%nat) in *.
  set (f := fun q => np_mean (slice year (q * t_av) t_av)).
  assert (Hnth : forall i, (i < m)%nat ->
            nth i (map f (seq 0 m) ++ repeat 0 (length year / 10 + 1 - m)) 0 = f i).
  { intros i Hi. rewrite app_nth1 by (rewrite length_map, length_seq; lia).
    rewrite (nth_indep _ 0 (f 0%nat)) by (rewrite length_map, length_seq; lia).
    rewrite map_nth, seq_nth by lia. reflexivity. }
  rewrite app_nth1.
  - rewrite nth_tl, !Hnth by lia. unfold f, t_av.
    now apply block_means_decrease.
  - rewrite tl_length, length_app, length_map, length_seq, repeat_length.
    lia.
Qed.

(** X17.  For a record in chronological order (times before the
    measurement strictly decreasing), every block that is followed by
    another block of data ends later than it starts: its end time [t1b[j]]
    is strictly smaller than its start time [t0b[j]]. *)
Theorem decadal_blocks_ordered (year T0_40N t0b t1b T0_40N2 : array) (j : nat) :
  strictly_decreasing year ->
  decadal_blocks year T0_40N = Ok (t0b, t1b, T0_40N2) ->
  (S j * 10 < length year)%nat ->
  nth j t1b 0 < nth j t0b 0.
Proof.
  apply decadal_blocks_order.
Qed.

Lemma sample_years_decreasing : strictly_decreasing Sample.years.
Proof.
  unfold Sample.years, strictly_decreasing. simpl.
  repeat constructor; unfold y2s, Rgt; lra.
Qed.

Lemma decadal_blocks_ordered_witness :
  nth 0
    (tl (map (fun q => np_mean (slice Sample.years (q * t_av) t_av))
           (seq 0 ((length Sample.years + t_av - 1) / t_av))
         ++ repeat 0 (length Sample.years / 10 + 1
                      - (length Sample.years + t_av - 1) / t_av))
     ++ [0]) 0
  < nth 0
      (map (fun q => np_mean (slice Sample.years (q * t_av) t_av))
         (seq 0 ((length Sample.years + t_av - 1) / t_av))
       ++ repeat 0 (length Sample.years / 10 + 1
                    - (length Sample.years + t_av - 1) / t_av)) 0.
Proof.
  apply (decadal_blocks_ordered Sample.years Sample.anomalies _ _
           (map (fun q => np_mean (slice Sample.anomalies (q * t_av) t_av))
              (seq 0 ((length Sample.years + t_av - 1) / t_av))
            ++ repeat 0 (length Sample.years / 10 + 1
                         - (length Sample.years + t_av - 1) / t_av)) 0).
  - apply sample_years_decreasing.
  - exact (decadal_blocks_spec Sample.years Sample.anomalies).
  - simpl. lia.
Defined.

(** ** The two Monte Carlo functions for a single epoch *)

Lemma broadcast2_singleton_l (f : R -> R -> R) (x : R) (ys : array) :
  broadcast2 f [x] ys = Ok (map (f x) ys).
Proof.
  unfold broadcast2. destruct (Nat.eqb_spec (length [x]) (length ys)) as [E | N].
  - destruct ys as [| y [| y' ys]]; try discriminate. reflexivity.
  - reflexivity.
Qed.

Lemma scalar_call_ok (kappa t0 t1 Tk : R) (z : array) (w : world) :
  call_climate_correction_period [kappa] t0 t1 Tk z w =
  Ok (scalar_call_correction z (mk_call [kappa] t0 t1 Tk z),
      log_call (mk_call [kappa] t0 t1 Tk z) w).
Proof.
  unfold call_climate_correction_period, climate_correction_period_arr.
  now rewrite broadcast2_singleton_l.
Qed.

Lemma setrow_middle (pre post : list array) (x v : array) :
  length v = length x ->
  setrow (pre ++ x :: post) (length pre) v = Ok (pre ++ v :: post).
Proof.
  intros H. induction pre as [| p pre IH].
  - simpl. now rewrite H, Nat.eqb_refl.
  - simpl. now rewrite IH.
Qed.

Lemma setrow_at (pre post : list array) (x v : array) (i : nat) :
  length pre = i -> length v = length x ->
  setrow (pre ++ x :: post) i v = Ok (pre ++ v :: post).
Proof.
  intros <-. apply setrow_middle.
Qed.

Lemma scalar_call_correction_length (z : array) (c : ccp_call) :
  length (scalar_call_correction z c) = length z.
Proof. unfold scalar_call_correction. apply length_map. Qed.

(** A loop that stores in row [i] the correction of the call it makes. *)
Lemma single_epoch_loop (body : nat -> list array -> M (list array))
    (mkc : world -> ccp_call) (P : ccp_call -> Prop) (d nsim : nat)
    (z : array) (w : world) :
  (forall i delT w,
     body i delT w =
     match setrow delT i (scalar_call_correction z (mkc w)) with
     | Ok rows => Ok (rows, log_call (mkc w) (advance d w))
     | Raise e => Raise e
     end) ->
  (forall w, P (mkc w)) ->
  exists delT w' cs,
    for_range nsim body (repeat (np_zeros (length z)) nsim) w = Ok (delT, w') /\
    calls w' = calls w ++ cs /\
    length cs = nsim /\
    Forall P cs /\
    delT = map (scalar_call_correction z) cs.
Proof.
  intros Hbody HP.
  pose (I := fun (i : nat) (delT : list array) (w' : world) =>
               exists cs, calls w' = calls w ++ cs /\ length cs = i /\
                          Forall P cs /\
                          delT = map (scalar_call_correction z) cs
                                   ++ repeat (np_zeros (length z)) (nsim - i)).
  destruct (for_range_invariant I body nsim)
    with (s := repeat (np_zeros (length z)) nsim) (w := w)
    as (delT & w' & E & cs & C & N & F & D).
  - intros i delT w1 Hi (cs & C & N & F & ->).
    rewrite Hbody.
    replace (nsim - i)%nat with (S (nsim - S i)) by lia.
    cbn [repeat].
    assert (Hl : length (map (scalar_call_correction z) cs) = i)
      by now rewrite length_map.
    rewrite (setrow_at _ _ _ _ i Hl)
      by (rewrite scalar_call_correction_length; unfold np_zeros;
          now rewrite repeat_length).
    eexists; eexists. split; [reflexivity |].
    exists (cs ++ [mkc w1]). repeat split.
    + unfold log_call. simpl. rewrite calls_advance, C. now rewrite app_assoc.
    + rewrite length_app. simpl. lia.
    + apply Forall_app. split; [exact F |]. constructor; [apply HP | constructor].
    + rewrite map_app, <- app_assoc. reflexivity.
  - exists []. repeat split.
    + now rewrite app_nil_r.
    + constructor.
    + simpl. now rewrite Nat.sub_0_r.
  - exists delT, w', cs. repeat split; try assumption.
    rewrite D, Nat.sub_diag. simpl. now rewrite app_nil_r.
Qed.


Lemma scalar_call_in_domain (xk t0 t1 Tk : R) (z : array) :
  1e-6 <= t0 <= 1e99 -> 1e-6 <= t1 <= 1e99 ->
  call_in_domain (mk_call [np_clip xk 0.001 1e99 / (cp * rho)] t0 t1 Tk z).
Proof.
  intros H0 H1. unfold call_in_domain. simpl.
  split; [exact H0 |]. split; [exact H1 |].
  pose proof (clipped_diffusivities [xk]) as Hc.
  unfold diffusivity, perturbed_conductivity in Hc. simpl in Hc.
  eapply Forall_impl; [| exact Hc].
  intros ka [Hcl Hpos]. cbv beta.
  assert (P0 : 0 < ka * t0) by (apply Rmult_lt_0_compat; lra).
  assert (P1 : 0 < ka * t1) by (apply Rmult_lt_0_compat; lra).
  pose proof (sqrt_lt_R0 _ P0). pose proof (sqrt_lt_R0 _ P1).
  repeat split; try assumption; lra.
Qed.

Lemma MC_simulation_iter_step_ok (t0 t1 : R) (Tk : R * R) (z : array)
    (k_mean : R) (i : nat) (delT : list array) (w : world) :
  0 <= snd Tk -> 0 <= k_mean ->
  MC_simulation_iter_step t0 t1 Tk z k_mean cp rho i delT w =
  match setrow delT i
          (scalar_call_correction z (MC_simulation_iter_call t0 t1 Tk z k_mean w)) with
  | Ok rows => Ok (rows, log_call (MC_simulation_iter_call t0 t1 Tk z k_mean w)
                           (advance 4 w))
  | Raise e => Raise e
  end.
Proof.
  intros HT Hk. unfold MC_simulation_iter_step.
  rewrite (bind_ok _ _ _ _ _ (normal_ok _ _ w y2s_1e3_nonneg)).
  rewrite (bind_ok _ _ _ _ _ (normal_ok _ _ (tail_world w) y2s_1e3_nonneg)).
  rewrite (bind_ok _ _ _ _ _ (normal_ok _ _ (tail_world (tail_world w)) HT)).
  rewrite (bind_ok _ _ _ _ _
             (normal_ok k_mean (0.2 * k_mean)
                (tail_world (tail_world (tail_world w))) ltac:(lra))).
  rewrite (bind_ok _ _ _ _ _ (scalar_call_ok _ _ _ _ z _)).
  unfold lift, MC_simulation_iter_call. reflexivity.
Qed.

Lemma MC_simulation_step_ok (t0 t1 : R) (Tk : R * R) (z : array)
    (k_mean : R) (i : nat) (delT : list array) (w : world) :
  0 <= snd Tk -> 0 <= k_mean ->
  MC_simulation_step t0 t1 Tk z k_mean cp rho i delT w =
  match setrow delT i
          (scalar_call_correction z (MC_simulation_call t0 t1 Tk z k_mean w)) with
  | Ok rows => Ok (rows, log_call (MC_simulation_call t0 t1 Tk z k_mean w)
                           (advance 2 w))
  | Raise e => Raise e
  end.
Proof.
  intros HT Hk. unfold MC_simulation_step. cbv zeta.
  rewrite (bind_ok _ _ _ _ _ (normal_ok _ _ w HT)).
  rewrite (bind_ok _ _ _ _ _
             (normal_ok k_mean (0.25 * k_mean) (tail_world w) ltac:(lra))).
  rewrite (bind_ok _ _ _ _ _ (scalar_call_ok _ _ _ _ z _)).
  unfold lift, MC_simulation_call. reflexivity.
Qed.

(** X18.  With a non-negative mean conductivity and a non-negative
    standard deviation of the temperature delta, [MC_simulation_iter]
    (at its default [cp] and [rho]) never raises: it makes one call of
    [climate_correction_period] per simulation, each inside the domain of
    the formula, and row [i] of the result is the correction of the
    [i]-th call at the depths [z]. *)
Theorem MC_simulation_iter_rows
    (nsim : nat) (t0 t1 : R) (Tk : R * R) (z k : array) (w : world) :
  k <> [] -> 0 <= np_mean k -> 0 <= snd Tk ->
  exists delT w' cs,
    MC_simulation_iter nsim t0 t1 Tk z k cp rho w = Ok (delT, w') /\
    calls w' = calls w ++ cs /\
    length cs = nsim /\
    Forall call_in_domain cs /\
    delT = map (scalar_call_correction z) cs.
Proof.
  intros _ Hk HT. unfold MC_simulation_iter. cbv zeta.
  apply (single_epoch_loop _ (MC_simulation_iter_call t0 t1 Tk z (np_mean k))
           call_in_domain 4).
  - intros i delT w1. now apply MC_simulation_iter_step_ok.
  - intros w1. unfold MC_simulation_iter_call.
    apply scalar_call_in_domain; apply np_clip_bounds; lra.
Qed.

Lemma MC_simulation_iter_rows_witness :
  exists delT w' cs,
    MC_simulation_iter 3 (y2s 100e3) 0 (-2, 0.5) [0; 500; 1000] [3; 3.2] cp rho
      Sample.stream = Ok (delT, w') /\
    calls w' = calls Sample.stream ++ cs /\
    length cs = 3%nat /\
    Forall call_in_domain cs /\
    delT = map (scalar_call_correction [0; 500; 1000]) cs.
Proof.
  apply MC_simulation_iter_rows.
  - discriminate.
  - unfold np_mean. simpl. lra.
  - simpl. lra.
Defined.

Lemma mean_axis0_length (rows : list array) (n : nat) :
  length (mean_axis0 rows n) = n.
Proof. unfold mean_axis0. now rewrite length_map, length_seq. Qed.

Lemma std_axis0_length (rows : list array) (n : nat) :
  length (std_axis0 rows n) = n.
Proof. unfold std_axis0. now rewrite length_map, length_seq. Qed.

Lemma np_mean_zeros (n : nat) : np_mean (repeat 0 n) = 0.
Proof.
  unfold np_mean. rewrite np_sum_repeat. unfold Rdiv. ring.
Qed.

Lemma surface_column (z : array) (cs : list ccp_call) (j : nat) :
  (j < length z)%nat -> nth j z 0 = 0 ->
  column (map (scalar_call_correction z) cs) j = repeat 0 (length cs).
Proof.
  intros Hj Hz. unfold column. rewrite map_map.
  induction cs as [| c cs IH]; [reflexivity |].
  simpl. rewrite IH. f_equal.
  unfold scalar_call_correction.
  rewrite (nth_indep _ 0 (climate_correction_period (hd 0 (call_kappa c))
                            (call_t0 c) (call_t1 c) (call_Tk c) 0))
    by (now rewrite length_map).
  rewrite map_nth, Hz. apply climate_correction_surface.
Qed.

(** X19.  Under the same conditions and for at least one simulation (the
    mean over no simulation at all is not a number) [MC_simulation] never
    raises and returns a mean and a standard deviation per depth; it
    passes the epoch times clipped but unperturbed to every call; and at
    a depth of zero both the mean and the standard deviation it returns
    are zero. *)
Theorem MC_simulation_summary
    (nsim : nat) (t0 t1 : R) (Tk : R * R) (z k : array) (w : world) :
  (1 <= nsim)%nat ->
  k <> [] -> 0 <= np_mean k -> 0 <= snd Tk ->
  exists mean std w' cs,
    MC_simulation nsim t0 t1 Tk z k cp rho w = Ok ((mean, std), w') /\
    length mean = length z /\ length std = length z /\
    calls w' = calls w ++ cs /\ length cs = nsim /\
    Forall (fun c => call_in_domain c /\
                     call_t0 c = np_clip t0 1e-6 1e99 /\
                     call_t1 c = np_clip t1 1e-6 1e99) cs /\
    forall j, (j < length z)%nat -> nth j z 0 = 0 ->
              nth j mean 0 = 0 /\ nth j std 0 = 0.
Proof.
  intros _ _ Hk HT. unfold MC_simulation. cbv zeta.
  destruct (single_epoch_loop
              (MC_simulation_step t0 t1 Tk z (np_mean k) cp rho)
              (MC_simulation_call t0 t1 Tk z (np_mean k))
              (fun c => call_in_domain c /\
                        call_t0 c = np_clip t0 1e-6 1e99 /\
                        call_t1 c = np_clip t1 1e-6 1e99) 2 nsim z w)
    as (delT & w' & cs & E & C & N & F & D).
  - intros i delT w1. now apply MC_simulation_step_ok.
  - intros w1. unfold MC_simulation_call. simpl.
    split; [| split; reflexivity].
    apply scalar_call_in_domain; apply np_clip_bounds; lra.
  - rewrite (bind_ok _ _ _ _ _ E). unfold ret.
    eexists; eexists; eexists; exists cs. split; [reflexivity |].
    split; [apply mean_axis0_length |]. split; [apply std_axis0_length |].
    split; [exact C |]. split; [exact N |]. split; [exact F |].
    intros j Hj Hz. subst delT.
    unfold mean_axis0, std_axis0.
    rewrite (nth_indep _ 0 (np_mean (column (map (scalar_call_correction z) cs) 0)))
      by (now rewrite length_map, length_seq).
    rewrite (nth_indep (map (fun j => np_std _) _) 0
               (np_std (column (map (scalar_call_correction z) cs) 0)))
      by (now rewrite length_map, length_seq).
    rewrite (map_nth (fun j => np_mean (column (map (scalar_call_correction z) cs) j))),
      (map_nth (fun j => np_std (column (map (scalar_call_correction z) cs) j))).
    rewrite seq_nth by exact Hj. simpl.
    rewrite (surface_column z cs j Hj Hz).
    split; [apply np_mean_zeros |].
    unfold np_std. rewrite np_mean_zeros, map_repeat.
    replace (Rabs (0 - 0) * Rabs (0 - 0)) with 0
      by (replace (0 - 0) with 0 by ring; rewrite Rabs_R0; ring).
    rewrite np_mean_zeros. apply sqrt_0.
Qed.

Lemma MC_simulation_summary_witness :
  exists mean std w' cs,
    MC_simulation 3 (y2s 100e3) 0 (-2, 0.5) [0; 500; 1000] [3; 3.2] cp rho
      Sample.stream = Ok ((mean, std), w') /\
    length mean = length [0; 500; 1000] /\ length std = length [0; 500; 1000] /\
    calls w' = calls Sample.stream ++ cs /\ length cs = 3%nat /\
    Forall (fun c => call_in_domain c /\
                     call_t0 c = np_clip (y2s 100e3) 1e-6 1e99 /\
                     call_t1 c = np_clip 0 1e-6 1e99) cs /\
    forall j, (j < length [0; 500; 1000])%nat -> nth j [0; 500; 1000] 0 = 0 ->
              nth j mean 0 = 0 /\ nth j std 0 = 0.
Proof.
  apply MC_simulation_summary.
  - lia.
  - discriminate.
  - unfold np_mean. simpl. lra.
  - simpl. lra.
Defined.

Lemma normal_negative_scale (loc scale : R) (w : world) :
  scale < 0 -> normal loc scale w = Raise ValueError.
Proof.
  intros H. unfold normal. destruct (Rlt_dec scale 0); [reflexivity | contradiction].
Qed.

Lemma for_range_first_raises {S : Type} (body : nat -> S -> M S)
    (n : nat) (s : S) (w : world) (e : exn) :
  (1 <= n)%nat -> body 0%nat s w = Raise e -> for_range n body s w = Raise e.
Proof.
  intros Hn H. destruct n as [| n]; [lia |].
  unfold for_range. simpl. unfold bind. now rewrite H.
Qed.

(** X20.  Both Monte Carlo functions raise [ValueError] in their first
    simulation when the standard deviation of the temperature delta is
    negative, or when the mean conductivity is negative (the standard
    deviation of the conductivity draw is a positive multiple of it). *)
Theorem MC_simulation_negative_scale
    (nsim : nat) (t0 t1 : R) (Tk : R * R) (z k : array) (cp_ rho_ : R) (w : world) :
  (1 <= nsim)%nat ->
  k <> [] ->
  snd Tk < 0 \/ np_mean k < 0 ->
  MC_simulation_iter nsim t0 t1 Tk z k cp_ rho_ w = Raise ValueError /\
  MC_simulation nsim t0 t1 Tk z k cp_ rho_ w = Raise ValueError.
Proof.
  intros Hn _ Hneg. split.
  - unfold MC_simulation_iter. cbv zeta.
    apply for_range_first_raises; [exact Hn |].
    unfold MC_simulation_iter_step.
    rewrite (bind_ok _ _ _ _ _ (normal_ok _ _ w y2s_1e3_nonneg)).
    rewrite (bind_ok _ _ _ _ _ (normal_ok _ _ (tail_world w) y2s_1e3_nonneg)).
    destruct (Rlt_dec (snd Tk) 0) as [HT | HT].
    + unfold bind at 1. now rewrite normal_negative_scale.
    + rewrite (bind_ok _ _ _ _ _
                 (normal_ok _ _ (tail_world (tail_world w)) (Rnot_lt_le _ _ HT))).
      unfold bind at 1. rewrite normal_negative_scale; [reflexivity |].
      destruct Hneg; lra.
  - unfold MC_simulation. cbv zeta. unfold bind at 1.
    rewrite (for_range_first_raises _ _ _ _ ValueError Hn); [reflexivity |].
    unfold MC_simulation_step. cbv zeta.
    destruct (Rlt_dec (snd Tk) 0) as [HT | HT].
    + unfold bind at 1. now rewrite normal_negative_scale.
    + rewrite (bind_ok _ _ _ _ _ (normal_ok _ _ w (Rnot_lt_le _ _ HT))).
      unfold bind at 1. rewrite normal_negative_scale; [reflexivity |].
      destruct Hneg; lra.
Qed.

Lemma MC_simulation_negative_scale_witness :
  MC_simulation_iter 3 (y2s 100e3) 0 (-2, -0.5) [0; 500] [3; 3.2] cp rho
    Sample.stream = Raise ValueError /\
  MC_simulation 3 (y2s 100e3) 0 (-2, -0.5) [0; 500] [3; 3.2] cp rho
    Sample.stream = Raise ValueError.
Proof.
  apply MC_simulation_negative_scale.
  - lia.
  - discriminate.
  - left. simpl. lra.
Defined.

(** ** The sensitivity analysis as a whole *)

Lemma sensitivity_loop_ok (g : Globals.t) (st : storage) (w : world) :
  well_formed g ->
  storage_sized (Globals.nsim g) st ->
  length (T_all st) = Globals.nsim g ->
  Forall (fun r => length r = length (Globals.z_k g)) (T_all st) ->
  exists st' w' cs,
    sensitivity_loop g st w = Ok (st', w') /\
    storage_sized (Globals.nsim g) st' /\
    length (T_all st') = Globals.nsim g /\
    Forall (fun r => length r = length (Globals.z_k g)) (T_all st') /\
    calls w' = calls w ++ cs /\
    length cs = (Globals.nsim g
                 * (length (Globals.t0 g) + length (Globals.t0b g)))%nat /\
    Forall call_in_domain cs.
Proof.
  intros WF Hs HT Hrows.
  pose (n := Globals.nsim g).
  pose (I := fun (i : nat) (s : storage) (w' : world) =>
               storage_sized n s /\ length (T_all s) = n /\
               Forall (fun r => length r = length (Globals.z_k g)) (T_all s) /\
               exists cs, calls w' = calls w ++ cs /\
                          length cs = (i * (length (Globals.t0 g)
                                            + length (Globals.t0b g)))%nat /\
                          Forall call_in_domain cs).
  destruct (for_range_invariant I
              (fun i st => s <- iteration g ;; lift (store i s st)) n)
    with (s := st) (w := w)
    as (st' & w' & E & S' & LT' & FT' & cs & C & N & D).
  - intros i s1 w1 Hi ((Sq1 & Sr1) & LT1 & FT1 & cs & C & N & D).
    destruct (iteration_ok g w1 WF) as (s & w2 & Ei & P).
    destruct P as (T0 & kr & R1 & cs1 & _ & _ & _ & _ & _ & _ & C1 & N1 & B1
                   & _ & LsT & _).
    destruct (store_ok i (length (Globals.z_k g)) s s1)
      as (s2 & Es & Sz & LT2 & FT2 & _ & _);
      try assumption; try (rewrite Sq1; first [exact Hi | exact LT1]).
    { rewrite Sq1. split; assumption. }
    exists s2, w2. split.
    + rewrite (bind_ok _ _ _ _ _ Ei). unfold lift. now rewrite Es.
    + rewrite Sq1 in Sz, LT2. repeat split; try assumption; try apply Sz.
      exists (cs ++ cs1). repeat split.
      * rewrite C1, C. now rewrite app_assoc.
      * rewrite length_app, N, N1. simpl. lia.
      * apply Forall_app. split; [exact D |].
        now apply epoch_calls_in_domain with (z := Globals.z_k g) (kr := kr).
  - unfold I. repeat split; try assumption; try apply Hs.
    exists []. repeat split; [now rewrite app_nil_r | constructor].
  - exists st', w', cs. repeat split; try assumption; apply S'.
Qed.

(** X21.  On well-formed data and storage arrays of [nsim] entries the
    sensitivity analysis of a borehole never raises, whatever the draws
    and whatever [nsim]: it returns storage arrays of [nsim] entries and
    [nsim] rows of corrected temperatures, after [nsim] calls of
    [climate_correction_period] per epoch, all inside the domain of the
    formula. *)
Theorem sensitivity_analysis_returns (g : Globals.t) (st : storage) (w : world) :
  well_formed g ->
  storage_sized (Globals.nsim g) st ->
  exists res st' w' cs,
    sensitivity_analysis g st w = Ok ((res, st'), w') /\
    storage_sized (Globals.nsim g) st' /\
    length (T_all st') = Globals.nsim g /\
    Forall (fun r => length r = length (Globals.z_k g)) (T_all st') /\
    calls w' = calls w ++ cs /\
    length cs = (Globals.nsim g
                 * (length (Globals.t0 g) + length (Globals.t0b g)))%nat /\
    Forall call_in_domain cs.
Proof.
  intros WF Hs. unfold sensitivity_analysis. cbv zeta.
  set (st0 := mk_storage _ _ _ _ _).
  destruct (sensitivity_loop_ok g st0 w WF) as (st' & w' & cs & E & R).
  - exact Hs.
  - unfold st0. simpl. apply repeat_length.
  - unfold st0. simpl. apply Forall_forall. intros r Hr.
    apply repeat_spec in Hr. subst r. unfold np_zeros.
    rewrite repeat_length. apply (wf_T_k g WF).
  - exists (summarise st'), st', w', cs.
    split; [| exact R]. rewrite (bind_ok _ _ _ _ _ E). reflexivity.
Qed.

Lemma sensitivity_analysis_returns_witness :
  exists res st' w' cs,
    sensitivity_analysis Sample.borehole (fresh_storage Sample.borehole)
      Sample.stream = Ok ((res, st'), w') /\
    storage_sized (Globals.nsim Sample.borehole) st' /\
    length (T_all st') = Globals.nsim Sample.borehole /\
    Forall (fun r => length r = length (Globals.z_k Sample.borehole)) (T_all st') /\
    calls w' = calls Sample.stream ++ cs /\
    length cs = (Globals.nsim Sample.borehole
                 * (length (Globals.t0 Sample.borehole)
                    + length (Globals.t0b Sample.borehole)))%nat /\
    Forall call_in_domain cs.
Proof.
  apply sensitivity_analysis_returns.
  - apply sample_borehole_well_formed.
  - repeat split.
Defined.

Lemma bind_raise {A B : Type} (c : M A) (f : A -> M B) (w : world) (e : exn) :
  c w = Raise e -> bind c f w = Raise e.
Proof.
  intros H. unfold bind. now rewrite H.
Qed.

(** Two storages that agree on what the loop has written so far. *)
Lemma setitem_related (l1 l2 : array) (i : nat) (v : R) :
  length l1 = length l2 -> (i < length l1)%nat ->
  firstn i l1 = firstn i l2 ->
  exists l1' l2',
    setitem l1 i v = Ok l1' /\ setitem l2 i v = Ok l2' /\
    length l1' = length l1 /\ length l2' = length l2 /\
    firstn (S i) l1' = firstn (S i) l2'.
Proof.
  intros HL Hi HF.
  destruct (setitem_ok l1 i v Hi) as (l1' & E1 & L1 & F1).
  destruct (setitem_ok l2 i v) as (l2' & E2 & L2 & F2); [lia |].
  exists l1', l2'. repeat split; try assumption. now rewrite F1, F2, HF.
Qed.

Lemma firstn_all_eq (l1 l2 : array) (n : nat) :
  length l1 = n -> length l2 = n -> firstn n l1 = firstn n l2 -> l1 = l2.
Proof.
  intros H1 H2 HF.
  rewrite <- (firstn_all l1), <- (firstn_all l2), H1, H2. exact HF.
Qed.

Lemma for_each_related {S : Type} (Rel : nat -> S -> S -> Prop)
    (body : nat -> S -> M S) (n a : nat) :
  (forall j s1 s2 w, (a <= j < a + n)%nat -> Rel j s1 s2 ->
     (exists e, body j s1 w = Raise e /\ body j s2 w = Raise e) \/
     (exists s1' s2' w', body j s1 w = Ok (s1', w') /\
                         body j s2 w = Ok (s2', w') /\
                         Rel (Datatypes.S j) s1' s2')) ->
  forall s1 s2 w, Rel a s1 s2 ->
    (exists e, for_each (seq a n) body s1 w = Raise e /\
               for_each (seq a n) body s2 w = Raise e) \/
    (exists s1' s2' w', for_each (seq a n) body s1 w = Ok (s1', w') /\
                        for_each (seq a n) body s2 w = Ok (s2', w') /\
                        Rel (a + n)%nat s1' s2').
Proof.
  revert a. induction n as [| n IH]; intros a Hstep s1 s2 w H0.
  - right. exists s1, s2, w. rewrite Nat.add_0_r. repeat split. exact H0.
  - destruct (Hstep a s1 s2 w ltac:(lia) H0)
      as [(e & E1 & E2) | (t1 & t2 & w1 & E1 & E2 & R1)].
    + left. exists e. simpl. unfold bind. now rewrite E1, E2.
    + destruct (IH (Datatypes.S a)) with (s1 := t1) (s2 := t2) (w := w1)
        as [(e & F1 & F2) | (u1 & u2 & w2 & F1 & F2 & R2)].
      * intros j x1 x2 w' Hj. apply Hstep. lia.
      * exact R1.
      * left. exists e. simpl.
        rewrite (bind_ok _ _ _ _ _ E1), (bind_ok _ _ _ _ _ E2). now split.
      * right. exists u1, u2, w2. simpl.
        rewrite (bind_ok _ _ _ _ _ E1), (bind_ok _ _ _ _ _ E2).
        repeat split; try assumption. now rewrite Nat.add_succ_r.
Qed.

Lemma sensitivity_analysis_forgets (g : Globals.t) (st1 st2 : storage) (w : world) :
  storage_sized (Globals.nsim g) st1 ->
  storage_sized (Globals.nsim g) st2 ->
  sensitivity_analysis g st1 w = sensitivity_analysis g st2 w.
Proof.
  intros (A1 & A2 & A3 & A4) (B1 & B2 & B3 & B4).
  unfold sensitivity_analysis, sensitivity_loop, for_range. cbv zeta.
  set (n := Globals.nsim g) in *.
  set (T0 := repeat (np_zeros (length (Globals.T_k g))) n).
  pose (Rel := fun (i : nat) (s1 s2 : storage) =>
                 (length (q_all s1) = n /\ length (q_all s2) = n /\
                  firstn i (q_all s1) = firstn i (q_all s2)) /\
                 (length (qc_all s1) = n /\ length (qc_all s2) = n /\
                  firstn i (qc_all s1) = firstn i (qc_all s2)) /\
                 (length (c_all s1) = n /\ length (c_all s2) = n /\
                  firstn i (c_all s1) = firstn i (c_all s2)) /\
                 (length (cc_all s1) = n /\ length (cc_all s2) = n /\
                  firstn i (cc_all s1) = firstn i (cc_all s2)) /\
                 T_all s1 = T_all s2).
  destruct (for_each_related Rel
              (fun i st => s <- iteration g ;; lift (store i s st)) n 0)
    with (s1 := mk_storage (q_all st1) (qc_all st1) (c_all st1) (cc_all st1) T0)
         (s2 := mk_storage (q_all st2) (qc_all st2) (c_all st2) (cc_all st2) T0)
         (w := w)
    as [(e & E1 & E2) | (u1 & u2 & w' & E1 & E2 & R)].
  - intros i s1 s2 w1 [_ Hi] ((Q1 & Q2 & QF) & (C1 & C2 & CF) & (D1 & D2 & DF)
                              & (G1 & G2 & GF) & HT).
    simpl in Hi. unfold bind.
    destruct (iteration g w1) as [[s w2] | e]; [| left; exists e; now split].
    unfold lift, store.
    destruct (setitem_related (q_all s1) (q_all s2) i (s_q s))
      as (q1 & q2 & Eq1 & Eq2 & Lq1 & Lq2 & Fq); [lia | lia | exact QF |].
    destruct (setitem_related (c_all s1) (c_all s2) i (s_c s))
      as (c1 & c2 & Ec1 & Ec2 & Lc1 & Lc2 & Fc); [lia | lia | exact DF |].
    destruct (setitem_related (qc_all s1) (qc_all s2) i (s_qc s))
      as (p1 & p2 & Ep1 & Ep2 & Lp1 & Lp2 & Fp); [lia | lia | exact CF |].
    destruct (setitem_related (cc_all s1) (cc_all s2) i (s_cc s))
      as (g1 & g2 & Eg1 & Eg2 & Lg1 & Lg2 & Fg); [lia | lia | exact GF |].
    rewrite Eq1, Eq2, Ec1, Ec2, Ep1, Ep2, Eg1, Eg2, HT. simpl bind_result.
    destruct (setrow (T_all s2) i (s_T s)) as [T' | e].
    + right. simpl bind_result.
      eexists; eexists; eexists. split; [reflexivity |]. split; [reflexivity |].
      unfold Rel. simpl. repeat split; try assumption; lia.
    + left. exists e. now split.
  - unfold Rel. simpl. repeat split; assumption.
  - now rewrite (bind_raise _ _ _ _ E1), (bind_raise _ _ _ _ E2).
  - rewrite (bind_ok _ _ _ _ _ E1), (bind_ok _ _ _ _ _ E2).
    destruct R as ((Q1 & Q2 & QF) & (C1 & C2 & CF) & (D1 & D2 & DF)
                   & (G1 & G2 & GF) & HT).
    simpl in QF, CF, DF, GF.
    pose proof (firstn_all_eq _ _ n Q1 Q2 QF).
    pose proof (firstn_all_eq _ _ n C1 C2 CF).
    pose proof (firstn_all_eq _ _ n D1 D2 DF).
    pose proof (firstn_all_eq _ _ n G1 G2 GF).
    destruct u1, u2. simpl in *. subst. reflexivity.
Qed.

(** X22.  Nothing of what a previous borehole left in the four storage
    arrays reaches the results of the next: for any two storages of
    [nsim] entries the sensitivity analysis gives the same outcome -
    the same summary, the same storage afterwards, or the same error. *)
Theorem sensitivity_analysis_overwrites_storage
    (g : Globals.t) (st1 st2 : storage) (w : world) :
  storage_sized (Globals.nsim g) st1 ->
  storage_sized (Globals.nsim g) st2 ->
  sensitivity_analysis g st1 w = sensitivity_analysis g st2 w.
Proof.
  apply sensitivity_analysis_forgets.
Qed.

Lemma sensitivity_analysis_overwrites_storage_witness :
  sensitivity_analysis Sample.borehole (fresh_storage Sample.borehole)
    Sample.stream =
  sensitivity_analysis Sample.borehole
    (mk_storage [0.065; 0.07] [0.08; 0.09] [12; 13] [14; 15] []) Sample.stream.
Proof.
  apply sensitivity_analysis_overwrites_storage; repeat split.
Defined.

(** ** Failures of the sensitivity analysis *)

Lemma existsb_negative_scale_true (loc scale : array) :
  length loc = length scale ->
  Exists (fun s => s < 0) scale ->
  existsb negative_scale (zip_with pair loc scale) = true.
Proof.
  intros Hlen Hex. revert loc Hlen.
  induction Hex as [s scale Hs | s scale Hex IH]; intros [| l loc] Hlen;
    try discriminate; simpl.
  - unfold negative_scale at 1. simpl.
    destruct (Rlt_dec s 0); [reflexivity | contradiction].
  - injection Hlen as Hlen. rewrite (IH loc Hlen). apply orb_true_r.
Qed.

Lemma normal_arr_negative (loc scale : array) (w : world) :
  length loc = length scale ->
  Exists (fun s => s < 0) scale ->
  normal_arr loc scale w = Raise ValueError.
Proof.
  intros Hlen Hex. unfold normal_arr.
  rewrite (bind_lift_ok _ _ w _ (broadcast2_same_length pair loc scale Hlen)).
  now rewrite existsb_negative_scale_true.
Qed.

Lemma sensitivity_first_pass_raises (g : Globals.t) (st : storage) (w : world)
    (e : exn) :
  (1 <= Globals.nsim g)%nat ->
  iteration g w = Raise e ->
  sensitivity_analysis g st w = Raise e.
Proof.
  intros Hn H. unfold sensitivity_analysis, sensitivity_loop. cbv zeta.
  apply bind_raise. apply for_range_first_raises; [exact Hn |].
  now apply bind_raise.
Qed.

(** X23.  A negative entry among the temperature uncertainties at the
    conductivity depths (a smoothing spline through the measured
    uncertainties can undershoot zero) makes the sensitivity analysis
    raise [ValueError] in its first pass. *)
Theorem sensitivity_analysis_negative_sigma
    (g : Globals.t) (st : storage) (w : world) :
  (1 <= Globals.nsim g)%nat ->
  length (Globals.T_k g) = length (Globals.sigma_T_k g) ->
  Exists (fun s => s < 0) (Globals.sigma_T_k g) ->
  sensitivity_analysis g st w = Raise ValueError.
Proof.
  intros Hn Hlen Hex. apply sensitivity_first_pass_raises; [exact Hn |].
  unfold iteration. apply bind_raise. now apply normal_arr_negative.
Qed.

Lemma sensitivity_analysis_negative_sigma_witness :
  sensitivity_analysis
    (Globals.mk 2 [y2s 100e3] [0] [-2] [0.1] [] [] []
       [5; 15] [3; 3.2] [0.1; 0.1] [10.25; 10.75] [0.1; -0.02])
    (fresh_storage Sample.borehole) Sample.stream = Raise ValueError.
Proof.
  apply sensitivity_analysis_negative_sigma.
  - simpl. lia.
  - reflexivity.
  - simpl. apply Exists_cons_tl, Exists_cons_hd. lra.
Defined.

Lemma lstsq_line_ragged (xs ys : array) :
  length xs <> length ys -> lstsq_line xs ys = Raise LinAlgError.
Proof.
  intros H. unfold lstsq_line.
  destruct (Nat.eqb_spec (length xs) (length ys)); [contradiction | reflexivity].
Qed.

Lemma iteration_ragged_temperatures (g : Globals.t) (w : world) :
  length (Globals.sigma_T_k g) = length (Globals.T_k g) ->
  all_nonneg (Globals.sigma_T_k g) ->
  length (Globals.k g) = length (Globals.z_k g) ->
  length (Globals.sigma_k g) = length (Globals.z_k g) ->
  all_nonneg (Globals.sigma_k g) ->
  length (Globals.T_k g) <> length (Globals.z_k g) ->
  iteration g w = Raise LinAlgError.
Proof.
  intros LsT NsT Lk Lsk Nsk Hne. unfold iteration.
  destruct (normal_arr_ok (Globals.T_k g) (Globals.sigma_T_k g) w)
    as (T0 & E0 & L0 & _); [congruence | exact NsT |].
  rewrite (bind_ok _ _ _ _ _ E0).
  destruct (normal_arr_ok (Globals.k g) (Globals.sigma_k g)
              (advance (length (Globals.T_k g)) w))
    as (kr & E1 & L1 & _); [congruence | exact Nsk |].
  rewrite (bind_ok _ _ _ _ _ E1).
  assert (Lp : length (perturbed_conductivity kr) = length (Globals.z_k g)).
  { rewrite perturbed_conductivity_length. congruence. }
  pose proof (thermal_resistance_aligned (Globals.z_k g) (Globals.z_k g) _ Lp) as ER.
  set (R_ := np_cumsum _) in ER.
  pose proof (thermal_resistance_length _ _ _ _ Lp ER) as LR.
  rewrite (bind_lift_ok _ _ _ _ ER).
  apply bind_raise. unfold lift.
  rewrite least_squares_is_lstsq, lstsq_line_ragged; [reflexivity | congruence].
Qed.

(** X24.  With at most three temperature readings the cell takes the
    readings themselves as the temperatures at the conductivity depths,
    without interpolating; if their number differs from the number of
    conductivity samples, the sensitivity analysis raises [LinAlgError]
    at the first regression. *)
Theorem sensitivity_analysis_few_readings
    (spline : array -> array -> array -> array)
    (z T sigma_T : array) (g : Globals.t) (st : storage) (w : world) :
  (1 <= Globals.nsim g)%nat ->
  (length z <= 3)%nat ->
  (Globals.T_k g, Globals.sigma_T_k g)
    = temperatures_at_conductivity_depths spline z T sigma_T (Globals.z_k g) ->
  length sigma_T = length T ->
  all_nonneg sigma_T ->
  length (Globals.k g) = length (Globals.z_k g) ->
  length (Globals.sigma_k g) = length (Globals.z_k g) ->
  all_nonneg (Globals.sigma_k g) ->
  length T <> length (Globals.z_k g) ->
  sensitivity_analysis g st w = Raise LinAlgError.
Proof.
  intros Hn Hz Hg LsT NsT Lk Lsk Nsk Hne.
  unfold temperatures_at_conductivity_depths in Hg.
  destruct (Nat.leb_spec (length z) 3) as [_ | H]; [| lia].
  injection Hg as HT HsT.
  apply sensitivity_first_pass_raises; [exact Hn |].
  apply iteration_ragged_temperatures; try assumption; congruence.
Qed.

Lemma sensitivity_analysis_few_readings_witness :
  sensitivity_analysis
    (Globals.mk 2 [y2s 100e3] [0] [-2] [0.1] [] [] []
       [5; 15] [3; 3.2] [0.1; 0.1] [10; 10.5; 11] [0.1; 0.1; 0.1])
    (fresh_storage Sample.borehole) Sample.stream = Raise LinAlgError.
Proof.
  apply (sensitivity_analysis_few_readings (fun _ _ zk => zk)
           [0; 10; 20] [10; 10.5; 11] [0.1; 0.1; 0.1]).
  - simpl. lia.
  - simpl. lia.
  - reflexivity.
  - reflexivity.
  - repeat constructor; lra.
  - reflexivity.
  - reflexivity.
  - simpl. repeat constructor; lra.
  - simpl. lia.
Defined.

(** ** The corrected heat flow as a sum *)

Lemma nth_np_zeros (n i : nat) : nth i (np_zeros n) 0 = 0.
Proof.
  unfold np_zeros. revert i. induction n as [| n IH]; intros [| i]; simpl; auto.
Qed.

Lemma correction_profile_length (es : list (R * R * R)) (a z : array) :
  length (correction_profile es a z) = length z.
Proof.
  unfold correction_profile. now rewrite length_map, length_seq.
Qed.

Lemma nth_correction_profile (es : list (R * R * R)) (a z : array) (i : nat) :
  (i < length z)%nat ->
  nth i (correction_profile es a z) 0 = full_correction es (nth i a 0) (nth i z 0).
Proof.
  intros Hi. unfold correction_profile.
  rewrite (nth_indep _ 0 (full_correction es (nth 0 a 0) (nth 0 z 0)))
    by (now rewrite length_map, length_seq).
  rewrite (map_nth (fun i => full_correction es (nth i a 0) (nth i z 0))).
  now rewrite seq_nth.
Qed.

(** The temperatures after the epoch calls are the temperatures before
    plus the correction profile. *)
Lemma apply_epochs_profile (a z T : array) (es : list (R * R * R)) :
  length a = length z -> length T = length z ->
  apply_calls T (map (call_of_epoch a z) es) =
  zip_with Rplus T (correction_profile es a z).
Proof.
  intros Ha HT.
  pose proof (apply_epochs_length a z T es Ha HT) as L1.
  pose proof (correction_profile_length es a z) as L2.
  apply (nth_ext _ _ 0 0).
  - rewrite zip_with_length; congruence.
  - intros i Hi. rewrite L1 in Hi.
    rewrite nth_zip_with by (try congruence; lia).
    rewrite (nth_apply_epochs a z T es i Ha HT Hi).
    now rewrite nth_correction_profile.
Qed.

Lemma thermal_resistance_two_distinct (z_k k R_ : array) :
  strictly_increasing z_k -> (2 <= length z_k)%nat ->
  all_positive k -> length k = length z_k ->
  thermal_resistance z_k z_k k = Ok R_ ->
  two_distinct R_.
Proof.
  intros Hs H2 Hk Hlen E.
  rewrite (thermal_resistance_aligned z_k z_k k Hlen) in E.
  apply Ok_injective in E. subst R_.
  destruct z_k as [| z1 [| z2 zs]]; simpl in H2; try lia.
  destruct k as [| k1 [| k2 ks]]; try discriminate.
  change (np_diff (0 :: z1 :: z2 :: zs))
    with ((z1 - 0) :: (z2 - z1) :: np_diff (z2 :: zs)).
  cbn [zip_with np_cumsum cumsum_from].
  exists ((z1 - 0) / k1), ((z1 - 0) / k1 + (z2 - z1) / k2).
  split; [now left |]. split; [right; now left |].
  assert (Hp : 0 < (z2 - z1) / k2).
  { apply Rdiv_lt_0_compat.
    - inversion Hs as [| ? ? _ Hr]; subst. inversion Hr; subst. lra.
    - inversion Hk as [| ? ? _ Hk']; subst. now inversion Hk'. }
  lra.
Qed.

Lemma perturbed_conductivity_positive (kr : array) :
  all_positive (perturbed_conductivity kr).
Proof.
  unfold perturbed_conductivity. induction kr as [| x kr IH]; constructor;
    [| exact IH].
  pose proof (np_clip_bounds x 0.001 1e99 conductivity_floor_lt_ceiling). lra.
Qed.

Lemma instrumental_epochs_ext (g : Globals.t) (xi xi' : nat -> R) :
  (forall i, xi i = xi' i) -> instrumental_epochs g xi = instrumental_epochs g xi'.
Proof.
  intros H. unfold instrumental_epochs. apply map_ext. intros j. now rewrite H.
Qed.

(** One pass of the sensitivity loop, step by step: the temperatures and
    the conductivities drawn, the resistance, the two regressions and the
    epochs passed in between. *)
Lemma iteration_trace (g : Globals.t) (w : world) :
  well_formed g ->
  let w1 := advance (length (Globals.T_k g)) w in
  let w2 := advance (length (Globals.k g)) w1 in
  exists T0 kr R_ q c qc cc w',
    normal_arr (Globals.T_k g) (Globals.sigma_T_k g) w = Ok (T0, w1) /\
    normal_arr (Globals.k g) (Globals.sigma_k g) w1 = Ok (kr, w2) /\
    length T0 = length (Globals.z_k g) /\
    length kr = length (Globals.z_k g) /\
    thermal_resistance (Globals.z_k g) (Globals.z_k g) (perturbed_conductivity kr)
      = Ok R_ /\
    length R_ = length (Globals.z_k g) /\
    least_squares R_ T0 = Ok (q, c) /\
    let T1 := apply_calls T0
                (map (call_of_epoch (diffusivity (perturbed_conductivity kr))
                        (Globals.z_k g))
                   (pass_epochs g (draws w2))) in
    least_squares R_ T1 = Ok (qc, cc) /\
    iteration g w = Ok (mk_sample q c qc cc T1, w').
Proof.
  intros WF w1 w2. unfold iteration.
  destruct (normal_arr_ok (Globals.T_k g) (Globals.sigma_T_k g) w)
    as (T0 & E0 & L0 & _);
    [rewrite (wf_T_k g WF), (wf_sigma_T_k g WF); reflexivity
    | exact (wf_sT_nonneg g WF) |].
  rewrite (bind_ok _ _ _ _ _ E0). fold w1 in E0 |- *.
  destruct (normal_arr_ok (Globals.k g) (Globals.sigma_k g) w1)
    as (kr & E1 & L1 & _);
    [rewrite (wf_k g WF), (wf_sigma_k g WF); reflexivity
    | exact (wf_sk_nonneg g WF) |].
  rewrite (bind_ok _ _ _ _ _ E1). fold w2 in E1 |- *.
  rewrite (wf_T_k g WF) in L0. rewrite (wf_k g WF) in L1.
  assert (Lk : length (perturbed_conductivity kr) = length (Globals.z_k g)).
  { now rewrite perturbed_conductivity_length. }
  set (a := diffusivity (perturbed_conductivity kr)).
  assert (La : length a = length (Globals.z_k g)).
  { unfold a. now rewrite diffusivity_length. }
  pose proof (thermal_resistance_aligned (Globals.z_k g) (Globals.z_k g) _ Lk) as ER.
  set (R_ := np_cumsum _) in ER.
  assert (LR : length R_ = length (Globals.z_k g)).
  { apply (thermal_resistance_length _ _ _ _ Lk ER). }
  rewrite (bind_lift_ok _ _ _ _ ER).
  destruct (least_squares_total_ols R_ T0) as ([q c] & Eq & _);
    [rewrite LR, L0; reflexivity |].
  rewrite (bind_lift_ok _ _ _ _ Eq).
  destruct (palaeoclimate_loop_trace g a T0 w2 WF La L0) as (w3 & El1 & _ & D3).
  rewrite (bind_ok _ _ _ _ _ El1).
  set (T1 := apply_calls T0 _) in El1 |- *.
  assert (LT1 : length T1 = length (Globals.z_k g)).
  { unfold T1. now apply apply_epochs_length. }
  destruct (instrumental_loop_trace g a T1 w3 WF La LT1) as (w4 & El2 & _ & _).
  rewrite (bind_ok _ _ _ _ _ El2).
  rewrite (instrumental_epochs_ext g (draws w3)
             (fun i => draws w2 (3 * length (Globals.t0 g) + i)%nat) D3).
  unfold T1. rewrite <- apply_calls_app, <- map_app.
  fold (pass_epochs g (draws w2)).
  set (T2 := apply_calls T0 _).
  assert (LT2 : length T2 = length (Globals.z_k g)).
  { unfold T2. now apply apply_epochs_length. }
  destruct (least_squares_total_ols R_ T2) as ([qc cc] & Eqc & _);
    [rewrite LR, LT2; reflexivity |].
  rewrite (bind_lift_ok _ _ _ _ Eqc).
  exists T0, kr, R_, q, c, qc, cc, w4.
  repeat split; assumption || reflexivity.
Qed.

(** X25.  With at least two conductivity samples at strictly increasing
    depths, the climate-corrected heat flow of a pass is its uncorrected
    heat flow plus the slope of the total correction - the specification's
    sum over both epoch tables, at every conductivity depth - fitted
    against the resistances of the same pass, from the conductivities
    drawn in it; likewise for the intercepts. *)
Theorem corrected_heat_flow_is_sum (g : Globals.t) (w : world) :
  well_formed g ->
  strictly_increasing (Globals.z_k g) ->
  (2 <= length (Globals.z_k g))%nat ->
  let w1 := advance (length (Globals.T_k g)) w in
  let w2 := advance (length (Globals.k g)) w1 in
  exists T0 kr R_ s w' dq dc,
    normal_arr (Globals.T_k g) (Globals.sigma_T_k g) w = Ok (T0, w1) /\
    normal_arr (Globals.k g) (Globals.sigma_k g) w1 = Ok (kr, w2) /\
    thermal_resistance (Globals.z_k g) (Globals.z_k g) (perturbed_conductivity kr)
      = Ok R_ /\
    iteration g w = Ok (s, w') /\
    least_squares R_ T0 = Ok (s_q s, s_c s) /\
    least_squares R_
      (correction_profile (pass_epochs g (draws w2))
         (diffusivity (perturbed_conductivity kr)) (Globals.z_k g))
      = Ok (dq, dc) /\
    s_qc s = s_q s + dq /\
    s_cc s = s_c s + dc.
Proof.
  intros WF Hs H2 w1 w2.
  destruct (iteration_trace g w WF)
    as (T0 & kr & R_ & q & c & qc & cc & w' & E0 & E1 & L0 & L1 & ER & LR
        & Eq & Eqc & E).
  fold w1 in E0, E1. fold w2 in E1, Eqc, E.
  set (a := diffusivity (perturbed_conductivity kr)) in *.
  assert (Lp : length (perturbed_conductivity kr) = length (Globals.z_k g)).
  { now rewrite perturbed_conductivity_length. }
  assert (La : length a = length (Globals.z_k g)).
  { unfold a. now rewrite diffusivity_length. }
  set (D := correction_profile (pass_epochs g (draws w2)) a (Globals.z_k g)).
  assert (LD : length D = length (Globals.z_k g))
    by apply correction_profile_length.
  destruct (least_squares_total_ols R_ D) as ([dq dc] & Ed & _);
    [rewrite LR, LD; reflexivity |].
  exists T0, kr, R_, (mk_sample q c qc cc
                        (apply_calls T0
                           (map (call_of_epoch a (Globals.z_k g))
                              (pass_epochs g (draws w2))))), w', dq, dc.
  cbn [s_q s_c s_qc s_cc].
  split; [exact E0 |]. split; [exact E1 |]. split; [exact ER |].
  split; [exact E |]. split; [exact Eq |]. split; [exact Ed |].
  pose proof (thermal_resistance_two_distinct _ _ _ Hs H2
                (perturbed_conductivity_positive kr) Lp ER) as H2d.
  pose proof (least_squares_add R_ T0 D _ _ _ _ H2d (eq_trans L0 (eq_sym LD)) Eq Ed)
    as Hadd.
  cbv zeta in Eqc.
  rewrite (apply_epochs_profile a (Globals.z_k g) T0 _ La L0) in Eqc.
  assert (Hq : Ok (qc, cc) = Ok (q + dq, c + dc)).
  { rewrite <- Eqc. exact Hadd. }
  apply Ok_injective in Hq. split; congruence.
Qed.

Lemma corrected_heat_flow_is_sum_witness :
  let w1 := advance (length (Globals.T_k Sample.borehole)) Sample.stream in
  let w2 := advance (length (Globals.k Sample.borehole)) w1 in
  exists T0 kr R_ s w' dq dc,
    normal_arr (Globals.T_k Sample.borehole) (Globals.sigma_T_k Sample.borehole)
      Sample.stream = Ok (T0, w1) /\
    normal_arr (Globals.k Sample.borehole) (Globals.sigma_k Sample.borehole) w1
      = Ok (kr, w2) /\
    thermal_resistance (Globals.z_k Sample.borehole) (Globals.z_k Sample.borehole)
      (perturbed_conductivity kr) = Ok R_ /\
    iteration Sample.borehole Sample.stream = Ok (s, w') /\
    least_squares R_ T0 = Ok (s_q s, s_c s) /\
    least_squares R_
      (correction_profile (pass_epochs Sample.borehole (draws w2))
         (diffusivity (perturbed_conductivity kr)) (Globals.z_k Sample.borehole))
      = Ok (dq, dc) /\
    s_qc s = s_q s + dq /\
    s_cc s = s_c s + dc.
Proof.
  apply corrected_heat_flow_is_sum.
  - apply sample_borehole_well_formed.
  - simpl. repeat constructor. lra.
  - simpl. lia.
Defined.

(** ** The instrumental record *)

Lemma relative_to_last_snoc (l : array) (x : R) :
  relative_to_last (l ++ [x]) = Ok (map (fun y => y - x) l ++ [0]).
Proof.
  unfold relative_to_last. rewrite rev_app_distr. simpl.
  rewrite map_app. simpl. do 2 f_equal. f_equal. ring.
Qed.

(** X26.  Calendar years in increasing order become times before 1974 in
    decreasing order, which is the order the decadal blocks rely on. *)
Theorem years_before_1974_decreasing (year : array) :
  strictly_increasing year ->
  strictly_decreasing (years_before_1974 year).
Proof.
  unfold strictly_increasing, strictly_decreasing, years_before_1974.
  induction 1 as [| y year _ IH Hd]; simpl; constructor; [exact IH |].
  destruct Hd as [| y' year Hy]; simpl; constructor.
  unfold Rgt, y2s. lra.
Qed.

Lemma years_before_1974_decreasing_witness :
  strictly_decreasing (years_before_1974 [1880; 1881; 1882]).
Proof.
  apply years_before_1974_decreasing.
  unfold strictly_increasing. repeat constructor; lra.
Defined.

(** X27.  For a file of two or more rows the cell returns the years as
    seconds before 1974 and the anomalies re-based on the last one: as
    many as there are rows, the last one zero, and every difference
    between two anomalies unchanged. *)
Theorem relative_to_last_rebases (first : R * R) (rest : list (R * R)) :
  rest <> [] ->
  exists T',
    instrumental_record first rest
    = Ok (years_before_1974 (map fst (first :: rest)), T') /\
    length T' = length (first :: rest) /\
    last T' 1 = 0 /\
    forall i j, (i < length (first :: rest))%nat -> (j < length (first :: rest))%nat ->
      nth i T' 0 - nth j T' 0
      = nth i (map snd (first :: rest)) 0 - nth j (map snd (first :: rest)) 0.
Proof.
  intros Hne. unfold instrumental_record.
  destruct rest as [| r rest]; [congruence |]. cbv zeta.
  set (T := map snd (first :: r :: rest)).
  assert (HT : T <> []) by discriminate.
  assert (LT : length T = length (first :: r :: rest)) by apply length_map.
  destruct (exists_last HT) as (l & x & El). rewrite El in *.
  rewrite relative_to_last_snoc. cbn [bind_result].
  eexists. split; [reflexivity |].
  assert (E : map (fun y => y - x) l ++ [0] = map (fun y => y - x) (l ++ [x])).
  { rewrite map_app. simpl. do 2 f_equal. ring. }
  split; [| split].
  - rewrite <- LT, !length_app, length_map. reflexivity.
  - apply last_last.
  - intros i j Hi Hj. rewrite <- LT in Hi, Hj. rewrite E.
    rewrite (nth_indep _ 0 (0 - x)) by (now rewrite length_map).
    rewrite (nth_indep _ 0 (0 - x) (n := j)) by (now rewrite length_map).
    rewrite !(map_nth (fun y => y - x)). ring.
Qed.

Lemma relative_to_last_rebases_witness :
  exists T',
    instrumental_record Sample.first_year Sample.later_years
    = Ok (years_before_1974 (map fst (Sample.first_year :: Sample.later_years)), T') /\
    length T' = length (Sample.first_year :: Sample.later_years) /\
    last T' 1 = 0 /\
    forall i j, (i < length (Sample.first_year :: Sample.later_years))%nat ->
                (j < length (Sample.first_year :: Sample.later_years))%nat ->
      nth i T' 0 - nth j T' 0
      = nth i (map snd (Sample.first_year :: Sample.later_years)) 0
        - nth j (map snd (Sample.first_year :: Sample.later_years)) 0.
Proof.
  apply (relative_to_last_rebases Sample.first_year Sample.later_years).
  discriminate.
Defined.

(** X28.  The cell raises exactly on a file of a single data row, and
    then [IndexError]: the anomaly column is a scalar there. *)
Theorem instrumental_record_single_row (first : R * R) (rest : list (R * R)) :
  (instrumental_record first rest = Raise IndexError <-> rest = []) /\
  (forall e, instrumental_record first rest = Raise e -> rest = [] /\ e = IndexError).
Proof.
  assert (H : rest <> [] -> exists p, instrumental_record first rest = Ok p).
  { intros Hne. unfold instrumental_record.
    destruct rest as [| r rest]; [congruence |]. cbv zeta.
    destruct (@exists_last _ (map snd (first :: r :: rest))) as (l & x & El);
      [discriminate |].
    rewrite El, relative_to_last_snoc. cbn [bind_result]. eexists. reflexivity. }
  destruct rest as [| r rest].
  - split; [split; reflexivity |]. intros e E. simpl in E.
    injection E as <-. split; reflexivity.
  - destruct H as (p & E); [discriminate |]. rewrite E.
    split; [split; discriminate |]. intros e E'. discriminate.
Qed.

(** ** The cutoff band *)

(** X29.  The cutoff of the solver matters only in a narrow band: when
    the design matrix is exactly rank deficient (a single distinct
    resistance) or keeps its full rank under the cutoff, [least_squares]
    with any cutoff from [0] up to [1] returns what it returns at
    infinite precision. *)
Theorem least_squares_cutoff_band (rcond : R) (R_ T : array) :
  0 <= rcond < 1 ->
  discriminant R_ = 0 \/ well_conditioned rcond R_ ->
  least_squares_rcond rcond R_ T = least_squares R_ T.
Proof.
  intros Hr [HD | HW].
  - rewrite least_squares_rcond_is_lstsq, least_squares_is_lstsq.
    now apply lstsq_rcond_rank_deficient.
  - apply least_squares_rcond_well_conditioned; [lra | exact HW].
Qed.

Lemma least_squares_cutoff_band_witness :
  least_squares_rcond rcond_lapack [1; 1] [2; 4] = least_squares [1; 1] [2; 4].
Proof.
  apply least_squares_cutoff_band.
  - unfold rcond_lapack. lra.
  - left. unfold discriminant. simpl. lra.
Defined.
